(** * BRS auto centering: the threshold-driven heater control loop

    A shallow embedding of [src/brs_utils/auto_centering/auto_centering.py]:
    the threshold decision and the grid walk of [brs_control], the grid
    [np.round(np.sqrt(np.linspace(0, 100, n_grid)), 2)], the channel
    accesses through [ezca], the scheduling loop [schedule_run], the
    sample configuration and the [__main__] block.
    The second script, [src/brs_utils/auto_switcher.py], is embedded in the
    module [Switcher]: its own [schedule_run], its configuration, the
    order of its module-level statements and [RMSseries].

    The numeric code is written once, over an interface [Numeric] of the
    operations the script applies to its [float64] values.  Two instances
    are given: exact rational arithmetic ([Q]), and IEEE binary64
    arithmetic (Rocq's primitive floats), which is the script's own.
    Properties that hold whatever the arithmetic are proved over the
    interface.  Properties of the values are proved in binary64
    arithmetic where rounding or nan decide the outcome (from the
    specification of the primitive floats and from checks over every
    hundredth in range), and in exact arithmetic otherwise; the script's
    scenarios are evaluated in both. *)

From Stdlib Require Import ZArith QArith Qround Qabs Lqa Lia Bool Ascii String.
From Stdlib Require Import Floats.PrimFloat Numbers.Cyclic.Int63.Uint63.
From Stdlib Require Floats.SpecFloat Floats.FloatOps Floats.FloatAxioms.
From stdpp Require Import base list strings pretty gmap.

Set Warnings "-inexact-float".

(** ** Python outcomes *)

(** The exceptions that the script and the library calls it makes can raise. *)
Inductive exn : Type :=
  | ValueError          (* np.linspace with num < 0, np.argmin of an empty array *)
  | IndexError          (* control_grid[i] out of range *)
  | TypeError           (* os.path.splitext(None) *)
  | KeyError            (* config["Default"] or a missing option *)
  | NameError           (* a variable that was never assigned *)
  | EzcaError           (* a channel read or write that fails *)
  | KeyboardInterrupt
  | SystemExit (code : Z).

(** Result of a pure computation: a value, a raised exception, or a loop
    that did not finish within the iterations it was given. *)
Inductive result (A : Type) : Type :=
  | Ok (a : A)
  | Raise (e : exn)
  | Diverge.
Arguments Ok {A} a.
Arguments Raise {A} e.
Arguments Diverge {A}.

Definition rbind {A B : Type} (r : result A) (k : A -> result B) : result B :=
  match r with
  | Ok a => k a
  | Raise e => Raise e
  | Diverge => Diverge
  end.

(** ** The numeric interface *)

Class Numeric (T : Type) : Type := {
  of_int : Z -> T;               (* int operand of a float operation *)
  is_nan : T -> bool;
  n_add : T -> T -> T;
  n_sub : T -> T -> T;
  n_mul : T -> T -> T;
  n_div : T -> T -> T;
  n_abs : T -> T;                (* np.abs *)
  n_ltb : T -> T -> bool;        (* a < b *)
  n_leb : T -> T -> bool;        (* a <= b *)
  n_eqb : T -> T -> bool;        (* a == b *)
  np_round2 : T -> T;            (* np.round(x, 2) *)
  np_round2_sqrt : T -> T        (* np.round(np.sqrt(x), 2) *)
}.

Definition n_gtb {T} `{Numeric T} (a b : T) : bool := n_ltb b a.
Definition n_geb {T} `{Numeric T} (a b : T) : bool := n_leb b a.
Definition n_neb {T} `{Numeric T} (a b : T) : bool := negb (n_eqb a b).

(** *** Exact rational arithmetic *)

Module ExactQ.
Local Open Scope Q_scope.

Definition ltb (a b : Q) : bool := negb (Qle_bool b a).

(** Round to the nearest integer, ties to the even one ([np.rint]). *)
Definition rint (x : Q) : Z :=
  let f := Qfloor x in
  match Qcompare (x - inject_Z f) (1 # 2) with
  | Lt => f
  | Gt => (f + 1)%Z
  | Eq => if Z.even f then f else (f + 1)%Z
  end.

(** [np.round(x, 2)]: [rint(x * 100) / 100]. *)
Definition round2 (x : Q) : Q := rint (x * 100) # 100.

(** [rint(100 * sqrt x)] computed exactly: with [y = 10000 * x] and
    [k = floor (sqrt y)], the fractional part of [sqrt y] is compared
    with one half by comparing [4 * y] with [(2 * k + 1)^2]. *)
Definition rint_sqrt100 (x : Q) : Z :=
  let y := x * 10000 in
  let k := Z.sqrt (Qfloor y) in
  match Qcompare (4 * y) (inject_Z ((2 * k + 1) * (2 * k + 1))) with
  | Lt => k
  | Gt => (k + 1)%Z
  | Eq => if Z.even k then k else (k + 1)%Z
  end.

(** [np.round(np.sqrt(x), 2)] for [x >= 0].  The square root of a
    negative number is nan, which has no rational counterpart; the
    script only takes roots of [np.linspace(0, 100, n_grid)]. *)
Definition round2_sqrt (x : Q) : Q := rint_sqrt100 x # 100.

#[global] Instance numeric : Numeric Q := {|
  of_int := inject_Z;
  is_nan := fun _ => false;
  n_add := Qplus;
  n_sub := Qminus;
  n_mul := Qmult;
  n_div := Qdiv;
  n_abs := Qabs;
  n_ltb := ltb;
  n_leb := Qle_bool;
  n_eqb := Qeq_bool;
  np_round2 := round2;
  np_round2_sqrt := round2_sqrt
|}.

End ExactQ.

(** *** IEEE binary64 arithmetic *)

Module Binary64.

(** The binary64 value of an integer (below [2^63] in magnitude, beyond
    which [of_uint63] wraps: no threshold or grid size comes near). *)
Definition of_Z (z : Z) : float :=
  match z with
  | Z0 => PrimFloat.zero
  | Zpos _ => PrimFloat.of_uint63 (Uint63.of_Z z)
  | Zneg _ => PrimFloat.opp (PrimFloat.of_uint63 (Uint63.of_Z (- z)))
  end.

Definition two52 : float := 4503599627370496%float.

(** [np.rint]: round to the nearest integer, ties to even, in the
    default rounding mode.  Below [2^52] in magnitude adding and
    subtracting [2^52] rounds to an integer; from [2^52] on every
    binary64 value is an integer already. *)
Definition rint (x : float) : float :=
  if PrimFloat.ltb (PrimFloat.abs x) two52 then
    if PrimFloat.ltb x PrimFloat.zero
    then PrimFloat.opp (PrimFloat.sub (PrimFloat.add (PrimFloat.opp x) two52) two52)
    else PrimFloat.sub (PrimFloat.add x two52) two52
  else x.

(** [np.round(x, 2)]: [rint(x * 100.0) / 100.0]. *)
Definition round2 (x : float) : float :=
  PrimFloat.div (rint (PrimFloat.mul x 100%float)) 100%float.

#[global] Instance numeric : Numeric float := {|
  of_int := of_Z;
  is_nan := PrimFloat.is_nan;
  n_add := PrimFloat.add;
  n_sub := PrimFloat.sub;
  n_mul := PrimFloat.mul;
  n_div := PrimFloat.div;
  n_abs := PrimFloat.abs;
  n_ltb := PrimFloat.ltb;
  n_leb := PrimFloat.leb;
  n_eqb := PrimFloat.eqb;
  np_round2 := round2;
  np_round2_sqrt := fun x => round2 (PrimFloat.sqrt x)
|}.

End Binary64.

(** ** The pure part of [brs_control] *)

Section Control.
Context {T : Type} `{Numeric T}.

(** [np.linspace(start, stop, num)] with the default [endpoint=True]. *)
Definition linspace (start stop : T) (num : Z) : result (list T) :=
  if (num <? 0)%Z then Raise ValueError else
  let div := (num - 1)%Z in
  let delta := n_sub stop start in
  let y := (fun i : nat => of_int (Z.of_nat i)) <$> seq 0 (Z.to_nat num) in
  let y :=
    if (0 <? div)%Z then
      let step := n_div delta (of_int div) in
      if n_eqb step (of_int 0)
      then (fun x => n_mul (n_div x (of_int div)) delta) <$> y
      else (fun x => n_mul x step) <$> y
    else (fun x => n_mul x delta) <$> y in
  let y := (fun x => n_add x start) <$> y in
  Ok (if (1 <? num)%Z then <[Z.to_nat div := stop]> y else y).

(** Line 148. *)
Definition make_control_grid (n_grid : Z) : result (list T) :=
  rbind (linspace (of_int 0) (of_int 100) n_grid)
        (fun xs => Ok (np_round2_sqrt <$> xs)).

(** The scan of [np.argmin] over the elements after the first: [mp] is
    the minimum so far, found at [ind]; [i] is the index of the head of
    [l].  A nan is minimal and ends the scan. *)
Fixpoint argmin_scan (l : list T) (i : nat) (mp : T) (ind : nat) : nat :=
  match l with
  | [] => ind
  | x :: l' =>
      if negb (n_geb x mp)
      then if is_nan x then i else argmin_scan l' (S i) x i
      else argmin_scan l' (S i) mp ind
  end.

(** [np.argmin]: the first index of a minimal element. *)
Definition argmin (l : list T) : result nat :=
  match l with
  | [] => Raise ValueError
  | x :: l' => Ok (if is_nan x then 0 else argmin_scan l' 1 x 0)
  end.

(** [control_grid[i]]. *)
Definition getitem (control_grid : list T) (i : nat) : result T :=
  match control_grid !! i with
  | Some x => Ok x
  | None => Raise IndexError
  end.

(** Lines 189-190: [while (i_closest < len(control_grid)-1) and
    (control_grid[i_closest] <= control): i_closest += 1]. *)
Fixpoint while_increment (fuel : nat) (control_grid : list T) (control : T)
    (i_closest : nat) : result nat :=
  if (Z.of_nat i_closest <? Z.of_nat (length control_grid) - 1)%Z then
    rbind (getitem control_grid i_closest) (fun g =>
      if n_leb g control then
        match fuel with
        | O => Diverge
        | S fuel' => while_increment fuel' control_grid control (S i_closest)
        end
      else Ok i_closest)
  else Ok i_closest.

(** Lines 195-196: [while (i_closest > 0) and
    (control_grid[i_closest] >= control): i_closest -= 1]. *)
Fixpoint while_decrement (fuel : nat) (control_grid : list T) (control : T)
    (i_closest : nat) : result nat :=
  if (0 <? i_closest)%nat then
    rbind (getitem control_grid i_closest) (fun g =>
      if n_geb g control then
        match fuel with
        | O => Diverge
        | S fuel' => while_decrement fuel' control_grid control (pred i_closest)
        end
      else Ok i_closest)
  else Ok i_closest.

(** Lines 179-197: the next control value. *)
Definition quantize (control_grid : list T) (control : T)
    (increase_temperature : option bool) : result T :=
  rbind (argmin ((fun g => n_abs (n_sub g control)) <$> control_grid))
    (fun i_closest =>
  match increase_temperature with
  | None => Ok control
  | Some true =>
      rbind (while_increment (length control_grid) control_grid control i_closest)
        (fun i_closest => getitem control_grid i_closest)
  | Some false =>
      rbind (while_decrement (length control_grid) control_grid control i_closest)
        (fun i_closest => getitem control_grid i_closest)
  end).

End Control.

(** ** The world the script runs in *)

Section Machine.
Context {T : Type} `{Numeric T}.

(** The lines the script logs, one constructor per [logger.info] call. *)
Inductive log_line : Type :=
  | LogStarting (time_now : Q)
  | LogCurrent (drift control : T)
  | LogHigher (drift : T) (threshold_upper : Z)
  | LogLower (drift : T) (threshold_lower : Z)
  | LogWithin (drift : T) (threshold_lower threshold_upper : Z)
  | LogSetting (channel : string) (control control_next : T)
  | LogDoingNothing
  | LogNextRun (time_next : Q)
  | LogInterrupted
  | LogGenerating (path : string)
  | LogParsing (config_path optics : string) (control_negated : option bool)
               (threshold_lower threshold_upper n_grid : option Z).

(** What an observer of the process sees.  A channel access that fails
    is recorded as [EvRead _ None] or [EvWrite _ _ false]. *)
Inductive event : Type :=
  | EvLog (l : log_line)
  | EvRead (channel : string) (value : option T)
  | EvWrite (channel : string) (value : T) (ok : bool)
  | EvSleep (seconds : Q)
  | EvFileWrite (path : string)
  | EvAddHandler (path : string).

(** A parsed .ini file: sections, each a list of options with their
    values as text. *)
Definition ini : Type := list (string * list (string * string)).

Record world : Type := World {
  pvs : gmap string T;        (* the value of each channel *)
  faults : list bool;         (* transient failures of the coming channel accesses *)
  clock : Q;                  (* wall-clock time, in seconds; only sleeping takes time *)
  sigint : option Q;          (* time at which the user interrupts *)
  files : gmap string ini;    (* the configuration files on disk *)
  events : list event         (* what has happened, most recent first *)
}.

Definition set_pvs (f : gmap string T -> gmap string T) (w : world) : world :=
  World (f (pvs w)) (faults w) (clock w) (sigint w) (files w) (events w).
Definition set_faults (fs : list bool) (w : world) : world :=
  World (pvs w) fs (clock w) (sigint w) (files w) (events w).
Definition set_clock (t : Q) (w : world) : world :=
  World (pvs w) (faults w) t (sigint w) (files w) (events w).
Definition set_sigint (s : option Q) (w : world) : world :=
  World (pvs w) (faults w) (clock w) s (files w) (events w).
Definition set_files (f : gmap string ini -> gmap string ini) (w : world) : world :=
  World (pvs w) (faults w) (clock w) (sigint w) (f (files w)) (events w).
Definition emit (e : event) (w : world) : world :=
  World (pvs w) (faults w) (clock w) (sigint w) (files w) (e :: events w).

(** Statements: a world transformer with a [result]. *)
Definition M (A : Type) : Type := world -> result A * world.

Definition ret {A} (a : A) : M A := fun w => (Ok a, w).
Definition raise {A} (e : exn) : M A := fun w => (Raise e, w).
Definition diverge {A} : M A := fun w => (Diverge, w).
Definition lift {A} (r : result A) : M A := fun w => (r, w).
Definition bind {A B} (m : M A) (k : A -> M B) : M B := fun w =>
  match m w with
  | (Ok a, w') => k a w'
  | (Raise e, w') => (Raise e, w')
  | (Diverge, w') => (Diverge, w')
  end.

(** [try: body except KeyboardInterrupt: handler]. *)
Definition try_except_KeyboardInterrupt {A} (body handler : M A) : M A := fun w =>
  match body w with
  | (Raise KeyboardInterrupt, w') => handler w'
  | other => other
  end.

Definition logger_info (l : log_line) : M unit := fun w => (Ok tt, emit (EvLog l) w).

(** [datetime.datetime.now()]. *)
Definition datetime_now : M Q := fun w => (Ok (clock w), w).

(** [exit()]. *)
Definition exit {A} : M A := raise (SystemExit 0).

(** The next entry of the fault script, consumed by each channel access. *)
Definition next_fault (w : world) : bool * world :=
  (default false (head (faults w)), set_faults (tail (faults w)) w).

(** [ezca_instance.read(channel)]: fails on a transient fault and on a
    channel that does not exist. *)
Definition ezca_read (channel : string) : M T := fun w =>
  let '(fault, w) := next_fault w in
  match (if fault then None else pvs w !! channel) with
  | Some v => (Ok v, emit (EvRead channel (Some v)) w)
  | None => (Raise EzcaError, emit (EvRead channel None) w)
  end.

(** [ezca_instance.write(channel, value)]. *)
Definition ezca_write (channel : string) (value : T) : M unit := fun w =>
  let '(fault, w) := next_fault w in
  if negb fault && bool_decide (is_Some (pvs w !! channel))
  then (Ok tt, emit (EvWrite channel value true) (set_pvs <[channel := value]> w))
  else (Raise EzcaError, emit (EvWrite channel value false) w).

(** [time.sleep(secs)]: the clock advances; an interrupt that arrives
    before the sleep is over raises [KeyboardInterrupt] at that time. *)
Definition time_sleep (secs : Q) : M unit := fun w =>
  if ExactQ.ltb secs 0 then (Raise ValueError, w) else
  let wake := (clock w + secs)%Q in
  match sigint w with
  | Some t =>
      if Qle_bool t wake
      then (Raise KeyboardInterrupt,
            set_sigint None (set_clock (if Qle_bool t (clock w) then clock w else t) w))
      else (Ok tt, emit (EvSleep secs) (set_clock wake w))
  | None => (Ok tt, emit (EvSleep secs) (set_clock wake w))
  end.

End Machine.

Arguments log_line : clear implicits.
Arguments event : clear implicits.
Arguments world : clear implicits.
Arguments M : clear implicits.

Declare Scope py_scope.
Delimit Scope py_scope with py.
Notation "'let*' x ':=' m 'in' k" := (bind m (fun x => k))
  (at level 10, x name, m at level 100, k at level 200) : py_scope.
Notation "m ';;' k" := (bind m (fun _ => k))
  (at level 100, k at level 200, right associativity) : py_scope.
Local Open Scope py_scope.

(** ** [brs_control] (lines 112-204) *)

Section BrsControl.
Context {T : Type} `{Numeric T}.

(** Lines 155-176: the log line and the value of [increase_temperature]
    of each branch. *)
Definition threshold_branch (drift : T) (control_negated : bool)
    (threshold_lower threshold_upper : Z) : log_line T * option bool :=
  if n_gtb drift (of_int threshold_upper) then
    (LogHigher drift threshold_upper,
     if control_negated then Some true else Some false)
  else if n_ltb drift (of_int threshold_lower) then
    (LogLower drift threshold_lower,
     if control_negated then Some false else Some true)
  else (LogWithin drift threshold_lower threshold_upper, None).

(** The direction alone: [Some true] to increase the temperature,
    [Some false] to decrease it, [None] to do nothing. *)
Definition decide_direction (drift : T) (control_negated : bool)
    (threshold_lower threshold_upper : Z) : option bool :=
  snd (threshold_branch drift control_negated threshold_lower threshold_upper).

Definition channel_drift (optics : string) : string :=
  "ISI-GND_BRS_" +:+ optics +:+ "_DRIFTMON".
Definition channel_control (optics : string) : string :=
  "ISI-GND_BRS_" +:+ optics +:+ "_HEATCTRLIN".

Definition brs_control (optics : string) (control_negated : bool)
    (threshold_lower threshold_upper n_grid : Z) : M T unit :=
  let* time_now := datetime_now in
  logger_info (LogStarting time_now) ;;
  let* drift := ezca_read (channel_drift optics) in
  let* control := ezca_read (channel_control optics) in
  let drift := np_round2 drift in
  let control := np_round2 control in
  let* control_grid := lift (make_control_grid n_grid) in
  logger_info (LogCurrent drift control) ;;
  let '(line, increase_temperature) :=
    threshold_branch drift control_negated threshold_lower threshold_upper in
  logger_info line ;;
  let* control_next := lift (quantize control_grid control increase_temperature) in
  if n_neb control control_next then
    logger_info (LogSetting (channel_control optics) control control_next) ;;
    ezca_write (channel_control optics) control_next
  else
    logger_info LogDoingNothing.

End BrsControl.

(** ** [schedule_run] (lines 78-109) *)

Section Schedule.
Context {T : Type} `{Numeric T}.

(** The body of [while 1:], run at most [fuel] times.  The loop has no
    exit of its own: it ends by an exception or is still running
    ([Diverge]) when the fuel is spent. *)
Fixpoint schedule_loop (fuel : nat) (func : M T unit)
    (time_delta time_sleep_ time_next : Q) : M T unit :=
  match fuel with
  | O => diverge
  | S fuel' =>
      let* now := datetime_now in
      let* time_next :=
        (if ExactQ.ltb time_next now then
           func ;;
           let* time_now := datetime_now in
           let time_next := (time_now + time_delta)%Q in
           logger_info (LogNextRun time_next) ;;
           ret time_next
         else ret time_next) in
      time_sleep time_sleep_ ;;
      schedule_loop fuel' func time_delta time_sleep_ time_next
  end.

Definition schedule_run (func : M T unit) (start_now : bool) (interval_hour : Q)
    (fuel : nat) : M T unit :=
  (if start_now then func else ret tt) ;;
  let* time_now := datetime_now in
  let time_delta := (interval_hour * 3600)%Q in
  let time_next := (time_now + time_delta)%Q in
  let time_sleep_ := (interval_hour * 60 * 60 / 10)%Q in
  logger_info (LogNextRun time_next) ;;
  try_except_KeyboardInterrupt
    (schedule_loop fuel func time_delta time_sleep_ time_next)
    (logger_info LogInterrupted ;; exit).

End Schedule.

(** ** Text of configuration values *)

Module Text.

Definition lower_ascii (c : ascii) : ascii :=
  let n := nat_of_ascii c in
  if (65 <=? n)%nat && (n <=? 90)%nat then ascii_of_nat (n + 32) else c.

Fixpoint lower (s : string) : string :=
  match s with
  | EmptyString => EmptyString
  | String c s' => String (lower_ascii c) (lower s')
  end.

Definition digit (c : ascii) : option Z :=
  let n := nat_of_ascii c in
  if (48 <=? n)%nat && (n <=? 57)%nat then Some (Z.of_nat (n - 48)) else None.

(** The number written by a string of decimal digits, after [acc]. *)
Fixpoint digits (s : string) (acc : Z) : option Z :=
  match s with
  | EmptyString => Some acc
  | String c s' =>
      match digit c with
      | Some d => digits s' (10 * acc + d)
      | None => None
      end
  end.

Definition unsigned (s : string) : option Z :=
  match s with
  | EmptyString => None
  | _ => digits s 0
  end.

(** [int(s)] for a sign followed by decimal digits.  (Python also
    accepts blanks around the number and underscores between digits.) *)
Definition py_int (s : string) : result Z :=
  let r :=
    match s with
    | String "-" s' => Z.opp <$> unsigned s'
    | String "+" s' => unsigned s'
    | _ => unsigned s
    end in
  match r with
  | Some z => Ok z
  | None => Raise ValueError
  end.

(** Splits at the first ['.']. *)
Fixpoint split_point (s : string) : string * option string :=
  match s with
  | EmptyString => (EmptyString, None)
  | String "." s' => (EmptyString, Some s')
  | String c s' => let '(a, b) := split_point s' in (String c a, b)
  end.

Definition unsigned_decimal (s : string) : option Q :=
  match split_point s with
  | (a, None) => inject_Z <$> unsigned a
  | (a, Some b) =>
      match a, b with
      | EmptyString, EmptyString => None
      | _, _ =>
          match digits a 0, digits b 0 with
          | Some x, Some y =>
              Some (inject_Z x + inject_Z y / inject_Z (10 ^ Z.of_nat (String.length b)))%Q
          | _, _ => None
          end
      end
  end.

(** [float(s)] for a sign followed by a decimal number such as [12] or
    [0.001].  (Python also accepts an exponent, blanks, underscores,
    [inf] and [nan].) *)
Definition py_float (s : string) : result Q :=
  let r :=
    match s with
    | String "-" s' => Qopp <$> unsigned_decimal s'
    | String "+" s' => unsigned_decimal s'
    | _ => unsigned_decimal s
    end in
  match r with
  | Some q => Ok q
  | None => Raise ValueError
  end.

(** [configparser]'s table of boolean words. *)
Definition py_boolean (s : string) : result bool :=
  let v := lower s in
  if bool_decide (v ∈ ["1"; "yes"; "true"; "on"]) then Ok true
  else if bool_decide (v ∈ ["0"; "no"; "false"; "off"]) then Ok false
  else Raise ValueError.

(** [str(b)] and [str(z)]. *)
Definition str_bool (b : bool) : string := if b then "True" else "False".
Definition str_int (z : Z) : string := pretty z.

Fixpoint assoc {V : Type} (k : string) (l : list (string * V)) : option V :=
  match l with
  | [] => None
  | (k', v) :: l' => if bool_decide (k = k') then Some v else assoc k l'
  end.

(** [s.rfind(c)], [-1] when [c] does not occur ([i] is the index of
    the head of [s]). *)
Fixpoint rfind_from (c : ascii) (s : string) (i : Z) : Z :=
  match s with
  | EmptyString => (-1)%Z
  | String c' s' =>
      let r := rfind_from c s' (i + 1) in
      if (0 <=? r)%Z then r else if bool_decide (c' = c) then i else (-1)%Z
  end.

Definition rfind (c : ascii) (s : string) : Z := rfind_from c s 0.

Fixpoint take (n : nat) (s : string) : string :=
  match n, s with
  | S n', String c s' => String c (take n' s')
  | _, _ => EmptyString
  end.

Fixpoint drop (n : nat) (s : string) : string :=
  match n, s with
  | S n', String _ s' => drop n' s'
  | _, _ => s
  end.

(** Whether [s] holds a character other than ['.']. *)
Fixpoint has_non_dot (s : string) : bool :=
  match s with
  | EmptyString => false
  | String c s' => negb (bool_decide (c = "."%char)) || has_non_dot s'
  end.

(** [os.path.splitext(p)[0]] on a POSIX system: the extension starts at
    the last dot of the last path component, leading dots apart. *)
Definition splitext_root (p : string) : string :=
  let sepIndex := rfind "/" p in
  let dotIndex := rfind "." p in
  if (sepIndex <? dotIndex)%Z then
    let filenameIndex := (sepIndex + 1)%Z in
    if has_non_dot (take (Z.to_nat (dotIndex - filenameIndex))
                         (drop (Z.to_nat filenameIndex) p))
    then take (Z.to_nat dotIndex) p
    else p
  else p.

End Text.

(** ** Configuration files and the [__main__] block *)

Section Main.
Context {T : Type} `{Numeric T}.

(** Lines 20-34.  [configparser] stores [str(value)] for each value of
    the dictionary assigned to a section. *)
Definition generate_sample_config : M T unit :=
  let config : ini :=
    [("Default",
      [("optics", "ITMX");
       ("control_negated", Text.str_bool false);
       ("threshold_lower", Text.str_int 8192);
       ("threshold_upper", Text.str_int (-8192));
       ("start_now", Text.str_bool false);
       ("interval_hour", "12");
       ("n_grid", "64")])] in
  let path := "brs_control_sample.ini" in
  logger_info (LogGenerating path) ;;
  fun w => (Ok tt, emit (EvFileWrite path) (set_files <[path := config]> w)).

(** What [read_brs_config] returns.  An option that the section lacks
    reads as [None] through [getboolean], [getint] and [getfloat]. *)
Record config : Type := Config {
  cfg_optics : string;
  cfg_control_negated : option bool;
  cfg_threshold_lower : option Z;
  cfg_threshold_upper : option Z;
  cfg_start_now : option bool;
  cfg_interval_hour : option Q;
  cfg_n_grid : option Z
}.

(** [section.getboolean(name)], [section.getint(name)],
    [section.getfloat(name)]. *)
Definition getter {A} (conv : string -> result A)
    (section : list (string * string)) (name : string) : result (option A) :=
  match Text.assoc name section with
  | None => Ok None
  | Some v => rbind (conv v) (fun a => Ok (Some a))
  end.

(** Lines 37-75.  [config.read] skips a file that it cannot open. *)
Definition read_brs_config (config_path : string) : M T config := fun w =>
  let config := default [] (files w !! config_path) in
  let r :=
    match Text.assoc "Default" config with
    | None => Raise KeyError
    | Some default =>
        match Text.assoc "optics" default with
        | None => Raise KeyError
        | Some optics =>
            rbind (getter Text.py_boolean default "control_negated") (fun control_negated =>
            rbind (getter Text.py_int default "threshold_lower") (fun threshold_lower =>
            rbind (getter Text.py_int default "threshold_upper") (fun threshold_upper =>
            rbind (getter Text.py_boolean default "start_now") (fun start_now =>
            rbind (getter Text.py_float default "interval_hour") (fun interval_hour =>
            rbind (getter Text.py_int default "n_grid") (fun n_grid =>
            Ok (Config optics control_negated threshold_lower threshold_upper
                       start_now interval_hour n_grid)))))))
        end
    end in
  (r, w).

(** The result of [parser().parse_args()]. *)
Record Namespace : Type := {
  opts_config : option string;
  opts_get_config : bool
}.

(** Lines 209-238.  A threshold, [n_grid] or [interval_hour] that reads
    as [None] makes the script fail with [TypeError] where it first
    computes with it; the model raises it when the values are handed to
    [schedule_run].  [None] for [control_negated] or [start_now] only
    ever meets an [if], where it counts as false. *)
Definition main (opts : Namespace) (fuel : nat) : M T unit :=
  let config_path := opts_config opts in
  let get_config := opts_get_config opts in
  (if get_config then generate_sample_config ;; exit else ret tt) ;;
  let* cfg :=
    match config_path with
    | Some p => let* c := read_brs_config p in ret (Some c)
    | None => ret None
    end in
  let* filename :=
    match config_path with
    | Some p => ret (Text.splitext_root p)
    | None => raise TypeError
    end in
  (fun w => (Ok tt, emit (EvAddHandler (filename +:+ ".log")) w)) ;;
  match cfg, config_path with
  | Some c, Some p =>
      logger_info (LogParsing p (cfg_optics c) (cfg_control_negated c)
                     (cfg_threshold_lower c) (cfg_threshold_upper c) (cfg_n_grid c)) ;;
      match cfg_threshold_lower c, cfg_threshold_upper c, cfg_n_grid c,
            cfg_interval_hour c with
      | Some threshold_lower, Some threshold_upper, Some n_grid, Some interval_hour =>
          schedule_run
            (brs_control (cfg_optics c) (default false (cfg_control_negated c))
                         threshold_lower threshold_upper n_grid)
            (default false (cfg_start_now c)) interval_hour fuel
      | _, _, _, _ => raise TypeError
      end
  | _, _ => raise NameError
  end.

End Main.

(** * [auto_switcher.py] *)

(** The second script of the repository.  It shares no code with
    [auto_centering.py]: it has a [schedule_run] and a
    [generate_sample_config] of its own, and runs its statements at module
    level. *)

Module Switcher.

(** [int(s)], [None] where it raises [ValueError]. *)
Definition int_of (s : string) : option Z :=
  match Text.py_int s with
  | Ok z => Some z
  | _ => None
  end.

(** The exceptions of this script. *)
Inductive exn : Type :=
  | TypeError
  | KeyError
  | ValueError
  | AttributeError
  | KeyboardInterrupt
  | SystemExit (code : Z).

Inductive result (A : Type) : Type :=
  | Ok (a : A)
  | Raise (e : exn)
  | Diverge.
Arguments Ok {A} a.
Arguments Raise {A} e.
Arguments Diverge {A}.

(** The lines the script logs: lines 40, 44 and 85, and the line of
    [pathswitcher] (lines 232-236, without the two values it prints). *)
Inductive log_line : Type :=
  | LogRunning (time_now : Q)
  | LogInterrupted
  | LogGenerating (path : string)
  | LogSwitched (brs_on : bool).

Inductive event : Type :=
  | EvLog (l : log_line)
  | EvSleep (seconds : Q)
  | EvFileWrite (path : string)
  | EvFileHandler (path : string).

Record world : Type := World {
  clock : Q;                  (* wall-clock time, in seconds *)
  sigint : option Q;          (* time at which the user interrupts *)
  files : gmap string ini;    (* the configuration files on disk *)
  events : list event         (* what has happened, most recent first *)
}.

Definition emit (e : event) (w : world) : world :=
  World (clock w) (sigint w) (files w) (e :: events w).

Definition M (A : Type) : Type := world -> result A * world.

Definition ret {A} (a : A) : M A := fun w => (Ok a, w).
Definition raise {A} (e : exn) : M A := fun w => (Raise e, w).
Definition diverge {A} : M A := fun w => (Diverge, w).
Definition bind {A B} (m : M A) (k : A -> M B) : M B := fun w =>
  match m w with
  | (Ok a, w') => k a w'
  | (Raise e, w') => (Raise e, w')
  | (Diverge, w') => (Diverge, w')
  end.

Declare Scope switcher_scope.
Notation "'let*' x ':=' m 'in' k" := (bind m (fun x => k))
  (at level 10, x name, m at level 100, k at level 200) : switcher_scope.
Notation "m ';;' k" := (bind m (fun _ => k))
  (at level 100, k at level 200, right associativity) : switcher_scope.

(** [try: body except KeyboardInterrupt: handler]. *)
Definition try_except_KeyboardInterrupt {A} (body handler : M A) : M A := fun w =>
  match body w with
  | (Raise KeyboardInterrupt, w') => handler w'
  | other => other
  end.

Definition logger_info (l : log_line) : M unit := fun w => (Ok tt, emit (EvLog l) w).
Definition datetime_now : M Q := fun w => (Ok (clock w), w).
Definition exit {A} : M A := raise (SystemExit 0).

(** [time.sleep(secs)], as for the other script. *)
Definition time_sleep (secs : Q) : M unit := fun w =>
  if ExactQ.ltb secs 0 then (Raise ValueError, w) else
  let wake := (clock w + secs)%Q in
  match sigint w with
  | Some t =>
      if Qle_bool t wake
      then (Raise KeyboardInterrupt,
            World (if Qle_bool t (clock w) then clock w else t) None (files w) (events w))
      else (Ok tt, emit (EvSleep secs) (World wake (sigint w) (files w) (events w)))
  | None => (Ok tt, emit (EvSleep secs) (World wake (sigint w) (files w) (events w)))
  end.

Section Program.
Local Open Scope switcher_scope.

(** ** [schedule_run] (lines 28-45) *)

(** The body of [while True:], run at most [fuel] times. *)
Fixpoint schedule_loop (fuel : nat) (func : M unit) (Run_Interval : Q) : M unit :=
  match fuel with
  | O => diverge
  | S fuel' =>
      let* now := datetime_now in
      logger_info (LogRunning now) ;;
      func ;;
      time_sleep Run_Interval ;;
      schedule_loop fuel' func Run_Interval
  end.

Definition schedule_run (func : M unit) (Run_Interval : Q) (fuel : nat) : M unit :=
  try_except_KeyboardInterrupt
    (schedule_loop fuel func Run_Interval)
    (logger_info LogInterrupted ;; exit).

(** ** The configuration (lines 50-105) *)

(** The result of [parser.parse_args()]. *)
Record Namespace : Type := {
  args_config : option string;
  args_get_config : bool
}.

(** Lines 70-87. *)
Definition generate_sample_config : M unit :=
  let config : ini :=
    [("Default",
      [("Optic", "ETMX");
       ("STS_chn", "L1:ISI-GND_STS_ETMX_X_DQ");
       ("SC_STS_chn", "L1:ISI-GND_SENSCOR_ETMX_SUPER_X_OUT_DQ");
       ("Switch_chn", "L1:SEI-CS_SENSCOR_X_INIT_CHAN");
       ("Filter", "zpk([],[],1,'n')");
       ("Run_Interval", "500");
       ("TS_Length", "1000")])] in
  let path := "brs_switch_sample.ini" in
  logger_info (LogGenerating path) ;;
  fun w => (Ok tt, emit (EvFileWrite path)
                     (World (clock w) (sigint w) (<[path := config]> (files w)) (events w))).

(** The module-level variables of lines 97-102. *)
Record settings : Type := Settings {
  STS_chn : string;
  SC_STS_chn : string;
  SCFilter : string;
  Switch_chn : string;
  Run_Interval : Z;
  TS_len : Z
}.

(** [config["Default"][key]].  (A value is returned as it is written:
    the [%] interpolation of [configparser], which fails on a stray [%],
    is left out.) *)
Definition getitem (config : ini) (key : string) : result string :=
  match Text.assoc "Default" config with
  | None => Raise KeyError
  | Some default =>
      match Text.assoc key default with
      | None => Raise KeyError
      | Some v => Ok v
      end
  end.

Definition rbind {A B : Type} (r : result A) (k : A -> result B) : result B :=
  match r with
  | Ok a => k a
  | Raise e => Raise e
  | Diverge => Diverge
  end.

(** [int(s)]. *)
Definition py_int (s : string) : result Z :=
  match int_of s with
  | Some z => Ok z
  | None => Raise ValueError
  end.

(** Lines 93-102.  [config.read(None)] raises [TypeError] (it iterates
    over its argument); a file that cannot be opened is skipped. *)
Definition read_settings (args : Namespace) : M settings := fun w =>
  match args_config args with
  | None => (Raise TypeError, w)
  | Some path =>
      let config := default [] (files w !! path) in
      (rbind (getitem config "STS_chn") (fun STS_chn =>
       rbind (getitem config "SC_STS_chn") (fun SC_STS_chn =>
       rbind (getitem config "Filter") (fun SCFilter =>
       rbind (getitem config "Switch_chn") (fun Switch_chn =>
       rbind (rbind (getitem config "Run_Interval") py_int) (fun Run_Interval =>
       rbind (rbind (getitem config "TS_Length") py_int) (fun TS_len =>
       Ok (Settings STS_chn SC_STS_chn SCFilter Switch_chn Run_Interval TS_len))))))),
       w)
  end.

(** [logging.FileHandler(path)] opens the log file. *)
Definition logging_FileHandler (path : string) : M unit := fun w =>
  (Ok tt, emit (EvFileHandler path) w).

(** Line 243, [logging.addHandler(loghandler)]: the module [logging] has
    no attribute [addHandler] (it is a method of loggers), so evaluating
    the callee raises [AttributeError]. *)
Definition logging_addHandler : M unit := raise AttributeError.

(** The statements of the module in the order in which they run, for the
    script started as the main program.  The imports of lines 112-119 are
    taken to succeed, and [pathswitcher], which fetches data over the
    network and filters them, is a parameter. *)
Definition script (pathswitcher : M unit) (args : Namespace) (fuel : nat) : M unit :=
  (if args_get_config args then generate_sample_config ;; exit else ret tt) ;;
  let* s := read_settings args in
  let* log_file :=
    match args_config args with
    | Some path => ret (Text.splitext_root path)
    | None => raise TypeError
    end in
  logging_FileHandler (log_file +:+ ".log") ;;
  logging_addHandler ;;
  schedule_run pathswitcher (inject_Z (Run_Interval s)) fuel.

End Program.

(** ** [RMSseries] (lines 182-199) *)

Section Series.
Context {T : Type} `{Numeric T}.

(** [np.cumsum] *)
Fixpoint cumsum_from (acc : T) (x : list T) : list T :=
  match x with
  | [] => []
  | a :: x' => let s := n_add acc a in s :: cumsum_from s x'
  end.

Definition cumsum (x : list T) : list T :=
  match x with
  | [] => []
  | a :: x' => a :: cumsum_from a x'
  end.

Definition RMSseries (x : list T) (binwidth : T) : list T :=
  let x_flipped := reverse x in
  let cs_x := cumsum x_flipped in
  (fun y => n_mul binwidth y) <$> reverse cs_x.

End Series.

End Switcher.

(** * Vocabulary of the properties *)

(** The three directions, as values of [increase_temperature]. *)
Definition Increase : option bool := Some true.
Definition Decrease : option bool := Some false.
Definition Hold : option bool := None.

(** ** Runs and their events *)

Section Runs.
Context {T : Type} `{Numeric T}.

(** [n] successive quantizations, each on the result of the one before. *)
Fixpoint quantize_repeat (n : nat) (control_grid : list T) (control : T)
    (direction : option bool) : result T :=
  match n with
  | O => Ok control
  | S n' =>
      rbind (quantize control_grid control direction)
            (fun control' => quantize_repeat n' control_grid control' direction)
  end.

(** The value line 191 or 197 computes from the two values read: the
    next control value, or the exception of the grid or of the walk. *)
Definition control_next_of (control_negated : bool)
    (threshold_lower threshold_upper n_grid : Z) (drift control : T) : result T :=
  rbind (make_control_grid n_grid) (fun control_grid =>
    quantize control_grid (np_round2 control)
      (decide_direction (np_round2 drift) control_negated
                        threshold_lower threshold_upper)).

(** No event of [evs] is a channel write. *)
Definition no_write (evs : list (event T)) : Prop :=
  forall channel value ok, EvWrite channel value ok ∉ evs.

(** A channel access that failed. *)
Definition is_failure (e : event T) : bool :=
  match e with
  | EvRead _ None => true
  | EvWrite _ _ false => true
  | _ => false
  end.

(** No access of [evs] failed. *)
Definition clean (evs : list (event T)) : Prop :=
  forall e, e ∈ evs -> is_failure e = false.

(** The most recent event of [evs] is a failed access, the only one,
    and it has ended the run with the exception of [ezca]. *)
Definition crashed (evs : list (event T)) (r : result unit) : Prop :=
  exists e rest,
    evs = e :: rest /\ is_failure e = true /\ clean rest /\ r = Raise EzcaError.

(** Either no access failed, or the failed one ended the run. *)
Definition sound (evs : list (event T)) (r : result unit) : Prop :=
  clean evs \/ crashed evs r.

(** What a statement does to the world, as far as the loop cares: it
    adds events, and they are sound for its result. *)
Definition adds_sound (m : M T unit) : Prop :=
  forall w, exists new r w',
    m w = (r, w') /\ events w' = new ++ events w /\ sound new r.

End Runs.

(** The start of a cycle: the "Starting" line it logs first. *)
Definition is_start {T : Type} (e : event T) : bool :=
  match e with
  | EvLog (LogStarting _) => true
  | _ => false
  end.

(** Their number. *)
Definition cycles_started {T : Type} (evs : list (event T)) : nat :=
  length (List.filter is_start evs).

(** A station whose drift reads 9000.123 and whose heater control is at
    6, at time 0, with the given script of transient faults. *)
Definition station (faults : list bool) : world Q :=
  World {[ "ISI-GND_BRS_ITMX_DRIFTMON" := 9000.123%Q;
           "ISI-GND_BRS_ITMX_HEATCTRLIN" := 6%Q ]}
        faults 0%Q None ∅ [].

(** ** Grids *)

Section Grids.
Local Open Scope Q_scope.

(** A grid whose values strictly increase with the index. *)
Definition strictly_increasing (l : list Q) : Prop :=
  forall (i j : nat) (x y : Q),
    l !! i = Some x -> l !! j = Some y -> (i < j)%nat -> x < y.

(** Each value is at most the next ones. *)
Definition weakly_increasing (l : list Q) : Prop :=
  forall (i j : nat) (x y : Q),
    l !! i = Some x -> l !! j = Some y -> (i <= j)%nat -> x <= y.

(** The distances [np.abs(control_grid - control)]. *)
Definition distances (control_grid : list Q) (control : Q) : list Q :=
  (fun g => n_abs (n_sub g control)) <$> control_grid.

(** The abscissa [100 * i / (n - 1)] of index [i]. *)
Definition abscissa (n : Z) (i : nat) : Q :=
  inject_Z (100 * Z.of_nat i) / inject_Z (n - 1).

(** [rint (sqrt (a / b))] for [a >= 0] and [b > 0], in integers. *)
Definition rint_sqrt_ratio (a b : Z) : Z :=
  let k := Z.sqrt (a / b) in
  match (4 * a ?= (2 * k + 1) * (2 * k + 1) * b)%Z with
  | Lt => k
  | Gt => (k + 1)%Z
  | Eq => if Z.even k then k else (k + 1)%Z
  end.

(** The grid in hundredths: [rint (sqrt (10^6 * i / (n - 1)))]. *)
Definition exact_hundredths (n : Z) : list Z :=
  (fun i : nat => rint_sqrt_ratio (1000000 * Z.of_nat i) (n - 1)) <$> seq 0 (Z.to_nat n).

(** Whether the rounded roots rise at each of the [count] indices from
    [i] on, for the grid of [b + 1] values. *)
Fixpoint rises_from (b : Z) (count : nat) (i : Z) : bool :=
  match count with
  | O => true
  | S count' =>
      if (rint_sqrt_ratio (1000000 * i) b <? rint_sqrt_ratio (1000000 * (i + 1)) b)%Z
      then rises_from b count' (i + 1)
      else false
  end.

(** The first index at which the roots may be less than one hundredth
    apart: below it [4 * 10^6 * i * b < (10^6 - b)^2]. *)
Definition first_close (b : Z) : Z :=
  Z.min b ((1000000 - b) * (1000000 - b) / (4000000 * b)).

(** Whether the grid of [n] values rises throughout: the indices from
    [first_close] on are compared; the ones before need not be. *)
Definition size_ok (n : Z) : bool :=
  let b := (n - 1)%Z in
  rises_from b (Z.to_nat (b - first_close b)) (first_close b).

End Grids.

(** A checkable form of "strictly increasing": each value is below the
    next one. *)
Fixpoint ascending_b {T : Type} `{Numeric T} (l : list T) : bool :=
  match l with
  | x :: ((y :: _) as l') => n_ltb x y && ascending_b l'
  | _ => true
  end.

(** The grid sizes from [lo] on, [count] of them. *)
Definition grid_sizes (lo : Z) (count : nat) : list Z :=
  (fun k : nat => (lo + Z.of_nat k)%Z) <$> seq 0 count.

(** The grid of size [n_grid] has [n_grid] values, each below the next. *)
Definition grid_ascends {T : Type} `{Numeric T} (n_grid : Z) : bool :=
  match make_control_grid (T:=T) n_grid with
  | Ok g => bool_decide (length g = Z.to_nat n_grid) && ascending_b g
  | _ => false
  end.

(** The binary64 value nearest to [k / 100]: what [np.round(x, 2)] returns
    for an [x] whose hundredfold rounds to [k]. *)
Definition hundredths (k : Z) : float :=
  PrimFloat.div (Binary64.of_Z k) 100%float.

(** Whether the exact walk on [g] from [k / 100] and the binary64 walk on
    [gf] from the binary64 value of [k / 100] end on the same hundredth. *)
Definition walks_agree (g : list Q) (gf : list float) (direction : option bool)
    (k : Z) : bool :=
  match quantize g (k # 100) direction, quantize gf (hundredths k) direction with
  | Ok r, Ok rf => PrimFloat.eqb (hundredths (Qnum r)) rf && (Qden r =? 100)%positive
  | _, _ => false
  end.

(** Whether the two walks agree on the grid of [n_grid] values, in every
    direction, from the [count] hundredths from [lo] on. *)
Definition grids_agree (n_grid : Z) (lo : Z) (count : nat) : bool :=
  match make_control_grid (T:=Q) n_grid, make_control_grid (T:=float) n_grid with
  | Ok g, Ok gf =>
      forallb (fun direction => forallb (walks_agree g gf direction) (grid_sizes lo count))
              [Increase; Decrease; Hold]
  | _, _ => false
  end.

(** ** The order of binary64 values *)

(** The place of a value that is not nan in the order of [SpecFloat.SFcompare], by
    which the comparisons of primitive floats are specified: the sign
    class first, then the exponent, then the mantissa. *)
Definition sf_key (a : SpecFloat.spec_float) : Z * Z * Z :=
  match a with
  | SpecFloat.S754_nan => (0, 0, 0)%Z
  | SpecFloat.S754_infinity true => (-2, 0, 0)%Z
  | SpecFloat.S754_infinity false => (2, 0, 0)%Z
  | SpecFloat.S754_zero _ => (0, 0, 0)%Z
  | SpecFloat.S754_finite true m e => (-1, - e, - Zpos m)%Z
  | SpecFloat.S754_finite false m e => (1, e, Zpos m)%Z
  end.

(** The lexicographic comparison of two keys. *)
Definition key_compare (x y : Z * Z * Z) : comparison :=
  let '(x1, x2, x3) := x in
  let '(y1, y2, y3) := y in
  match (x1 ?= y1)%Z with
  | Eq => match (x2 ?= y2)%Z with
          | Eq => (x3 ?= y3)%Z
          | c => c
          end
  | c => c
  end.

(** A binary64 value other than nan. *)
Definition not_nan (x : float) : Prop := PrimFloat.is_nan x = false.

(** ** Tables of binary64 hundredths *)

(** Whether [f] holds of the [count] integers from [k] on. *)
Fixpoint all_from (f : Z -> bool) (count : nat) (k : Z) : bool :=
  match count with
  | O => true
  | S count' => if f k then all_from f count' (k + 1) else false
  end.

(** Whether the binary64 value of [k / 100] is below that of
    [(k + 1) / 100]. *)
Definition hundredths_rise (k : Z) : bool :=
  PrimFloat.ltb (hundredths k) (hundredths (k + 1)).

(** The distance of line 180 between two hundredths, in binary64. *)
Definition distance64 (a kv : Z) : float :=
  PrimFloat.abs (PrimFloat.sub (hundredths a) (hundredths kv)).

(** Whether, over the [count] hundredths after [a], the binary64 distance
    to [kv / 100] strictly falls up to [kv] and strictly rises from [kv]
    on; [hv] is the value of [kv / 100] and [da] the distance of [a]. *)
Fixpoint distances_turn (count : nat) (a kv : Z) (hv da : float) : bool :=
  match count with
  | O => true
  | S count' =>
      let db := PrimFloat.abs (PrimFloat.sub (hundredths (a + 1)) hv) in
      if (if (a + 1 <=? kv)%Z then PrimFloat.ltb db da else PrimFloat.ltb da db)
      then distances_turn count' (a + 1) kv hv db
      else false
  end.

(** The same over the hundredths from 0.00 to 10.00. *)
Definition distances_turn_at (kv : Z) : bool :=
  distances_turn 1000 0 kv (hundredths kv) (distance64 0 kv).

(** Whether [np.round(x, 2)] returns the binary64 value of [k / 100]
    unchanged. *)
Definition round2_fixed (k : Z) : bool :=
  PrimFloat.Leibniz.eqb (Binary64.round2 (hundredths k)) (hundredths k).

(** ** Grids of hundredths *)

(** A grid given by its numerators ([ks] stands for the values
    [k / 100]) rises: each numerator is below the ones after it. *)
Definition rising (ks : list Z) : Prop :=
  forall (i j : nat) (a b : Z),
    ks !! i = Some a -> ks !! j = Some b -> (i < j)%nat -> (a < b)%Z.

(** The number of values of [ks] below [kv]. *)
Definition count_below (kv : Z) (ks : list Z) : nat :=
  length (List.filter (fun k => (k <? kv)%Z) ks).

(** The number of values of [ks] that are at most [kv]. *)
Definition count_upto (kv : Z) (ks : list Z) : nat :=
  length (List.filter (fun k => (k <=? kv)%Z) ks).

(** Whether two lists hold the same binary64 values, one by one. *)
Fixpoint same_floats (l l' : list float) : bool :=
  match l, l' with
  | [], [] => true
  | x :: l, y :: l' => PrimFloat.Leibniz.eqb x y && same_floats l l'
  | _, _ => false
  end.

(** Whether the binary64 grid of [n_grid] values holds, value for value,
    the binary64 hundredths of the exact grid. *)
Definition grid_in_hundredths (n_grid : Z) : bool :=
  match make_control_grid (T:=float) n_grid with
  | Ok g => same_floats g (hundredths <$> exact_hundredths n_grid)
  | _ => false
  end.

(** ** Cycles in time *)

(** The time a cycle started at, for the "Starting" line it logs. *)
Definition start_time {T : Type} (e : event T) : option Q :=
  match e with
  | EvLog (LogStarting time_now) => Some time_now
  | _ => None
  end.

(** The times at which the cycles of [evs] started, most recent first. *)
Definition start_times {T : Type} (evs : list (event T)) : list Q :=
  omap start_time evs.

(** Each time of [times] (most recent first) is more than [delta] after
    the one before it. *)
Definition spaced (delta : Q) (times : list Q) : Prop :=
  forall (i : nat) (later earlier : Q),
    times !! i = Some later -> times !! S i = Some earlier ->
    (earlier + delta < later)%Q.

(** The first [n] channel accesses to come meet no transient fault. *)
Definition fault_free (n : nat) (faults : list bool) : Prop :=
  forall k, (k < n)%nat -> faults !! k <> Some true.
(** The events of a cycle whose reads succeed, up to the decision, most
    recent first. *)
Definition cycle_prelude {T : Type} `{Numeric T} (optics : string)
    (control_negated : bool) (threshold_lower threshold_upper : Z) (d c : T)
    (now : Q) : list (event T) :=
  [EvLog (fst (threshold_branch (np_round2 d) control_negated
                 threshold_lower threshold_upper));
   EvLog (LogCurrent (np_round2 d) (np_round2 c));
   EvRead (channel_control optics) (Some c);
   EvRead (channel_drift optics) (Some d);
   EvLog (LogStarting now)].
(** What [schedule_run] relies on in the function it runs, as this model
    has it for [brs_control]: a call takes no time, leaves a pending
    interrupt pending, logs "Starting" once, first, and never sleeps; it
    returns normally or raises an exception among [allowed]. *)
Definition runs_one_cycle {T : Type} (allowed : exn -> Prop) (func : M T unit) : Prop :=
  forall w, exists rest r w',
    func w = (r, w') /\
    clock w' = clock w /\ sigint w' = sigint w /\
    events w' = (rest ++ [EvLog (LogStarting (clock w))]) ++ events w /\
    (forall e, e ∈ rest -> start_time e = None /\ forall s, e <> EvSleep s) /\
    (r = Ok tt \/ exists e, r = Raise e /\ allowed e).

(** What [schedule_run] relies on in the function it runs, when a call
    takes time and can be interrupted: the clock does not go back and the
    call never sleeps.  Left alone, the call logs "Starting" once, with
    the time it was called at, and returns normally, a pending interrupt
    still pending, or raises an exception among [allowed]; interrupted, it
    raises [KeyboardInterrupt], before or after that line. *)
Definition runs_one_cycle_in_time {T : Type} (allowed : exn -> Prop)
    (func : M T unit) : Prop :=
  forall w, exists new r w',
    func w = (r, w') /\
    (clock w <= clock w')%Q /\
    events w' = new ++ events w /\
    (forall s, EvSleep s ∉ new) /\
    ((((r = Ok tt /\ sigint w' = sigint w) \/ exists e, r = Raise e /\ allowed e) /\
      start_times new = [clock w]) \/
     (r = Raise KeyboardInterrupt /\
      (start_times new = [] \/ start_times new = [clock w]))).

(** The exceptions a cycle can raise. *)
Definition cycle_exception (e : exn) : Prop := e = EzcaError \/ e = ValueError.
(** [m] successive calls of [cycle], as the loop of [schedule_run] makes
    them as long as none raises. *)
Fixpoint run_cycles {T : Type} (m : nat) (cycle : M T unit) : M T unit :=
  match m with
  | O => ret tt
  | S m' => cycle ;; run_cycles m' cycle
  end.

(** ** The switcher *)

(** The times of the checks of [evs], most recent first. *)
Definition check_time (e : Switcher.event) : option Q :=
  match e with
  | Switcher.EvLog (Switcher.LogRunning time_now) => Some time_now
  | _ => None
  end.

Definition check_times (evs : list Switcher.event) : list Q := omap check_time evs.

(** Each time of [times] (most recent first) is at least [delta] after
    the one before it. *)
Definition apart (delta : Q) (times : list Q) : Prop :=
  forall (i : nat) (later earlier : Q),
    times !! i = Some later -> times !! S i = Some earlier ->
    (earlier + delta <= later)%Q.

(** A function that logs no check of its own and does not set the clock
    back. *)
Definition passes_time (func : Switcher.M unit) : Prop :=
  forall w, exists new r w',
    func w = (r, w') /\
    (Switcher.clock w <= Switcher.clock w')%Q /\
    Switcher.events w' = new ++ Switcher.events w /\
    check_times new = [].

(** The sum of a list of rationals. *)
Definition Qsum (x : list Q) : Q := foldr Qplus 0%Q x.

(** * Properties *)

(** ** Comparisons of the exact instance *)

Lemma Q_ltb_lt (a b : Q) : ExactQ.ltb a b = true <-> (a < b)%Q.
Proof.
  unfold ExactQ.ltb. rewrite negb_true_iff.
  destruct (Qle_bool b a) eqn:E.
  - apply Qle_bool_iff in E. split; [discriminate | intros Hlt; lra].
  - split; [intros _ | reflexivity].
    destruct (Qlt_le_dec a b) as [Hlt | Hle]; [exact Hlt |].
    apply Qle_bool_iff in Hle. congruence.
Qed.

Lemma Q_ltb_ge (a b : Q) : ExactQ.ltb a b = false <-> (b <= a)%Q.
Proof.
  unfold ExactQ.ltb. rewrite negb_false_iff. apply Qle_bool_iff.
Qed.

Lemma Q_leb_gt (a b : Q) : Qle_bool a b = false <-> (b < a)%Q.
Proof.
  rewrite <- Q_ltb_lt. unfold ExactQ.ltb.
  destruct (Qle_bool a b); simpl; split; congruence.
Qed.

(** ** The threshold decision *)

(** The decision follows the comparisons of lines 155 and 165, in any
    arithmetic: in binary64 a nan drift compares false both times and is
    held. *)
Lemma decide_direction_cases {T : Type} `{Numeric T} (drift : T)
    (control_negated : bool) (threshold_lower threshold_upper : Z) :
  decide_direction drift control_negated threshold_lower threshold_upper
  = if n_gtb drift (of_int threshold_upper) then
      (if control_negated then Increase else Decrease)
    else if n_ltb drift (of_int threshold_lower) then
      (if control_negated then Decrease else Increase)
    else Hold.
Proof.
  unfold decide_direction, threshold_branch.
  destruct (n_gtb drift (of_int threshold_upper)); [reflexivity |].
  destruct (n_ltb drift (of_int threshold_lower)); reflexivity.
Qed.

(** C1. For every drift [m], thresholds and polarity, the decision of
    [brs_control] is: above the upper threshold, increase when the control
    is negated and decrease when it is not; otherwise, below the lower
    threshold, decrease when negated and increase when not; otherwise,
    which includes a drift equal to a threshold, hold.  With thresholds
    in order the second case needs no "otherwise".  With thresholds
    -8192 and 8192, control not negated and a drift of 9000 the decision
    is to decrease, in exact and in binary64 arithmetic. *)
Theorem threshold_decision (m : Q) (lower upper : Z) (negated : bool) :
  ((inject_Z upper < m)%Q ->
     decide_direction m negated lower upper = if negated then Increase else Decrease) /\
  ((m <= inject_Z upper)%Q -> (m < inject_Z lower)%Q ->
     decide_direction m negated lower upper = if negated then Decrease else Increase) /\
  ((lower <= upper)%Z -> (m < inject_Z lower)%Q ->
     decide_direction m negated lower upper = if negated then Decrease else Increase) /\
  ((m <= inject_Z upper)%Q -> (inject_Z lower <= m)%Q ->
     decide_direction m negated lower upper = Hold) /\
  ((lower <= upper)%Z -> (m == inject_Z upper \/ m == inject_Z lower)%Q ->
     decide_direction m negated lower upper = Hold) /\
  decide_direction 9000%Q false (-8192)%Z 8192%Z = Decrease /\
  decide_direction 9000%float false (-8192)%Z 8192%Z = Decrease.
Proof.
  assert (Hhi : (inject_Z upper < m)%Q ->
            decide_direction m negated lower upper = if negated then Increase else Decrease).
  { intros Hgt. rewrite decide_direction_cases. unfold n_gtb. simpl.
    apply Q_ltb_lt in Hgt. rewrite Hgt. reflexivity. }
  assert (Hlo : (m <= inject_Z upper)%Q -> (m < inject_Z lower)%Q ->
            decide_direction m negated lower upper = if negated then Decrease else Increase).
  { intros Hle Hlt. rewrite decide_direction_cases. unfold n_gtb. simpl.
    apply Q_ltb_ge in Hle. apply Q_ltb_lt in Hlt. rewrite Hle, Hlt. reflexivity. }
  assert (Hmid : (m <= inject_Z upper)%Q -> (inject_Z lower <= m)%Q ->
            decide_direction m negated lower upper = Hold).
  { intros Hle Hge. rewrite decide_direction_cases. unfold n_gtb. simpl.
    apply Q_ltb_ge in Hle, Hge. rewrite Hle, Hge. reflexivity. }
  split_and!; [exact Hhi | exact Hlo | | exact Hmid | | reflexivity | reflexivity].
  - intros Hord Hlt. apply Hlo; [| exact Hlt].
    rewrite Zle_Qle in Hord. lra.
  - intros Hord Heq. rewrite Zle_Qle in Hord.
    apply Hmid; destruct Heq as [Heq | Heq]; rewrite Heq; lra.
Qed.

(** ** Holding *)

Section Hold.
Context {T : Type} `{Numeric T}.

Lemma argmin_nonempty (l : list T) : l <> [] -> exists i, argmin l = Ok i.
Proof.
  destruct l as [| x l']; [congruence |]. intros _. simpl. eauto.
Qed.

Lemma quantize_hold_eq (control_grid : list T) (control : T) :
  control_grid <> [] -> quantize control_grid control Hold = Ok control.
Proof.
  intros Hne. unfold quantize.
  destruct (argmin_nonempty ((fun g => n_abs (n_sub g control)) <$> control_grid))
    as [i Hi].
  - destruct control_grid; [congruence | discriminate].
  - rewrite Hi. reflexivity.
Qed.

End Hold.

(** Without a grid value there is nothing to hold on to: [np.argmin]
    of line 180 raises before the direction is looked at. *)
Example quantize_empty_grid {T : Type} `{Numeric T} (control : T)
    (direction : option bool) :
  quantize [] control direction = Raise ValueError.
Proof. reflexivity. Qed.

(** C3. On every grid (a grid has at least one value), whatever the
    arithmetic, quantizing with the direction Hold returns the current
    value itself, not snapped onto the grid; so any number of successive
    Hold quantizations returns it too. *)
Theorem quantize_hold {T : Type} `{Numeric T} (control_grid : list T) (control : T) :
  control_grid <> [] ->
  quantize control_grid control Hold = Ok control /\
  forall n, quantize_repeat n control_grid control Hold = Ok control.
Proof.
  intros Hne. split; [apply quantize_hold_eq, Hne |].
  induction n as [| n IH]; [reflexivity |].
  simpl. rewrite quantize_hold_eq by exact Hne. exact IH.
Qed.

Lemma quantize_hold_witness :
  [0; 5.77; 8.16; 10]%Q <> [] /\
  quantize [0; 5.77; 8.16; 10]%Q 6.5%Q Hold = Ok 6.5%Q.
Proof.
  split; [discriminate |].
  apply (quantize_hold [0; 5.77; 8.16; 10]%Q 6.5%Q). discriminate.
Defined.

(** ** The grid walk in exact arithmetic *)

(** The distances [np.abs(control_grid - control)] are exact here.  In
    binary64 the subtraction rounds, so that for a current value many
    orders of magnitude beyond the grid (from about 1e15 on) several
    distances coincide, and a nan makes every comparison false: the walk
    in binary64 arithmetic has a section of its own below. *)

Section GridWalk.
Local Open Scope Q_scope.

Lemma strictly_increasing_le (l : list Q) (i j : nat) (x y : Q) :
  strictly_increasing l ->
  l !! i = Some x -> l !! j = Some y -> (i <= j)%nat -> x <= y.
Proof.
  intros Hs Hi Hj Hij.
  destruct (decide (i = j)) as [-> | Hne].
  - rewrite Hi in Hj. injection Hj as ->. lra.
  - apply Qlt_le_weak, (Hs i j); [assumption.. | lia].
Qed.

(** The scan keeps the first minimum of what it has seen: [pre] is the
    part of the array already scanned. *)
Lemma argmin_scan_first_min (l pre : list Q) (mp : Q) (ind : nat) :
  pre !! ind = Some mp ->
  (forall j x, pre !! j = Some x -> mp <= x) ->
  (forall j x, pre !! j = Some x -> (j < ind)%nat -> mp < x) ->
  exists m,
    (pre ++ l) !! argmin_scan l (length pre) mp ind = Some m /\
    (forall j x, (pre ++ l) !! j = Some x -> m <= x) /\
    (forall j x, (pre ++ l) !! j = Some x ->
                 (j < argmin_scan l (length pre) mp ind)%nat -> m < x).
Proof.
  revert pre mp ind.
  induction l as [| a l IH]; intros pre mp ind Hind Hmin Hfirst.
  - simpl. rewrite app_nil_r. eauto.
  - simpl. unfold n_geb. simpl.
    assert (Hlen : (pre ++ [a]) !! length pre = Some a).
    { rewrite lookup_app_r by lia. rewrite Nat.sub_diag. reflexivity. }
    assert (Hsnoc : forall j x, (pre ++ [a]) !! j = Some x ->
              pre !! j = Some x \/ (j = length pre /\ x = a)).
    { intros j x Hj. destruct (decide (j < length pre)%nat) as [Hlt | Hge].
      - left. rewrite lookup_app_l in Hj by exact Hlt. exact Hj.
      - right. rewrite lookup_app_r in Hj by lia.
        destruct (j - length pre)%nat as [| k] eqn:Ek; simpl in Hj.
        + injection Hj as <-. split; [lia | reflexivity].
        + rewrite lookup_nil in Hj. discriminate. }
    replace (pre ++ a :: l) with ((pre ++ [a]) ++ l)
      by (rewrite <- app_assoc; reflexivity).
    replace (S (length pre)) with (length (pre ++ [a]))
      by (rewrite length_app; simpl; lia).
    destruct (Qle_bool mp a) eqn:E; simpl.
    + apply Qle_bool_iff in E. apply IH.
      * apply lookup_app_l_Some. exact Hind.
      * intros j x Hj. destruct (Hsnoc j x Hj) as [Hp | [_ ->]]; eauto.
      * intros j x Hj Hlt. destruct (Hsnoc j x Hj) as [Hp | [-> ->]]; eauto.
        apply lookup_lt_Some in Hind. lia.
    + apply Q_leb_gt in E.
      replace (length pre) with (length (pre ++ [a]) - 1)%nat at 2
        by (rewrite length_app; simpl; lia).
      replace (length (pre ++ [a]) - 1)%nat with (length pre)
        by (rewrite length_app; simpl; lia).
      apply IH.
      * exact Hlen.
      * intros j x Hj. destruct (Hsnoc j x Hj) as [Hp | [_ ->]]; [| lra].
        specialize (Hmin j x Hp). lra.
      * intros j x Hj Hlt. destruct (Hsnoc j x Hj) as [Hp | [-> _]]; [| lia].
        specialize (Hmin j x Hp). lra.
Qed.

(** [np.argmin] of a non-empty array returns the first index of a least
    element. *)
Lemma argmin_first_min (l : list Q) :
  l <> [] ->
  exists i m,
    argmin l = Ok i /\ l !! i = Some m /\
    (forall j x, l !! j = Some x -> m <= x) /\
    (forall j x, l !! j = Some x -> (j < i)%nat -> m < x).
Proof.
  destruct l as [| a l]; [congruence |]. intros _.
  destruct (argmin_scan_first_min l [a] a 0) as (m & Hm & Hmin & Hfirst).
  - reflexivity.
  - intros [| j] x Hj; simpl in Hj; [injection Hj as <-; lra |].
    rewrite lookup_nil in Hj. discriminate.
  - intros j x _ Hlt. lia.
  - exists (argmin_scan l 1 a 0), m. simpl in *. auto.
Qed.

(** The starting index of the walk: a closest grid value, the first of
    them. *)
Lemma argmin_closest (control_grid : list Q) (control : Q) :
  control_grid <> [] ->
  exists i g,
    argmin (distances control_grid control) = Ok i /\
    control_grid !! i = Some g /\
    (forall j x, control_grid !! j = Some x ->
                 Qabs (g - control) <= Qabs (x - control)) /\
    (forall j x, control_grid !! j = Some x -> (j < i)%nat ->
                 Qabs (g - control) < Qabs (x - control)).
Proof.
  intros Hne.
  destruct (argmin_first_min (distances control_grid control))
    as (i & m & Hi & Hm & Hmin & Hfirst).
  { destruct control_grid; [congruence | discriminate]. }
  unfold distances in Hm. rewrite list_lookup_fmap in Hm.
  destruct (control_grid !! i) as [g |] eqn:Hg; [| discriminate].
  injection Hm as <-.
  exists i, g. split_and!; [exact Hi | exact Hg | ..].
  - intros j x Hj. apply (Hmin j).
    unfold distances. rewrite list_lookup_fmap, Hj. reflexivity.
  - intros j x Hj Hlt. apply (Hfirst j); [| exact Hlt].
    unfold distances. rewrite list_lookup_fmap, Hj. reflexivity.
Qed.

(** The upward walk ends, within the grid, on the first index from
    [i] whose value exceeds [control], or on the last index. *)
Lemma while_increment_spec (control_grid : list Q) (control : Q) (fuel i : nat) :
  (i < length control_grid)%nat ->
  (length control_grid - 1 - i <= fuel)%nat ->
  exists k g,
    while_increment fuel control_grid control i = Ok k /\
    control_grid !! k = Some g /\ (i <= k)%nat /\
    (forall j x, (i <= j < k)%nat -> control_grid !! j = Some x -> x <= control) /\
    (control < g \/ (k = length control_grid - 1)%nat).
Proof.
  revert i. induction fuel as [| fuel IH]; intros i Hi Hfuel.
  - destruct (lookup_lt_is_Some_2 control_grid i Hi) as [g Hg].
    exists i, g. simpl.
    destruct (Z.ltb_spec (Z.of_nat i) (Z.of_nat (length control_grid) - 1)); [lia |].
    split_and!; [reflexivity | exact Hg | lia | intros; lia | right; lia].
  - destruct (lookup_lt_is_Some_2 control_grid i Hi) as [g Hg].
    simpl.
    destruct (Z.ltb_spec (Z.of_nat i) (Z.of_nat (length control_grid) - 1)) as [Hlt | Hge].
    + unfold getitem. rewrite Hg. simpl.
      destruct (Qle_bool g control) eqn:E.
      * apply Qle_bool_iff in E.
        destruct (IH (S i)) as (k & g' & Hk & Hg' & Hik & Hbelow & Hend); [lia.. |].
        exists k, g'. split_and!; [exact Hk | exact Hg' | lia | | exact Hend].
        intros j x Hj Hx. destruct (decide (j = i)) as [-> | Hne].
        -- rewrite Hg in Hx. injection Hx as <-. exact E.
        -- apply (Hbelow j); [lia | exact Hx].
      * apply Q_leb_gt in E. exists i, g.
        split_and!; [reflexivity | exact Hg | lia | intros; lia | left; exact E].
    + exists i, g. split_and!; [reflexivity | exact Hg | lia | intros; lia | right; lia].
Qed.

(** The downward walk ends on the first index from [i] down whose value
    is below [control], or on index 0. *)
Lemma while_decrement_spec (control_grid : list Q) (control : Q) (fuel i : nat) :
  (i < length control_grid)%nat ->
  (i <= fuel)%nat ->
  exists k g,
    while_decrement fuel control_grid control i = Ok k /\
    control_grid !! k = Some g /\ (k <= i)%nat /\
    (forall j x, (k < j <= i)%nat -> control_grid !! j = Some x -> control <= x) /\
    (g < control \/ k = 0%nat).
Proof.
  revert i. induction fuel as [| fuel IH]; intros i Hi Hfuel.
  - destruct (lookup_lt_is_Some_2 control_grid i Hi) as [g Hg].
    assert (i = 0%nat) as -> by lia.
    exists 0%nat, g. simpl.
    split_and!; [reflexivity | exact Hg | lia | intros; lia | right; reflexivity].
  - destruct (lookup_lt_is_Some_2 control_grid i Hi) as [g Hg].
    simpl. destruct i as [| i'].
    + exists 0%nat, g. simpl.
      split_and!; [reflexivity | exact Hg | lia | intros; lia | right; reflexivity].
    + simpl. unfold getitem. rewrite Hg. simpl. unfold n_geb. simpl.
      destruct (Qle_bool control g) eqn:E.
      * apply Qle_bool_iff in E.
        destruct (IH i') as (k & g' & Hk & Hg' & Hik & Habove & Hend); [lia.. |].
        exists k, g'. split_and!; [exact Hk | exact Hg' | lia | | exact Hend].
        intros j x Hj Hx. destruct (decide (j = S i')) as [-> | Hne].
        -- rewrite Hg in Hx. injection Hx as <-. exact E.
        -- apply (Habove j); [lia | exact Hx].
      * apply Q_leb_gt in E. exists (S i'), g.
        split_and!; [reflexivity | exact Hg | lia | intros; lia | left; exact E].
Qed.

(** Increasing ends on a grid value at an index [k] such that every
    value before [k] is at most [control], and either it exceeds
    [control] or [k] is the last index. *)
Lemma quantize_increase_spec (control_grid : list Q) (control : Q) :
  control_grid <> [] -> strictly_increasing control_grid ->
  exists k r,
    quantize control_grid control Increase = Ok r /\
    control_grid !! k = Some r /\
    (forall j x, (j < k)%nat -> control_grid !! j = Some x -> x <= control) /\
    (control < r \/ k = (length control_grid - 1)%nat).
Proof.
  intros Hne Hs.
  destruct (argmin_closest control_grid control Hne) as (i & g & Hi & Hg & Hmin & _).
  pose proof (lookup_lt_Some _ _ _ Hg) as Hlen.
  destruct (while_increment_spec control_grid control (length control_grid) i)
    as (k & r & Hk & Hr & Hik & Hbelow & Hend); [lia.. |].
  exists k, r. split_and!; [| exact Hr | | exact Hend].
  - unfold quantize. fold (distances control_grid control). rewrite Hi. simpl.
    rewrite Hk. simpl. unfold getitem. rewrite Hr. reflexivity.
  - intros j x Hj Hx.
    destruct (decide (i <= j)%nat) as [Hge | Hlt]; [apply (Hbelow j); [lia | exact Hx] |].
    destruct (Qlt_le_dec control x) as [Habove | Hle]; [| exact Hle].
    exfalso.
    assert (Hxg : x < g) by (apply (Hs j i); [assumption.. | lia]).
    specialize (Hmin j x Hx).
    rewrite (Qabs_pos (g - control)), (Qabs_pos (x - control)) in Hmin by lra.
    lra.
Qed.

(** Decreasing ends on a grid value at an index [k] such that every
    value after [k] is at least [control], and either it is below
    [control] or [k] is 0. *)
Lemma quantize_decrease_spec (control_grid : list Q) (control : Q) :
  control_grid <> [] -> strictly_increasing control_grid ->
  exists k r,
    quantize control_grid control Decrease = Ok r /\
    control_grid !! k = Some r /\
    (forall j x, (k < j)%nat -> control_grid !! j = Some x -> control <= x) /\
    (r < control \/ k = 0%nat).
Proof.
  intros Hne Hs.
  destruct (argmin_closest control_grid control Hne) as (i & g & Hi & Hg & Hmin & _).
  pose proof (lookup_lt_Some _ _ _ Hg) as Hlen.
  destruct (while_decrement_spec control_grid control (length control_grid) i)
    as (k & r & Hk & Hr & Hik & Habove & Hend); [lia.. |].
  exists k, r. split_and!; [| exact Hr | | exact Hend].
  - unfold quantize. fold (distances control_grid control). rewrite Hi. simpl.
    rewrite Hk. simpl. unfold getitem. rewrite Hr. reflexivity.
  - intros j x Hj Hx.
    destruct (decide (j <= i)%nat) as [Hle | Hgt]; [apply (Habove j); [lia | exact Hx] |].
    destruct (Qlt_le_dec x control) as [Hbelow | Hge]; [| exact Hge].
    exfalso.
    assert (Hgx : g < x) by (apply (Hs i j); [assumption.. | lia]).
    specialize (Hmin j x Hx).
    rewrite (Qabs_neg (g - control)), (Qabs_neg (x - control)) in Hmin by lra.
    lra.
Qed.

End GridWalk.

(** In exact arithmetic, on every non-empty, strictly increasing grid
    and for every current value [v]: increasing returns a grid value [r];
    when some grid value exceeds [v], [r] exceeds [v] and is the least grid
    value that does; when none does, [r] is the maximum of the grid; and
    symmetrically for decreasing.  Binary64 arithmetic, in which the
    distances [np.abs(control_grid - control)] are rounded, is treated
    below. *)
Lemma exact_walk_moves_past (control_grid : list Q) (v : Q) :
  control_grid <> [] -> strictly_increasing control_grid ->
  (exists r, quantize control_grid v Increase = Ok r /\ r ∈ control_grid /\
     ((exists g, g ∈ control_grid /\ v < g) ->
        v < r /\ forall g, g ∈ control_grid -> v < g -> r <= g) /\
     ((forall g, g ∈ control_grid -> g <= v) ->
        forall g, g ∈ control_grid -> g <= r))%Q /\
  (exists r, quantize control_grid v Decrease = Ok r /\ r ∈ control_grid /\
     ((exists g, g ∈ control_grid /\ g < v) ->
        r < v /\ forall g, g ∈ control_grid -> g < v -> g <= r) /\
     ((forall g, g ∈ control_grid -> v <= g) ->
        forall g, g ∈ control_grid -> r <= g))%Q.
Proof.
  intros Hne Hs. split.
  - destruct (quantize_increase_spec control_grid v Hne Hs)
      as (k & r & Hq & Hr & Hbelow & Hend).
    assert (Hlast : k = (length control_grid - 1)%nat ->
              forall g, g ∈ control_grid -> (g <= r)%Q).
    { intros Hk g Hin. apply list_elem_of_lookup in Hin as [j Hj].
      pose proof (lookup_lt_Some _ _ _ Hj).
      apply (strictly_increasing_le control_grid j k); [assumption.. | lia]. }
    exists r. split_and!; [exact Hq | eapply list_elem_of_lookup_2, Hr | |].
    + intros (g & Hin & Hg).
      assert (Hvr : (v < r)%Q).
      { destruct Hend as [Hlt | Hk]; [exact Hlt |].
        specialize (Hlast Hk g Hin). lra. }
      split; [exact Hvr |].
      intros g' Hin' Hg'. apply list_elem_of_lookup in Hin' as [j Hj].
      destruct (decide (j < k)%nat) as [Hlt | Hge].
      * specialize (Hbelow j g' Hlt Hj). lra.
      * apply (strictly_increasing_le control_grid k j); [assumption.. | lia].
    + intros Hall. apply Hlast.
      destruct Hend as [Hlt | Hk]; [| exact Hk].
      specialize (Hall r (list_elem_of_lookup_2 _ _ _ Hr)). lra.
  - destruct (quantize_decrease_spec control_grid v Hne Hs)
      as (k & r & Hq & Hr & Habove & Hend).
    assert (Hfirst : k = 0%nat -> forall g, g ∈ control_grid -> (r <= g)%Q).
    { intros Hk g Hin. apply list_elem_of_lookup in Hin as [j Hj].
      apply (strictly_increasing_le control_grid k j); [assumption.. | lia]. }
    exists r. split_and!; [exact Hq | eapply list_elem_of_lookup_2, Hr | |].
    + intros (g & Hin & Hg).
      assert (Hrv : (r < v)%Q).
      { destruct Hend as [Hlt | Hk]; [exact Hlt |].
        specialize (Hfirst Hk g Hin). lra. }
      split; [exact Hrv |].
      intros g' Hin' Hg'. apply list_elem_of_lookup in Hin' as [j Hj].
      destruct (decide (k < j)%nat) as [Hlt | Hge].
      * specialize (Habove j g' Hlt Hj). lra.
      * apply (strictly_increasing_le control_grid j k); [assumption.. | lia].
    + intros Hall. apply Hfirst.
      destruct Hend as [Hlt | Hk]; [| exact Hk].
      specialize (Hall r (list_elem_of_lookup_2 _ _ _ Hr)). lra.
Qed.

Lemma ascending_b_strictly_increasing (l : list Q) :
  ascending_b l = true -> strictly_increasing l.
Proof.
  induction l as [| a l IH]; intros Hasc i j x y Hi Hj Hij.
  - rewrite lookup_nil in Hi. discriminate.
  - assert (Htail : ascending_b l = true).
    { destruct l as [| b l']; [reflexivity |].
      simpl in Hasc. apply andb_true_iff in Hasc as [_ Ht]. exact Ht. }
    assert (Hhead : forall k z, l !! k = Some z -> (a < z)%Q).
    { destruct l as [| b l']; [intros k z Hk; rewrite lookup_nil in Hk; discriminate |].
      simpl in Hasc. apply andb_true_iff in Hasc as [Hab _].
      apply Q_ltb_lt in Hab.
      intros [| k] z Hk; simpl in Hk.
      - injection Hk as <-. exact Hab.
      - assert (b < z)%Q by (apply (IH Htail 0%nat (S k)); [reflexivity | exact Hk | lia]).
        lra. }
    destruct j as [| j']; [lia |]. simpl in Hj.
    destruct i as [| i']; simpl in Hi.
    + injection Hi as <-. eapply Hhead, Hj.
    + apply (IH Htail i' j'); [assumption.. | lia].
Qed.

Lemma strictly_increasing_distinct (l : list Q) (i j : nat) (x y : Q) :
  strictly_increasing l -> l !! i = Some x -> l !! j = Some y -> i <> j -> ~ (x == y)%Q.
Proof.
  intros Hs Hi Hj Hne Heq.
  destruct (decide (i < j)%nat) as [Hlt | Hge].
  - pose proof (Hs i j x y Hi Hj Hlt). lra.
  - assert (Hlt : (j < i)%nat) by lia.
    pose proof (Hs j i y x Hj Hi Hlt). lra.
Qed.

(** C4. On every non-empty, strictly increasing grid and for every value
    [v], in exact arithmetic, increasing from [v] and then decreasing from
    the result both succeed; if [v] is not a grid value, the value reached
    is not [v]; the round trip returns to [v] only if [v] is a grid
    value. *)
Theorem increase_then_decrease (control_grid : list Q) (v : Q) :
  control_grid <> [] -> strictly_increasing control_grid ->
  exists up down,
    quantize control_grid v Increase = Ok up /\
    quantize control_grid up Decrease = Ok down /\
    ((forall g, g ∈ control_grid -> ~ (g == v)%Q) -> ~ (down == v)%Q) /\
    ((down == v)%Q -> exists g, g ∈ control_grid /\ (g == v)%Q).
Proof.
  intros Hne Hs.
  destruct (quantize_increase_spec control_grid v Hne Hs) as (k & up & Hup & _).
  destruct (quantize_decrease_spec control_grid up Hne Hs) as (k' & down & Hdown & Hk' & _).
  apply list_elem_of_lookup_2 in Hk'.
  exists up, down. split_and!; [exact Hup | exact Hdown | |].
  - intros Hoff. apply Hoff, Hk'.
  - intros Heq. exists down. split; [exact Hk' | exact Heq].
Qed.

Lemma increase_then_decrease_witness :
  [0; 5.77; 8.16; 10]%Q <> [] /\ strictly_increasing [0; 5.77; 8.16; 10]%Q /\
  exists up down,
    quantize [0; 5.77; 8.16; 10]%Q 6%Q Increase = Ok up /\
    quantize [0; 5.77; 8.16; 10]%Q up Decrease = Ok down /\ ~ (down == 6)%Q.
Proof.
  assert (Hne : [0; 5.77; 8.16; 10]%Q <> []) by discriminate.
  assert (Hs : strictly_increasing [0; 5.77; 8.16; 10]%Q)
    by (apply ascending_b_strictly_increasing; reflexivity).
  split; [exact Hne |]. split; [exact Hs |].
  destruct (increase_then_decrease [0; 5.77; 8.16; 10]%Q 6%Q Hne Hs)
    as (up & down & Hup & Hdown & Hoff & _).
  exists up, down. split_and!; [exact Hup | exact Hdown |].
  apply Hoff. intros g Hin.
  repeat (apply elem_of_cons in Hin as [-> | Hin]; [intros Heq; discriminate Heq |]).
  apply elem_of_nil in Hin. destruct Hin.
Defined.

(** From a grid value the round trip does come back: 5.77 goes up to
    8.16 and from there down to 5.77. *)
Example increase_then_decrease_grid_value :
  quantize [0; 5.77; 8.16; 10]%Q 5.77%Q Increase = Ok 8.16%Q /\
  quantize [0; 5.77; 8.16; 10]%Q 8.16%Q Decrease = Ok 5.77%Q.
Proof. split; reflexivity. Qed.

(** ** The grid walk in binary64 arithmetic *)

(** * binary64 arithmetic *)

(** ** The order of binary64 values *)

Section SpecOrder.

Lemma SFcompare_key (a b : SpecFloat.spec_float) :
  a <> SpecFloat.S754_nan -> b <> SpecFloat.S754_nan ->
  SpecFloat.SFcompare a b = Some (key_compare (sf_key a) (sf_key b)).
Proof.
  destruct a as [sa | sa | | sa ma ea]; destruct b as [sb | sb | | sb mb eb];
    intros Ha Hb; try congruence; simpl;
    try (destruct sa; reflexivity); try (destruct sb; reflexivity);
    try (destruct sa, sb; reflexivity).
  change (Pos.compare_cont Eq ma mb) with (Pos.compare ma mb).
  destruct sa, sb; simpl; try reflexivity.
  f_equal.
  destruct (Z.compare_spec ea eb); destruct (Z.compare_spec (- ea) (- eb)); try lia;
    reflexivity.
Qed.

Lemma key_compare_refl (x : Z * Z * Z) : key_compare x x = Eq.
Proof. destruct x as [[x1 x2] x3]. simpl. rewrite !Z.compare_refl. reflexivity. Qed.

(** The three outcomes of [key_compare] as lexicographic facts. *)
Lemma key_compare_spec (x y : Z * Z * Z) :
  let '(x1, x2, x3) := x in
  let '(y1, y2, y3) := y in
  match key_compare x y with
  | Lt => (x1 < y1 \/ (x1 = y1 /\ (x2 < y2 \/ (x2 = y2 /\ x3 < y3))))%Z
  | Eq => x1 = y1 /\ x2 = y2 /\ x3 = y3
  | Gt => (y1 < x1 \/ (x1 = y1 /\ (y2 < x2 \/ (x2 = y2 /\ y3 < x3))))%Z
  end.
Proof.
  destruct x as [[x1 x2] x3], y as [[y1 y2] y3]. simpl.
  destruct (Z.compare_spec x1 y1); [| lia..].
  destruct (Z.compare_spec x2 y2); [| lia..].
  destruct (Z.compare_spec x3 y3); lia.
Qed.

End SpecOrder.

(** The comparisons of primitive floats, through their keys. *)

Section FloatOrder.

Lemma not_nan_spec (x : float) : not_nan x <-> FloatOps.Prim2SF x <> SpecFloat.S754_nan.
Proof.
  unfold not_nan, PrimFloat.is_nan. rewrite FloatAxioms.eqb_spec. unfold SpecFloat.SFeqb.
  split.
  - intros Heq Hnan. rewrite Hnan in Heq. discriminate.
  - intros Hn. rewrite (SFcompare_key _ _ Hn Hn), key_compare_refl. reflexivity.
Qed.

Lemma float_compare_key (x y : float) :
  not_nan x -> not_nan y ->
  SpecFloat.SFcompare (FloatOps.Prim2SF x) (FloatOps.Prim2SF y)
  = Some (key_compare (sf_key (FloatOps.Prim2SF x)) (sf_key (FloatOps.Prim2SF y))).
Proof. intros Hx Hy. apply SFcompare_key; apply not_nan_spec; assumption. Qed.

Lemma float_ltb_not_nan (x y : float) :
  PrimFloat.ltb x y = true -> not_nan x /\ not_nan y.
Proof.
  rewrite FloatAxioms.ltb_spec. unfold SpecFloat.SFltb. intros Hlt.
  split; apply not_nan_spec; intros Hn; rewrite Hn in Hlt.
  - discriminate.
  - destruct (FloatOps.Prim2SF x); discriminate.
Qed.

Lemma float_leb_not_nan (x y : float) :
  PrimFloat.leb x y = true -> not_nan x /\ not_nan y.
Proof.
  rewrite FloatAxioms.leb_spec. unfold SpecFloat.SFleb. intros Hle.
  split; apply not_nan_spec; intros Hn; rewrite Hn in Hle.
  - discriminate.
  - destruct (FloatOps.Prim2SF x); discriminate.
Qed.

Lemma float_leb_refl (x : float) : not_nan x -> PrimFloat.leb x x = true.
Proof.
  intros Hx. rewrite FloatAxioms.leb_spec. unfold SpecFloat.SFleb.
  rewrite (float_compare_key x x Hx Hx), key_compare_refl. reflexivity.
Qed.

Lemma float_eqb_refl (x : float) : not_nan x -> PrimFloat.eqb x x = true.
Proof.
  intros Hx. rewrite FloatAxioms.eqb_spec. unfold SpecFloat.SFeqb.
  rewrite (float_compare_key x x Hx Hx), key_compare_refl. reflexivity.
Qed.

Lemma float_leb_total (x y : float) :
  not_nan x -> not_nan y -> PrimFloat.leb x y = true \/ PrimFloat.leb y x = true.
Proof.
  intros Hx Hy. rewrite !FloatAxioms.leb_spec. unfold SpecFloat.SFleb.
  rewrite (float_compare_key x y Hx Hy), (float_compare_key y x Hy Hx).
  pose proof (key_compare_spec (sf_key (FloatOps.Prim2SF x)) (sf_key (FloatOps.Prim2SF y))) as Hxy.
  pose proof (key_compare_spec (sf_key (FloatOps.Prim2SF y)) (sf_key (FloatOps.Prim2SF x))) as Hyx.
  destruct (sf_key (FloatOps.Prim2SF x)) as [[x1 x2] x3], (sf_key (FloatOps.Prim2SF y)) as [[y1 y2] y3].
  destruct (key_compare (x1, x2, x3) (y1, y2, y3)); auto.
  destruct (key_compare (y1, y2, y3) (x1, x2, x3)); auto. lia.
Qed.

Lemma float_leb_trans (x y z : float) :
  PrimFloat.leb x y = true -> PrimFloat.leb y z = true -> PrimFloat.leb x z = true.
Proof.
  intros Hxy Hyz.
  destruct (float_leb_not_nan _ _ Hxy) as [Hx Hy]. destruct (float_leb_not_nan _ _ Hyz) as [_ Hz].
  revert Hxy Hyz. rewrite !FloatAxioms.leb_spec. unfold SpecFloat.SFleb.
  rewrite (float_compare_key x y Hx Hy), (float_compare_key y z Hy Hz),
    (float_compare_key x z Hx Hz).
  pose proof (key_compare_spec (sf_key (FloatOps.Prim2SF x)) (sf_key (FloatOps.Prim2SF y))) as Kxy.
  pose proof (key_compare_spec (sf_key (FloatOps.Prim2SF y)) (sf_key (FloatOps.Prim2SF z))) as Kyz.
  pose proof (key_compare_spec (sf_key (FloatOps.Prim2SF x)) (sf_key (FloatOps.Prim2SF z))) as Kxz.
  destruct (sf_key (FloatOps.Prim2SF x)) as [[x1 x2] x3], (sf_key (FloatOps.Prim2SF y)) as [[y1 y2] y3],
    (sf_key (FloatOps.Prim2SF z)) as [[z1 z2] z3].
  destruct (key_compare (x1, x2, x3) (y1, y2, y3)); try discriminate;
    destruct (key_compare (y1, y2, y3) (z1, z2, z3)); try discriminate;
    destruct (key_compare (x1, x2, x3) (z1, z2, z3)); try reflexivity; intros _ _; lia.
Qed.

Lemma float_ltb_trans (x y z : float) :
  PrimFloat.ltb x y = true -> PrimFloat.ltb y z = true -> PrimFloat.ltb x z = true.
Proof.
  intros Hxy Hyz.
  destruct (float_ltb_not_nan _ _ Hxy) as [Hx Hy]. destruct (float_ltb_not_nan _ _ Hyz) as [_ Hz].
  revert Hxy Hyz. rewrite !FloatAxioms.ltb_spec. unfold SpecFloat.SFltb.
  rewrite (float_compare_key x y Hx Hy), (float_compare_key y z Hy Hz),
    (float_compare_key x z Hx Hz).
  pose proof (key_compare_spec (sf_key (FloatOps.Prim2SF x)) (sf_key (FloatOps.Prim2SF y))) as Kxy.
  pose proof (key_compare_spec (sf_key (FloatOps.Prim2SF y)) (sf_key (FloatOps.Prim2SF z))) as Kyz.
  pose proof (key_compare_spec (sf_key (FloatOps.Prim2SF x)) (sf_key (FloatOps.Prim2SF z))) as Kxz.
  destruct (sf_key (FloatOps.Prim2SF x)) as [[x1 x2] x3], (sf_key (FloatOps.Prim2SF y)) as [[y1 y2] y3],
    (sf_key (FloatOps.Prim2SF z)) as [[z1 z2] z3].
  destruct (key_compare (x1, x2, x3) (y1, y2, y3)); try discriminate;
    destruct (key_compare (y1, y2, y3) (z1, z2, z3)); try discriminate;
    destruct (key_compare (x1, x2, x3) (z1, z2, z3)); try reflexivity; intros _ _; lia.
Qed.

(** A strict comparison and what the other comparisons then give. *)
Lemma float_ltb_others (x y : float) :
  PrimFloat.ltb x y = true ->
  PrimFloat.leb x y = true /\ PrimFloat.leb y x = false /\
  PrimFloat.eqb x y = false /\ PrimFloat.eqb y x = false /\ PrimFloat.ltb y x = false.
Proof.
  intros Hxy. destruct (float_ltb_not_nan _ _ Hxy) as [Hx Hy].
  revert Hxy. rewrite !FloatAxioms.ltb_spec, !FloatAxioms.leb_spec, !FloatAxioms.eqb_spec. unfold SpecFloat.SFltb, SpecFloat.SFleb, SpecFloat.SFeqb.
  rewrite (float_compare_key x y Hx Hy), (float_compare_key y x Hy Hx).
  pose proof (key_compare_spec (sf_key (FloatOps.Prim2SF x)) (sf_key (FloatOps.Prim2SF y))) as Kxy.
  pose proof (key_compare_spec (sf_key (FloatOps.Prim2SF y)) (sf_key (FloatOps.Prim2SF x))) as Kyx.
  destruct (sf_key (FloatOps.Prim2SF x)) as [[x1 x2] x3], (sf_key (FloatOps.Prim2SF y)) as [[y1 y2] y3].
  destruct (key_compare (x1, x2, x3) (y1, y2, y3)); try discriminate.
  destruct (key_compare (y1, y2, y3) (x1, x2, x3)); intros _; try lia; auto.
Qed.

End FloatOrder.

(** ** The walk on distances that fall and then rise *)

(** What the walk needs of the arithmetic is stated here for any
    arithmetic and any grid: an order on the computed distances, and
    distances that strictly fall up to the current value and strictly
    rise after it.  Exact arithmetic gives this for every increasing grid;
    binary64 arithmetic gives it as long as the subtraction of line 180
    keeps the distances of different grid values apart. *)

Section Unimodal.
Context {T : Type} `{Numeric T}.

Variable ok : T -> Prop.
Hypothesis ok_not_nan : forall x, ok x -> is_nan x = false.
Hypothesis ok_total : forall x y, ok x -> ok y -> n_leb x y = true \/ n_leb y x = true.
Hypothesis ok_trans : forall x y z, ok x -> ok y -> ok z ->
  n_leb x y = true -> n_leb y z = true -> n_leb x z = true.

(** The scan ends on an index of a least element. *)
Lemma argmin_scan_least (l pre : list T) (mp : T) (ind : nat) :
  (forall x, x ∈ pre ++ l -> ok x) ->
  pre !! ind = Some mp ->
  (forall x, x ∈ pre -> n_leb mp x = true) ->
  exists m, (pre ++ l) !! argmin_scan l (length pre) mp ind = Some m /\
            forall x, x ∈ pre ++ l -> n_leb m x = true.
Proof.
  revert pre mp ind. induction l as [| x l IH]; intros pre mp ind Hok Hind Hmin.
  - exists mp. simpl. rewrite app_nil_r. split; [exact Hind | exact Hmin].
  - assert (Hx : ok x) by (apply Hok, elem_of_app; right; apply elem_of_cons; left; reflexivity).
    assert (Hmp : ok mp).
    { apply Hok, elem_of_app. left. eapply list_elem_of_lookup_2, Hind. }
    assert (Hassoc : pre ++ x :: l = (pre ++ [x]) ++ l) by (rewrite <- app_assoc; reflexivity).
    assert (Hlen : length (pre ++ [x]) = S (length pre)) by (rewrite length_app; simpl; lia).
    simpl. unfold n_geb.
    destruct (n_leb mp x) eqn:Hcmp; simpl.
    + destruct (IH (pre ++ [x]) mp ind) as (m & Hm & Hleast).
      * rewrite <- Hassoc. exact Hok.
      * apply lookup_app_l_Some. exact Hind.
      * intros y Hy. apply elem_of_app in Hy as [Hy | Hy]; [exact (Hmin y Hy) |].
        apply list_elem_of_singleton in Hy. subst y. exact Hcmp.
      * rewrite Hlen in Hm. exists m. rewrite Hassoc. split; [exact Hm | exact Hleast].
    + rewrite (ok_not_nan x Hx).
      assert (Hxmp : n_leb x mp = true).
      { destruct (ok_total x mp Hx Hmp) as [Hle | Hle]; [exact Hle | congruence]. }
      destruct (IH (pre ++ [x]) x (length pre)) as (m & Hm & Hleast).
      * rewrite <- Hassoc. exact Hok.
      * rewrite lookup_app_r by lia. rewrite Nat.sub_diag. reflexivity.
      * intros y Hy. apply elem_of_app in Hy as [Hy | Hy].
        -- apply (ok_trans x mp y); [exact Hx | exact Hmp | | exact Hxmp | exact (Hmin y Hy)].
           apply Hok, elem_of_app. left. exact Hy.
        -- apply list_elem_of_singleton in Hy. subst y.
           destruct (ok_total x x Hx Hx); assumption.
      * rewrite Hlen in Hm. exists m. rewrite Hassoc. split; [exact Hm | exact Hleast].
Qed.

Lemma argmin_least (l : list T) :
  l <> [] -> (forall x, x ∈ l -> ok x) ->
  exists k m, argmin l = Ok k /\ l !! k = Some m /\ forall x, x ∈ l -> n_leb m x = true.
Proof.
  destruct l as [| x l]; [congruence |]. intros _ Hok.
  assert (Hx : ok x) by (apply Hok, elem_of_cons; left; reflexivity).
  simpl. rewrite (ok_not_nan x Hx).
  destruct (argmin_scan_least l [x] x 0 Hok eq_refl) as (m & Hm & Hleast).
  - intros y Hy. apply list_elem_of_singleton in Hy. subst y.
    destruct (ok_total x x Hx Hx); assumption.
  - eexists _, m. split; [reflexivity |]. split; [exact Hm | exact Hleast].
Qed.

Variable control_grid : list T.
Variable control : T.

(** The number of grid values below [control], and of those at most
    [control]. *)
Variables p q : nat.

Hypothesis Hpq : (p <= q <= S p)%nat.
Hypothesis Hq : (q <= length control_grid)%nat.
Hypothesis Hne : control_grid <> [].
Hypothesis Hle : forall i g, control_grid !! i = Some g -> n_leb g control = (i <? q)%nat.
Hypothesis Hge : forall i g, control_grid !! i = Some g -> n_geb g control = (p <=? i)%nat.
Hypothesis Hok : forall g, g ∈ control_grid -> ok (n_abs (n_sub g control)).
Hypothesis Hfall : forall i g g',
  (S i < q)%nat -> control_grid !! i = Some g -> control_grid !! S i = Some g' ->
  n_leb (n_abs (n_sub g control)) (n_abs (n_sub g' control)) = false.
Hypothesis Hrise : forall i g g',
  (p <= i)%nat -> control_grid !! i = Some g -> control_grid !! S i = Some g' ->
  n_leb (n_abs (n_sub g' control)) (n_abs (n_sub g control)) = false.

(** The closest index lies next to the current value. *)
Lemma argmin_next_to_control :
  exists i_closest,
    argmin ((fun g => n_abs (n_sub g control)) <$> control_grid) = Ok i_closest /\
    (q - 1 <= i_closest <= p)%nat /\ (i_closest < length control_grid)%nat.
Proof.
  destruct (argmin_least ((fun g => n_abs (n_sub g control)) <$> control_grid))
    as (k & m & Hk & Hm & Hleast).
  { destruct control_grid; [congruence | discriminate]. }
  { intros x Hx. apply list_elem_of_fmap in Hx as (g & -> & Hg). exact (Hok g Hg). }
  rewrite list_lookup_fmap in Hm.
  destruct (control_grid !! k) as [gk |] eqn:Hgk; [| discriminate].
  simpl in Hm. injection Hm as <-.
  pose proof (lookup_lt_Some _ _ _ Hgk) as Hklen.
  exists k. split; [exact Hk |]. split; [| exact Hklen].
  split.
  - destruct (decide (S k < q)%nat) as [Hlow | Hlow]; [exfalso | lia].
    destruct (lookup_lt_is_Some_2 control_grid (S k) ltac:(lia)) as [g' Hg'].
    pose proof (Hfall k gk g' Hlow Hgk Hg') as Hf.
    rewrite Hleast in Hf; [discriminate |].
    apply list_elem_of_fmap. exists g'. split; [reflexivity |].
    eapply list_elem_of_lookup_2, Hg'.
  - destruct (decide (p < k)%nat) as [Hhigh | Hhigh]; [exfalso | lia].
    destruct k as [| k']; [lia |].
    destruct (lookup_lt_is_Some_2 control_grid k' ltac:(lia)) as [g' Hg'].
    pose proof (Hrise k' g' gk ltac:(lia) Hg' Hgk) as Hr.
    rewrite Hleast in Hr; [discriminate |].
    apply list_elem_of_fmap. exists g'. split; [reflexivity |].
    eapply list_elem_of_lookup_2, Hg'.
Qed.

Lemma while_increment_to (fuel i : nat) :
  (i <= q)%nat -> (i < length control_grid)%nat ->
  (length control_grid - 1 - i <= fuel)%nat ->
  while_increment fuel control_grid control i
  = Ok (Nat.min q (length control_grid - 1)).
Proof.
  revert i. induction fuel as [| fuel IH]; intros i Hiq Hi Hfuel.
  - simpl.
    destruct (Z.ltb_spec (Z.of_nat i) (Z.of_nat (length control_grid) - 1)); [lia |].
    f_equal. lia.
  - destruct (lookup_lt_is_Some_2 control_grid i Hi) as [g Hg].
    simpl.
    destruct (Z.ltb_spec (Z.of_nat i) (Z.of_nat (length control_grid) - 1)) as [Hlt | Hge'].
    + unfold getitem. rewrite Hg. simpl. rewrite (Hle i g Hg).
      destruct (Nat.ltb_spec i q) as [Hin | Hout].
      * apply IH; lia.
      * f_equal. lia.
    + f_equal. lia.
Qed.

Lemma while_decrement_to (fuel i : nat) :
  (Nat.pred p <= i)%nat -> (i < length control_grid)%nat -> (i <= fuel)%nat ->
  while_decrement fuel control_grid control i = Ok (Nat.pred p).
Proof.
  revert i. induction fuel as [| fuel IH]; intros i Hpi Hi Hfuel.
  - assert (i = 0%nat) as -> by lia. simpl. f_equal. lia.
  - destruct (lookup_lt_is_Some_2 control_grid i Hi) as [g Hg].
    simpl. destruct i as [| i'].
    + simpl. f_equal. lia.
    + simpl. unfold getitem. rewrite Hg. simpl. rewrite (Hge (S i') g Hg).
      destruct (Nat.leb_spec p (S i')) as [Hin | Hout].
      * apply IH; lia.
      * f_equal. lia.
Qed.

(** Increasing ends on the first grid value above [control], or on the
    last grid value; decreasing on the last grid value below [control],
    or on the first grid value. *)
Lemma quantize_unimodal :
  quantize control_grid control Increase
  = getitem control_grid (Nat.min q (length control_grid - 1)) /\
  quantize control_grid control Decrease = getitem control_grid (Nat.pred p).
Proof.
  destruct argmin_next_to_control as (i & Hi & Hrange & Hlen).
  unfold quantize, Increase, Decrease. rewrite Hi. simpl.
  rewrite (while_increment_to (length control_grid) i) by lia.
  rewrite (while_decrement_to (length control_grid) i) by lia.
  split; reflexivity.
Qed.

End Unimodal.

(** ** binary64 hundredths *)

Lemma all_from_spec (f : Z -> bool) (count : nat) (k j : Z) :
  all_from f count k = true -> (k <= j < k + Z.of_nat count)%Z -> f j = true.
Proof.
  revert k. induction count as [| count IH]; intros k Hall Hj; [lia |].
  simpl in Hall. destruct (f k) eqn:Hk; [| discriminate].
  destruct (Z.eq_dec j k) as [-> | Hne]; [exact Hk |].
  apply (IH (k + 1)%Z); [exact Hall | lia].
Qed.

Lemma distances_turn_spec (count : nat) (a kv b : Z) :
  distances_turn count a kv (hundredths kv) (distance64 a kv) = true ->
  (a <= b < a + Z.of_nat count)%Z ->
  if (b + 1 <=? kv)%Z
  then PrimFloat.ltb (distance64 (b + 1) kv) (distance64 b kv) = true
  else PrimFloat.ltb (distance64 b kv) (distance64 (b + 1) kv) = true.
Proof.
  revert a. induction count as [| count IH]; intros a Hall Hb; [lia |].
  simpl in Hall. fold (distance64 (a + 1) kv) in Hall.
  destruct (Z.eq_dec b a) as [-> | Hne].
  - destruct (a + 1 <=? kv)%Z.
    + destruct (PrimFloat.ltb (distance64 (a + 1) kv) (distance64 a kv));
        [reflexivity | discriminate].
    + destruct (PrimFloat.ltb (distance64 a kv) (distance64 (a + 1) kv));
        [reflexivity | discriminate].
  - apply (IH (a + 1)%Z); [| lia].
    destruct (if (a + 1 <=? kv)%Z then _ else _); [exact Hall | discriminate].
Qed.

(** The tables, by evaluation. *)
Lemma hundredths_rise_table : all_from hundredths_rise 3000 (-1000) = true.
Proof. vm_compute. reflexivity. Qed.

Lemma distances_turn_table : all_from distances_turn_at 3001 (-1000) = true.
Proof. vm_compute. reflexivity. Qed.

Lemma round2_fixed_table : all_from round2_fixed 1001 0 = true.
Proof. vm_compute. reflexivity. Qed.

Section Hundredths.

Lemma hundredths_lt (a b : Z) :
  (-1000 <= a)%Z -> (a < b)%Z -> (b <= 2000)%Z ->
  PrimFloat.ltb (hundredths a) (hundredths b) = true.
Proof.
  intros Ha Hab Hb.
  assert (Hstep : forall k, (-1000 <= k < 2000)%Z ->
            PrimFloat.ltb (hundredths k) (hundredths (k + 1)) = true).
  { intros k Hk. apply (all_from_spec hundredths_rise 3000 (-1000) k hundredths_rise_table).
    lia. }
  assert (Hchain : forall n : nat, (a + Z.of_nat (S n) <= 2000)%Z ->
            PrimFloat.ltb (hundredths a) (hundredths (a + Z.of_nat (S n))) = true).
  { induction n as [| n IH]; intros Hn.
    - replace (a + Z.of_nat 1)%Z with (a + 1)%Z by lia. apply Hstep. lia.
    - apply (float_ltb_trans _ (hundredths (a + Z.of_nat (S n)))); [apply IH; lia |].
      replace (a + Z.of_nat (S (S n)))%Z with (a + Z.of_nat (S n) + 1)%Z by lia.
      apply Hstep. lia. }
  replace b with (a + Z.of_nat (S (Z.to_nat (b - a - 1))))%Z by lia.
  apply Hchain. lia.
Qed.

Lemma hundredths_not_nan (k : Z) : (-1000 <= k <= 2000)%Z -> not_nan (hundredths k).
Proof.
  intros Hk. destruct (Z.eq_dec k 2000%Z) as [-> | Hne].
  - apply (float_ltb_not_nan (hundredths 1999%Z) (hundredths 2000%Z)), hundredths_lt; lia.
  - apply (float_ltb_not_nan (hundredths k) (hundredths (k + 1))), hundredths_lt; lia.
Qed.

(** The comparisons of two hundredths are those of their numerators. *)
Lemma hundredths_leb (a b : Z) :
  (-1000 <= a <= 2000)%Z -> (-1000 <= b <= 2000)%Z ->
  PrimFloat.leb (hundredths a) (hundredths b) = (a <=? b)%Z.
Proof.
  intros Ha Hb. destruct (Z.leb_spec a b) as [Hle | Hgt].
  - destruct (Z.eq_dec a b) as [-> | Hne]; [apply float_leb_refl, hundredths_not_nan, Hb |].
    apply (float_ltb_others (hundredths a) (hundredths b)), hundredths_lt; lia.
  - apply (float_ltb_others (hundredths b) (hundredths a)), hundredths_lt; lia.
Qed.

Lemma hundredths_eqb (a b : Z) :
  (-1000 <= a <= 2000)%Z -> (-1000 <= b <= 2000)%Z ->
  PrimFloat.eqb (hundredths a) (hundredths b) = (a =? b)%Z.
Proof.
  intros Ha Hb. destruct (Z.eqb_spec a b) as [-> | Hne].
  - apply float_eqb_refl, hundredths_not_nan, Hb.
  - destruct (Z.lt_ge_cases a b).
    + apply (float_ltb_others (hundredths a) (hundredths b)), hundredths_lt; lia.
    + apply (float_ltb_others (hundredths b) (hundredths a)), hundredths_lt; lia.
Qed.

Lemma distance64_step (kv b : Z) :
  (-1000 <= kv <= 2000)%Z -> (0 <= b < 1000)%Z ->
  if (b + 1 <=? kv)%Z
  then PrimFloat.ltb (distance64 (b + 1) kv) (distance64 b kv) = true
  else PrimFloat.ltb (distance64 b kv) (distance64 (b + 1) kv) = true.
Proof.
  intros Hkv Hb.
  apply (distances_turn_spec 1000 0 kv b); [| lia].
  apply (all_from_spec distances_turn_at 3001 (-1000) kv distances_turn_table). lia.
Qed.

(** Below the current value the distances fall. *)
Lemma distance64_falls (kv a b : Z) :
  (-1000 <= kv <= 2000)%Z -> (0 <= a)%Z -> (a < b)%Z -> (b <= 1000)%Z -> (b <= kv)%Z ->
  PrimFloat.ltb (distance64 b kv) (distance64 a kv) = true.
Proof.
  intros Hkv Ha Hab Hb Hbv.
  assert (Hchain : forall n : nat, (a + Z.of_nat (S n) <= b)%Z ->
            PrimFloat.ltb (distance64 (a + Z.of_nat (S n)) kv) (distance64 a kv) = true).
  { induction n as [| n IH]; intros Hn.
    - replace (a + Z.of_nat 1)%Z with (a + 1)%Z by lia.
      pose proof (distance64_step kv a Hkv ltac:(lia)) as Hs.
      destruct (Z.leb_spec (a + 1) kv); [exact Hs | lia].
    - apply (float_ltb_trans _ (distance64 (a + Z.of_nat (S n)) kv)); [| apply IH; lia].
      replace (a + Z.of_nat (S (S n)))%Z with (a + Z.of_nat (S n) + 1)%Z by lia.
      pose proof (distance64_step kv (a + Z.of_nat (S n)) Hkv ltac:(lia)) as Hs.
      destruct (Z.leb_spec (a + Z.of_nat (S n) + 1) kv); [exact Hs | lia]. }
  replace b with (a + Z.of_nat (S (Z.to_nat (b - a - 1))))%Z by lia.
  apply Hchain. lia.
Qed.

(** From the current value on they rise. *)
Lemma distance64_rises (kv a b : Z) :
  (-1000 <= kv <= 2000)%Z -> (0 <= a)%Z -> (a < b)%Z -> (b <= 1000)%Z -> (kv <= a)%Z ->
  PrimFloat.ltb (distance64 a kv) (distance64 b kv) = true.
Proof.
  intros Hkv Ha Hab Hb Hav.
  assert (Hchain : forall n : nat, (a + Z.of_nat (S n) <= b)%Z ->
            PrimFloat.ltb (distance64 a kv) (distance64 (a + Z.of_nat (S n)) kv) = true).
  { induction n as [| n IH]; intros Hn.
    - replace (a + Z.of_nat 1)%Z with (a + 1)%Z by lia.
      pose proof (distance64_step kv a Hkv ltac:(lia)) as Hs.
      destruct (Z.leb_spec (a + 1) kv); [lia | exact Hs].
    - apply (float_ltb_trans _ (distance64 (a + Z.of_nat (S n)) kv)); [apply IH; lia |].
      replace (a + Z.of_nat (S (S n)))%Z with (a + Z.of_nat (S n) + 1)%Z by lia.
      pose proof (distance64_step kv (a + Z.of_nat (S n)) Hkv ltac:(lia)) as Hs.
      destruct (Z.leb_spec (a + Z.of_nat (S n) + 1) kv); [lia | exact Hs]. }
  replace b with (a + Z.of_nat (S (Z.to_nat (b - a - 1))))%Z by lia.
  apply Hchain. lia.
Qed.

Lemma distance64_not_nan (kv a : Z) :
  (-1000 <= kv <= 2000)%Z -> (0 <= a <= 1000)%Z -> not_nan (distance64 a kv).
Proof.
  intros Hkv Ha.
  destruct (Z.eq_dec a 1000%Z) as [-> | Hne].
  - pose proof (distance64_step kv 999%Z Hkv ltac:(lia)) as Hs.
    change (999 + 1)%Z with 1000%Z in Hs.
    destruct (1000 <=? kv)%Z; apply float_ltb_not_nan in Hs; tauto.
  - pose proof (distance64_step kv a Hkv ltac:(lia)) as Hs.
    destruct (a + 1 <=? kv)%Z; apply float_ltb_not_nan in Hs; tauto.
Qed.

Lemma round2_hundredths (k : Z) :
  (0 <= k <= 1000)%Z -> Binary64.round2 (hundredths k) = hundredths k.
Proof.
  intros Hk. apply FloatAxioms.Leibniz.eqb_spec.
  apply (all_from_spec round2_fixed 1001 0 k round2_fixed_table). lia.
Qed.

End Hundredths.

(** ** The walk on a grid of hundredths, in binary64 *)

Section RisingGrids.

Lemma rising_tail (a : Z) (ks : list Z) : rising (a :: ks) -> rising ks.
Proof. intros Hr i j x y Hi Hj Hij. apply (Hr (S i) (S j)); [exact Hi | exact Hj | lia]. Qed.

Lemma rising_head (a : Z) (ks : list Z) (k : Z) : rising (a :: ks) -> k ∈ ks -> (a < k)%Z.
Proof.
  intros Hr Hin. apply list_elem_of_lookup in Hin as [i Hi].
  apply (Hr 0%nat (S i)); [reflexivity | exact Hi | lia].
Qed.

Lemma filter_none (f : Z -> bool) (ks : list Z) :
  (forall k, k ∈ ks -> f k = false) -> List.filter f ks = [].
Proof.
  induction ks as [| a ks IH]; intros Hf; [reflexivity |].
  simpl. rewrite (Hf a) by (apply elem_of_cons; left; reflexivity).
  apply IH. intros k Hk. apply Hf, elem_of_cons. right. exact Hk.
Qed.

(** On a rising grid the values at most [kv] are the first
    [count_upto kv ks], and those below [kv] the first
    [count_below kv ks]. *)
Lemma count_upto_spec (kv : Z) (ks : list Z) (i : nat) (k : Z) :
  rising ks -> ks !! i = Some k -> (i <? count_upto kv ks)%nat = (k <=? kv)%Z.
Proof.
  unfold count_upto. revert i. induction ks as [| a ks IH]; intros i Hr Hi; [discriminate |].
  simpl. destruct (Z.leb_spec a kv) as [Hle | Hgt].
  - destruct i as [| i]; simpl in Hi.
    + injection Hi as <-. simpl. symmetry. apply Z.leb_le. exact Hle.
    + simpl length. rewrite <- (IH i (rising_tail a ks Hr) Hi). reflexivity.
  - rewrite filter_none.
    + simpl. symmetry. apply Z.leb_gt.
      destruct i as [| i]; simpl in Hi; [injection Hi as <-; exact Hgt |].
      pose proof (rising_head a ks k Hr (list_elem_of_lookup_2 _ _ _ Hi)). lia.
    + intros x Hx. apply Z.leb_gt. pose proof (rising_head a ks x Hr Hx). lia.
Qed.

Lemma count_below_spec (kv : Z) (ks : list Z) (i : nat) (k : Z) :
  rising ks -> ks !! i = Some k -> (count_below kv ks <=? i)%nat = (kv <=? k)%Z.
Proof.
  unfold count_below. revert i. induction ks as [| a ks IH]; intros i Hr Hi; [discriminate |].
  simpl. destruct (Z.ltb_spec a kv) as [Hlt | Hge].
  - destruct i as [| i]; simpl in Hi.
    + injection Hi as <-. simpl. symmetry. apply Z.leb_gt. exact Hlt.
    + simpl length. rewrite <- (IH i (rising_tail a ks Hr) Hi). reflexivity.
  - rewrite filter_none.
    + simpl. symmetry. apply Z.leb_le.
      destruct i as [| i]; simpl in Hi; [injection Hi as <-; exact Hge |].
      pose proof (rising_head a ks k Hr (list_elem_of_lookup_2 _ _ _ Hi)). lia.
    + intros x Hx. apply Z.ltb_ge. pose proof (rising_head a ks x Hr Hx). lia.
Qed.

Lemma count_upto_length (kv : Z) (ks : list Z) : (count_upto kv ks <= length ks)%nat.
Proof. unfold count_upto. apply List.filter_length_le. Qed.

Lemma count_below_upto (kv : Z) (ks : list Z) :
  rising ks -> (count_below kv ks <= count_upto kv ks <= S (count_below kv ks))%nat.
Proof.
  intros Hr. pose proof (count_upto_length kv ks) as Hlen.
  split.
  - destruct (decide (count_below kv ks <= count_upto kv ks)%nat) as [Hle | Hgt];
      [exact Hle | exfalso].
    assert (Hq : (count_upto kv ks < length ks)%nat).
    { unfold count_below in *. pose proof (List.filter_length_le (fun k => (k <? kv)%Z) ks).
      lia. }
    destruct (lookup_lt_is_Some_2 ks (count_upto kv ks) Hq) as [k Hk].
    pose proof (count_upto_spec kv ks _ k Hr Hk) as Hu.
    pose proof (count_below_spec kv ks _ k Hr Hk) as Hb.
    rewrite Nat.ltb_irrefl in Hu.
    destruct (Nat.leb_spec (count_below kv ks) (count_upto kv ks)); [lia |].
    symmetry in Hu, Hb. apply Z.leb_gt in Hu, Hb. lia.
  - destruct (decide (count_upto kv ks <= S (count_below kv ks))%nat) as [Hle | Hgt];
      [exact Hle | exfalso].
    destruct (lookup_lt_is_Some_2 ks (count_below kv ks) ltac:(lia)) as [k Hk].
    destruct (lookup_lt_is_Some_2 ks (S (count_below kv ks)) ltac:(lia)) as [k' Hk'].
    pose proof (Hr _ _ k k' Hk Hk' ltac:(lia)) as Hkk.
    pose proof (count_upto_spec kv ks _ k' Hr Hk') as Hu.
    pose proof (count_below_spec kv ks _ k Hr Hk) as Hb.
    rewrite Nat.leb_refl in Hb.
    destruct (Nat.ltb_spec (S (count_below kv ks)) (count_upto kv ks)); [| lia].
    symmetry in Hu, Hb. apply Z.leb_le in Hu, Hb. lia.
Qed.

Lemma not_nan_is_nan (x : float) : not_nan x -> is_nan x = false.
Proof. intros Hx. exact Hx. Qed.

(** In binary64 arithmetic, on a rising grid of hundredths between 0.00
    and 10.00 and from a hundredth between -10.00 and 20.00: increasing
    ends on the first grid value above the current one, or on the last
    grid value; decreasing on the last grid value below it, or on the
    first. *)
Lemma quantize_hundredths (ks : list Z) (kv : Z) :
  ks <> [] -> rising ks -> (forall k, k ∈ ks -> (0 <= k <= 1000)%Z) ->
  (-1000 <= kv <= 2000)%Z ->
  exists up down,
    quantize (hundredths <$> ks) (hundredths kv) Increase = Ok (hundredths up) /\
    ks !! Nat.min (count_upto kv ks) (length ks - 1) = Some up /\
    quantize (hundredths <$> ks) (hundredths kv) Decrease = Ok (hundredths down) /\
    ks !! Nat.pred (count_below kv ks) = Some down.
Proof.
  intros Hne Hr Hrange Hkv.
  assert (Hlen : (0 < length ks)%nat) by (destruct ks; [congruence | simpl; lia]).
  pose proof (count_below_upto kv ks Hr) as Hpq.
  pose proof (count_upto_length kv ks) as Hq.
  assert (Hk : forall i g, (hundredths <$> ks) !! i = Some g ->
            exists k, ks !! i = Some k /\ g = hundredths k /\ (0 <= k <= 1000)%Z).
  { intros i g Hg. rewrite list_lookup_fmap in Hg.
    destruct (ks !! i) as [k |] eqn:Hi; [| discriminate].
    injection Hg as <-. exists k. split; [reflexivity | split; [reflexivity |]].
    apply Hrange. eapply list_elem_of_lookup_2, Hi. }
  destruct (quantize_unimodal (T:=float) (H:=Binary64.numeric) not_nan
              not_nan_is_nan float_leb_total
              (fun x y z _ _ _ => float_leb_trans x y z)
              (hundredths <$> ks) (hundredths kv)
              (count_below kv ks) (count_upto kv ks)) as [Hinc Hdec].
  - exact Hpq.
  - rewrite length_fmap. exact Hq.
  - destruct ks; [congruence | discriminate].
  - intros i g Hg. destruct (Hk i g Hg) as (k & Hi & -> & Hkr).
    rewrite (count_upto_spec kv ks i k Hr Hi). apply hundredths_leb; lia.
  - intros i g Hg. destruct (Hk i g Hg) as (k & Hi & -> & Hkr).
    rewrite (count_below_spec kv ks i k Hr Hi). apply (hundredths_leb kv k); lia.
  - intros g Hg. apply list_elem_of_fmap in Hg as (k & -> & Hin).
    apply (distance64_not_nan kv k Hkv). apply Hrange, Hin.
  - intros i g g' Hi Hg Hg'.
    destruct (Hk i g Hg) as (k & Hik & -> & Hkr).
    destruct (Hk (S i) g' Hg') as (k' & Hik' & -> & Hkr').
    pose proof (Hr i (S i) k k' Hik Hik' ltac:(lia)) as Hkk.
    pose proof (count_upto_spec kv ks (S i) k' Hr Hik') as Hu.
    destruct (Nat.ltb_spec (S i) (count_upto kv ks)); [| lia].
    symmetry in Hu. apply Z.leb_le in Hu.
    apply (float_ltb_others (distance64 k' kv) (distance64 k kv)).
    apply distance64_falls; lia.
  - intros i g g' Hi Hg Hg'.
    destruct (Hk i g Hg) as (k & Hik & -> & Hkr).
    destruct (Hk (S i) g' Hg') as (k' & Hik' & -> & Hkr').
    pose proof (Hr i (S i) k k' Hik Hik' ltac:(lia)) as Hkk.
    pose proof (count_below_spec kv ks i k Hr Hik) as Hb.
    destruct (Nat.leb_spec (count_below kv ks) i); [| lia].
    symmetry in Hb. apply Z.leb_le in Hb.
    apply (float_ltb_others (distance64 k kv) (distance64 k' kv)).
    apply distance64_rises; lia.
  - rewrite length_fmap in Hinc.
    destruct (lookup_lt_is_Some_2 ks (Nat.min (count_upto kv ks) (length ks - 1))
                ltac:(lia)) as [up Hup].
    destruct (lookup_lt_is_Some_2 ks (Nat.pred (count_below kv ks)) ltac:(lia))
      as [down Hdown].
    exists up, down.
    rewrite Hinc, Hdec. unfold getitem. rewrite !list_lookup_fmap, Hup, Hdown.
    split_and!; reflexivity || assumption.
Qed.

End RisingGrids.

Section WalkSpec.

Lemma hundredths_ltb (a b : Z) :
  (-1000 <= a <= 2000)%Z -> (-1000 <= b <= 2000)%Z ->
  PrimFloat.ltb (hundredths a) (hundredths b) = (a <? b)%Z.
Proof.
  intros Ha Hb. destruct (Z.ltb_spec a b) as [Hlt | Hge].
  - apply hundredths_lt; lia.
  - destruct (PrimFloat.ltb (hundredths a) (hundredths b)) eqn:Hl; [| reflexivity].
    apply float_ltb_others in Hl as (_ & Hba & _).
    rewrite hundredths_leb in Hba by lia. apply Z.leb_gt in Hba. lia.
Qed.

Lemma rising_le (ks : list Z) (i j : nat) (a b : Z) :
  rising ks -> ks !! i = Some a -> ks !! j = Some b -> (i <= j)%nat -> (a <= b)%Z.
Proof.
  intros Hr Hi Hj Hij. destruct (decide (i = j)) as [-> | Hne].
  - rewrite Hi in Hj. injection Hj as <-. lia.
  - pose proof (Hr i j a b Hi Hj ltac:(lia)). lia.
Qed.

(** The value at index [min (count_upto kv ks) (length ks - 1)] of a rising
    grid is the least one above [kv], or the greatest of the grid. *)
Lemma index_upto_spec (ks : list Z) (kv up : Z) :
  rising ks -> ks !! Nat.min (count_upto kv ks) (length ks - 1) = Some up ->
  ((exists k, k ∈ ks /\ kv < k) -> kv < up /\ forall k, k ∈ ks -> kv < k -> up <= k)%Z /\
  ((forall k, k ∈ ks -> k <= kv) -> forall k, k ∈ ks -> k <= up)%Z.
Proof.
  intros Hr Hup. pose proof (count_upto_length kv ks) as Hq.
  pose proof (lookup_lt_Some _ _ _ Hup) as Hlt.
  split.
  - intros (k & Hin & Hk). apply list_elem_of_lookup in Hin as [i Hi].
    pose proof (count_upto_spec kv ks i k Hr Hi) as Hu.
    pose proof (lookup_lt_Some _ _ _ Hi).
    destruct (Nat.ltb_spec i (count_upto kv ks));
      [symmetry in Hu; apply Z.leb_le in Hu; lia |].
    replace (Nat.min (count_upto kv ks) (length ks - 1)) with (count_upto kv ks) in Hup by lia.
    pose proof (count_upto_spec kv ks _ up Hr Hup) as Hu'.
    rewrite Nat.ltb_irrefl in Hu'. symmetry in Hu'. apply Z.leb_gt in Hu'.
    split; [exact Hu' |].
    intros k' Hin' Hk'. apply list_elem_of_lookup in Hin' as [j Hj].
    pose proof (count_upto_spec kv ks j k' Hr Hj) as Hj'.
    destruct (Nat.ltb_spec j (count_upto kv ks));
      [symmetry in Hj'; apply Z.leb_le in Hj'; lia |].
    apply (rising_le ks (count_upto kv ks) j); assumption.
  - intros Hall k Hin. apply list_elem_of_lookup in Hin as [i Hi].
    pose proof (lookup_lt_Some _ _ _ Hi).
    assert (Hfull : count_upto kv ks = length ks).
    { destruct (decide (count_upto kv ks = length ks)) as [He | Hne]; [exact He | exfalso].
      replace (Nat.min (count_upto kv ks) (length ks - 1)) with (count_upto kv ks) in Hup
        by lia.
      pose proof (count_upto_spec kv ks _ up Hr Hup) as Hu'.
      rewrite Nat.ltb_irrefl in Hu'. symmetry in Hu'. apply Z.leb_gt in Hu'.
      specialize (Hall up (list_elem_of_lookup_2 _ _ _ Hup)). lia. }
    apply (rising_le ks i (Nat.min (count_upto kv ks) (length ks - 1))); [assumption.. | lia].
Qed.

(** The value at index [pred (count_below kv ks)] of a rising grid is the
    greatest one below [kv], or the least of the grid. *)
Lemma index_below_spec (ks : list Z) (kv down : Z) :
  rising ks -> ks !! Nat.pred (count_below kv ks) = Some down ->
  ((exists k, k ∈ ks /\ k < kv) -> down < kv /\ forall k, k ∈ ks -> k < kv -> k <= down)%Z /\
  ((forall k, k ∈ ks -> kv <= k) -> forall k, k ∈ ks -> down <= k)%Z.
Proof.
  intros Hr Hdown.
  pose proof (lookup_lt_Some _ _ _ Hdown) as Hlt.
  split.
  - intros (k & Hin & Hk). apply list_elem_of_lookup in Hin as [i Hi].
    pose proof (count_below_spec kv ks i k Hr Hi) as Hb.
    destruct (Nat.leb_spec (count_below kv ks) i);
      [symmetry in Hb; apply Z.leb_le in Hb; lia |].
    pose proof (count_below_spec kv ks _ down Hr Hdown) as Hb'.
    destruct (Nat.leb_spec (count_below kv ks) (Nat.pred (count_below kv ks))); [lia |].
    symmetry in Hb'. apply Z.leb_gt in Hb'.
    split; [exact Hb' |].
    intros k' Hin' Hk'. apply list_elem_of_lookup in Hin' as [j Hj].
    pose proof (count_below_spec kv ks j k' Hr Hj) as Hj'.
    destruct (Nat.leb_spec (count_below kv ks) j);
      [symmetry in Hj'; apply Z.leb_le in Hj'; lia |].
    apply (rising_le ks j (Nat.pred (count_below kv ks))); [assumption.. | lia].
  - intros Hall k Hin. apply list_elem_of_lookup in Hin as [i Hi].
    assert (Hnone : count_below kv ks = 0%nat).
    { destruct (decide (count_below kv ks = 0%nat)) as [He | Hne]; [exact He | exfalso].
      pose proof (count_below_spec kv ks _ down Hr Hdown) as Hb'.
      destruct (Nat.leb_spec (count_below kv ks) (Nat.pred (count_below kv ks))); [lia |].
      symmetry in Hb'. apply Z.leb_gt in Hb'.
      specialize (Hall down (list_elem_of_lookup_2 _ _ _ Hdown)). lia. }
    apply (rising_le ks (Nat.pred (count_below kv ks)) i); [assumption.. | lia].
Qed.

End WalkSpec.



Lemma rising_sample : rising [0; 577; 816; 1000]%Z.
Proof.
  intros i j a b Hi Hj Hij.
  destruct i as [| [| [| [| i]]]]; simpl in Hi; try discriminate;
    destruct j as [| [| [| [| j]]]]; simpl in Hj; try discriminate;
    injection Hi as <-; injection Hj as <-; lia.
Qed.

Lemma sample_in_range (k : Z) : k ∈ [0; 577; 816; 1000]%Z -> (0 <= k <= 1000)%Z.
Proof.
  intros Hin. repeat (apply elem_of_cons in Hin as [-> | Hin]; [lia |]).
  apply elem_of_nil in Hin. contradiction.
Qed.


(** ** The control grid *)

(** C6. With [n_grid = 4] the grid is 0, 5.77, 8.16, 10; from the current
    value 6 the walk gives 8.16 when increasing and 5.77 when decreasing.
    This holds in exact arithmetic and, value for value, in binary64
    arithmetic. *)
Theorem control_grid_4_scenario :
  (exists g : list Q,
     make_control_grid 4 = Ok g /\ Forall2 Qeq g [0; 5.77; 8.16; 10]%Q /\
     quantize g 6%Q Increase = Ok 8.16%Q /\
     quantize g 6%Q Decrease = Ok 5.77%Q) /\
  (exists g : list float,
     make_control_grid 4 = Ok g /\ g = [0; 5.77; 8.16; 10]%float /\
     quantize g 6%float Increase = Ok 8.16%float /\
     quantize g 6%float Decrease = Ok 5.77%float).
Proof.
  split.
  - eexists. split; [vm_compute; reflexivity |].
    split; [repeat constructor | split; reflexivity].
  - eexists. split; [vm_compute; reflexivity |].
    split; [reflexivity | split; vm_compute; reflexivity].
Qed.

(** *** The exact grid for every size *)

Section ExactGrid.
Local Open Scope Q_scope.

(** Rounding the square root to hundredths is monotone. *)
Lemma rint_sqrt100_mono (x y : Q) :
  0 <= x -> x <= y -> (ExactQ.rint_sqrt100 x <= ExactQ.rint_sqrt100 y)%Z.
Proof.
  intros Hx Hxy. unfold ExactQ.rint_sqrt100.
  assert (Hk : (Z.sqrt (Qfloor (x * 10000)) <= Z.sqrt (Qfloor (y * 10000)))%Z).
  { apply Z.sqrt_le_mono, Qfloor_resp_le. lra. }
  set (kx := Z.sqrt (Qfloor (x * 10000))) in *.
  set (ky := Z.sqrt (Qfloor (y * 10000))) in *.
  assert (Hrx : forall c, (match c with
                           | Lt => kx | Gt => kx + 1
                           | Eq => if Z.even kx then kx else kx + 1 end <= kx + 1)%Z).
  { intros []; [destruct (Z.even kx) | |]; lia. }
  assert (Hry : forall c, (ky <= match c with
                           | Lt => ky | Gt => ky + 1
                           | Eq => if Z.even ky then ky else ky + 1 end)%Z).
  { intros []; [destruct (Z.even ky) | |]; lia. }
  destruct (Z.eq_dec kx ky) as [Heq | Hne].
  - rewrite <- Heq.
    destruct (Qcompare_spec (4 * (x * 10000)) (inject_Z ((2 * kx + 1) * (2 * kx + 1))))
      as [Hcx | Hcx | Hcx];
    destruct (Qcompare_spec (4 * (y * 10000)) (inject_Z ((2 * kx + 1) * (2 * kx + 1))))
      as [Hcy | Hcy | Hcy];
    try lia; try lra; destruct (Z.even kx); lia.
  - etransitivity; [apply Hrx |]. etransitivity; [| apply Hry]. lia.
Qed.

Lemma exact_linspace (n : Z) :
  (2 <= n)%Z ->
  linspace (T:=Q) (of_int 0) (of_int 100) n
  = Ok (<[Z.to_nat (n - 1) := inject_Z 100]>
          ((fun x => x + inject_Z 0) <$>
           ((fun x => x * ((inject_Z 100 - inject_Z 0) / inject_Z (n - 1))) <$>
            ((fun i : nat => inject_Z (Z.of_nat i)) <$> seq 0 (Z.to_nat n))))).
Proof.
  intros Hn. unfold linspace.
  destruct (Z.ltb_spec n 0) as [Hneg | _]; [lia |].
  destruct (Z.ltb_spec 0 (n - 1)) as [Hdiv | Hdiv]; [| lia].
  destruct (Z.ltb_spec 1 n) as [_ | Hone]; [| lia].
  cbn [n_eqb n_div n_sub n_mul n_add of_int ExactQ.numeric].
  assert (Hstep : Qeq_bool ((inject_Z 100 - inject_Z 0) / inject_Z (n - 1)) (inject_Z 0)
                  = false).
  { destruct (Qeq_bool _ _) eqn:E; [| reflexivity].
    apply Qeq_bool_iff in E. exfalso.
    assert (Hpos : 0 < inject_Z (n - 1)) by (rewrite (Zlt_Qlt 0) in Hdiv; exact Hdiv).
    assert (Hq : 0 < (inject_Z 100 - inject_Z 0) / inject_Z (n - 1)).
    { apply Qlt_shift_div_l; [exact Hpos |].
      change (inject_Z 100) with 100. change (inject_Z 0) with 0. lra. }
    change (inject_Z 0) with 0 in E at 2. lra. }
  rewrite Hstep. reflexivity.
Qed.

Lemma exact_grid_lookup (n : Z) :
  (2 <= n)%Z ->
  exists g : list Q,
    make_control_grid n = Ok g /\ length g = Z.to_nat n /\
    forall i, (i < Z.to_nat n)%nat ->
      exists x, g !! i = Some (ExactQ.round2_sqrt x) /\ x == abscissa n i.
Proof.
  intros Hn. unfold make_control_grid. rewrite (exact_linspace n Hn). simpl.
  eexists. split; [reflexivity |].
  split.
  { rewrite length_fmap, length_insert, !length_fmap, length_seq. reflexivity. }
  intros i Hi.
  rewrite list_lookup_fmap.
  assert (Hpos : 0 < inject_Z (n - 1)).
  { rewrite <- (Zlt_Qlt 0). lia. }
  destruct (decide (i = Z.to_nat (n - 1))) as [-> | Hne].
  - rewrite list_lookup_insert_eq
      by (rewrite !length_fmap, length_seq; lia).
    simpl. eexists. split; [reflexivity |].
    unfold abscissa. rewrite Z2Nat.id by lia.
    rewrite inject_Z_mult. change (inject_Z 100) with 100. field. lra.
  - rewrite list_lookup_insert_ne by congruence.
    rewrite !list_lookup_fmap, lookup_seq_lt by exact Hi. simpl.
    eexists. split; [reflexivity |].
    unfold abscissa. rewrite inject_Z_mult.
    change (inject_Z 100) with 100. change (inject_Z 0) with 0. field. lra.
Qed.

Lemma exact_grid_weakly_increasing (n : Z) :
  (2 <= n)%Z ->
  exists g : list Q,
    make_control_grid n = Ok g /\ length g = Z.to_nat n /\ weakly_increasing g.
Proof.
  intros Hn. destruct (exact_grid_lookup n Hn) as (g & Hg & Hlen & Hlook).
  exists g. split; [exact Hg |]. split; [exact Hlen |].
  intros i j x y Hi Hj Hij.
  pose proof (lookup_lt_Some _ _ _ Hi) as Hil.
  pose proof (lookup_lt_Some _ _ _ Hj) as Hjl.
  rewrite Hlen in Hil, Hjl.
  destruct (Hlook i Hil) as (a & Ha & Haeq).
  destruct (Hlook j Hjl) as (b & Hb & Hbeq).
  rewrite Ha in Hi. rewrite Hb in Hj. injection Hi as <-. injection Hj as <-.
  assert (Hpos : 0 < inject_Z (n - 1)).
  { rewrite <- (Zlt_Qlt 0). lia. }
  assert (Hab : abscissa n i <= abscissa n j).
  { unfold abscissa. apply Qmult_le_compat_r.
    - rewrite <- Zle_Qle. lia.
    - apply Qlt_le_weak, Qinv_lt_0_compat, Hpos. }
  assert (H0a : 0 <= abscissa n i).
  { unfold abscissa. apply Qle_shift_div_l; [exact Hpos |].
    rewrite Qmult_0_l. rewrite <- (Zle_Qle 0). lia. }
  unfold ExactQ.round2_sqrt, Qle. simpl.
  apply Z.mul_le_mono_nonneg_r; [lia |].
  apply rint_sqrt100_mono; [rewrite Haeq; exact H0a |].
  rewrite Haeq, Hbeq. exact Hab.
Qed.

Lemma rint_sqrt100_ratio (x : Q) (a b : Z) :
  (0 < b)%Z -> x * 10000 == inject_Z a / inject_Z b ->
  ExactQ.rint_sqrt100 x = rint_sqrt_ratio a b.
Proof.
  intros Hb Hx. unfold ExactQ.rint_sqrt100, rint_sqrt_ratio.
  assert (Hfloor : Qfloor (x * 10000) = (a / b)%Z).
  { rewrite Hx. symmetry. apply Zdiv_Qdiv. }
  rewrite Hfloor. set (k := Z.sqrt (a / b)).
  assert (Hbq : 0 < inject_Z b) by (rewrite <- (Zlt_Qlt 0); exact Hb).
  assert (Hscale : 4 * (x * 10000) * inject_Z b == inject_Z (4 * a)).
  { rewrite Hx, inject_Z_mult. change (inject_Z 4) with 4. field. lra. }
  assert (Hm : inject_Z ((2 * k + 1) * (2 * k + 1)) * inject_Z b
               == inject_Z ((2 * k + 1) * (2 * k + 1) * b)).
  { rewrite <- inject_Z_mult. reflexivity. }
  assert (Hlt : (4 * a < (2 * k + 1) * (2 * k + 1) * b)%Z ->
                4 * (x * 10000) * inject_Z b
                < inject_Z ((2 * k + 1) * (2 * k + 1)) * inject_Z b).
  { intros Hz. rewrite Hscale, Hm, <- Zlt_Qlt. exact Hz. }
  assert (Hgt : ((2 * k + 1) * (2 * k + 1) * b < 4 * a)%Z ->
                inject_Z ((2 * k + 1) * (2 * k + 1)) * inject_Z b
                < 4 * (x * 10000) * inject_Z b).
  { intros Hz. rewrite Hscale, Hm, <- Zlt_Qlt. exact Hz. }
  assert (Heq : (4 * a = (2 * k + 1) * (2 * k + 1) * b)%Z ->
                4 * (x * 10000) * inject_Z b
                == inject_Z ((2 * k + 1) * (2 * k + 1)) * inject_Z b).
  { intros Hz. rewrite Hscale, Hm, Hz. reflexivity. }
  clear Hscale Hm Hfloor Hx.
  destruct (Qcompare_spec (4 * (x * 10000)) (inject_Z ((2 * k + 1) * (2 * k + 1))))
    as [Hc | Hc | Hc];
  destruct (Z.compare_spec (4 * a) ((2 * k + 1) * (2 * k + 1) * b)) as [Hz | Hz | Hz];
  try reflexivity; exfalso;
  first [apply Hlt in Hz | apply Hgt in Hz | apply Heq in Hz];
  clear Hlt Hgt Heq;
  set (P := 4 * (x * 10000)) in *;
  set (Mq := inject_Z ((2 * k + 1) * (2 * k + 1))) in *;
  set (B := inject_Z b) in *;
  clearbody P Mq B; nra.
Qed.

Lemma exact_grid_hundredths (n : Z) :
  (2 <= n)%Z ->
  make_control_grid (T:=Q) n = Ok ((fun z => z # 100) <$> exact_hundredths n).
Proof.
  intros Hn. destruct (exact_grid_lookup n Hn) as (g & Hg & Hlen & Hlook).
  rewrite Hg. f_equal. apply list_eq. intros i.
  unfold exact_hundredths. rewrite !list_lookup_fmap.
  destruct (decide (i < Z.to_nat n)%nat) as [Hi | Hi].
  - destruct (Hlook i Hi) as (x & Hx & Hxeq).
    rewrite Hx, lookup_seq_lt by exact Hi. simpl. f_equal.
    unfold ExactQ.round2_sqrt. f_equal.
    apply rint_sqrt100_ratio; [lia |].
    assert (Hpos : 0 < inject_Z (n - 1)) by (rewrite <- (Zlt_Qlt 0); lia).
    rewrite Hxeq. unfold abscissa.
    replace (1000000 * Z.of_nat i)%Z with (100 * Z.of_nat i * 10000)%Z by lia.
    rewrite (inject_Z_mult _ 10000). change (inject_Z 10000) with 10000.
    field. lra.
  - rewrite lookup_seq_ge by lia. simpl.
    apply lookup_ge_None. lia.
Qed.

(** The rounded root is within one half of the root. *)
Lemma rint_sqrt_ratio_spec (a b : Z) :
  (0 <= a)%Z -> (0 < b)%Z ->
  let r := rint_sqrt_ratio a b in
  (0 <= r)%Z /\ (4 * a <= (2 * r + 1) * (2 * r + 1) * b)%Z /\
  (r = 0%Z \/ ((2 * r - 1) * (2 * r - 1) * b <= 4 * a)%Z).
Proof.
  intros Ha Hb. unfold rint_sqrt_ratio.
  assert (Hq : (0 <= a / b)%Z) by (apply Z.div_pos; lia).
  pose proof (Z.sqrt_spec (a / b) Hq) as Hk. cbv zeta in Hk.
  pose proof (Z.sqrt_nonneg (a / b)) as Hk0.
  set (k := Z.sqrt (a / b)) in *.
  pose proof (Z.mul_div_le a b Hb) as Hdiv_le.
  pose proof (Z.mul_succ_div_gt a b Hb) as Hdiv_gt.
  assert (Hlow : (k * k * b <= a)%Z) by nia.
  assert (Hup : (a < (k + 1) * (k + 1) * b)%Z) by nia.
  destruct (Z.compare_spec (4 * a) ((2 * k + 1) * (2 * k + 1) * b)) as [Hc | Hc | Hc].
  - destruct (Z.even k).
    + split_and!; [lia | lia |]. destruct (Z.eq_dec k 0%Z); [left; assumption | right; nia].
    + split_and!; [lia | nia | right; nia].
  - split_and!; [lia | lia |]. destruct (Z.eq_dec k 0%Z); [left; assumption | right; nia].
  - split_and!; [lia | nia | right; nia].
Qed.

(** Where the roots of two numerators [step] apart differ by more than
    one, the rounded roots differ. *)
Lemma rint_sqrt_ratio_step (a b step : Z) :
  (0 <= a)%Z -> (0 < b < step)%Z ->
  (4 * a * b < (step - b) * (step - b))%Z ->
  (rint_sqrt_ratio a b < rint_sqrt_ratio (a + step) b)%Z.
Proof.
  intros Ha Hb Hgap.
  destruct (rint_sqrt_ratio_spec a b) as (Hr0 & _ & Hrlow); [lia.. |].
  destruct (rint_sqrt_ratio_spec (a + step) b) as (Hr0' & Hrup' & _); [lia.. |].
  set (r := rint_sqrt_ratio a b) in *.
  set (r' := rint_sqrt_ratio (a + step) b) in *.
  destruct (Z.lt_ge_cases r r') as [Hlt | Hge]; [exact Hlt | exfalso].
  assert (Hup : (4 * (a + step) <= (2 * r + 1) * (2 * r + 1) * b)%Z) by nia.
  destruct Hrlow as [Hz | Hrlow]; [rewrite Hz in Hup; lia |].
  assert (Hstep : (step <= 2 * r * b)%Z) by nia.
  assert (Hrb : (step - b <= (2 * r - 1) * b)%Z) by nia.
  assert (Hsq : ((step - b) * (step - b) <= ((2 * r - 1) * b) * ((2 * r - 1) * b))%Z)
    by (apply Z.mul_le_mono_nonneg; lia).
  nia.
Qed.

Lemma rises_from_at (b : Z) (count : nat) (i j : Z) :
  rises_from b count i = true -> (i <= j < i + Z.of_nat count)%Z ->
  (rint_sqrt_ratio (1000000 * j) b < rint_sqrt_ratio (1000000 * (j + 1)) b)%Z.
Proof.
  revert i. induction count as [| count IH]; intros i Hok Hj; [lia |].
  simpl in Hok.
  destruct (rint_sqrt_ratio (1000000 * i) b <? rint_sqrt_ratio (1000000 * (i + 1)) b)%Z
    eqn:Hi; [| discriminate].
  destruct (Z.eq_dec j i) as [-> | Hne]; [apply Z.ltb_lt, Hi |].
  apply (IH (i + 1)%Z); [exact Hok | lia].
Qed.

Lemma size_ok_rises (n i : Z) :
  (2 <= n <= 1000000)%Z -> size_ok n = true -> (0 <= i < n - 1)%Z ->
  (rint_sqrt_ratio (1000000 * i) (n - 1)
   < rint_sqrt_ratio (1000000 * (i + 1)) (n - 1))%Z.
Proof.
  intros Hn Hok Hi. unfold size_ok in Hok. cbv zeta in Hok.
  set (b := (n - 1)%Z) in *.
  assert (Hq : (4000000 * b * ((1000000 - b) * (1000000 - b) / (4000000 * b))
                <= (1000000 - b) * (1000000 - b))%Z)
    by (apply Z.mul_div_le; lia).
  assert (Hq0 : (0 <= (1000000 - b) * (1000000 - b) / (4000000 * b))%Z)
    by (apply Z.div_pos; nia).
  destruct (Z.lt_ge_cases i (first_close b)) as [Hlt | Hge].
  - replace (1000000 * (i + 1))%Z with (1000000 * i + 1000000)%Z by lia.
    apply rint_sqrt_ratio_step; [lia | lia |].
    unfold first_close in Hlt.
    set (q := ((1000000 - b) * (1000000 - b) / (4000000 * b))%Z) in *.
    assert (Hiq : (i + 1 <= q)%Z) by lia.
    nia.
  - apply (rises_from_at _ _ _ _ Hok).
    unfold first_close in *. lia.
Qed.

Lemma size_ok_strictly_increasing (n : Z) :
  (2 <= n <= 1000000)%Z -> size_ok n = true ->
  strictly_increasing ((fun z => z # 100) <$> exact_hundredths n).
Proof.
  intros Hn Hok.
  set (f := fun i : nat => rint_sqrt_ratio (1000000 * Z.of_nat i) (n - 1)).
  assert (Hadj : forall i, (S i < Z.to_nat n)%nat -> (f i < f (S i))%Z).
  { intros i Hi. unfold f.
    replace (Z.of_nat (S i)) with (Z.of_nat i + 1)%Z by lia.
    apply size_ok_rises; [exact Hn | exact Hok | lia]. }
  assert (Hall : forall d i, (i + S d < Z.to_nat n)%nat -> (f i < f (i + S d)%nat)%Z).
  { induction d as [| d IH]; intros i Hi.
    - replace (i + 1)%nat with (S i) by lia. apply Hadj. lia.
    - specialize (IH i ltac:(lia)).
      specialize (Hadj (i + S d)%nat ltac:(lia)).
      replace (i + S (S d))%nat with (S (i + S d)) by lia. lia. }
  intros i j x y Hi Hj Hij.
  unfold exact_hundredths in Hi, Hj. rewrite !list_lookup_fmap in Hi, Hj.
  pose proof (lookup_seq_lt 0 (Z.to_nat n) i) as Hsi.
  pose proof (lookup_seq_lt 0 (Z.to_nat n) j) as Hsj.
  destruct (decide (j < Z.to_nat n)%nat) as [Hjn | Hjn].
  2:{ rewrite lookup_seq_ge in Hj by lia. discriminate. }
  rewrite Hsi in Hi by lia. rewrite Hsj in Hj by lia.
  simpl in Hi, Hj. injection Hi as <-. injection Hj as <-.
  unfold Qlt. simpl.
  specialize (Hall (j - i - 1)%nat i ltac:(lia)).
  replace (i + S (j - i - 1))%nat with j in Hall by lia.
  unfold f in Hall. lia.
Qed.

End ExactGrid.

Lemma grid_sizes_elem (lo : Z) (count : nat) (n : Z) :
  (lo <= n < lo + Z.of_nat count)%Z -> n ∈ grid_sizes lo count.
Proof.
  intros Hn. unfold grid_sizes. apply list_elem_of_fmap.
  exists (Z.to_nat (n - lo)). split; [lia |].
  apply elem_of_seq. lia.
Qed.

Lemma sizes_to_517_ok : forallb size_ok (grid_sizes 2 516) = true.
Proof. vm_compute. reflexivity. Qed.

Lemma grid_ascends_to_517_binary64 :
  forallb (grid_ascends (T:=float)) (grid_sizes 2 516) = true.
Proof. vm_compute. reflexivity. Qed.

(** The grid of 518 values holds 9.78 twice, at indices 494 and 495: the
    square roots of 100*494/517 and 100*495/517 are 9.7750... and
    9.7849..., which both round to 9.78. *)
Lemma control_grid_518_repeats :
  (exists g : list Q,
     make_control_grid 518 = Ok g /\ length g = 518%nat /\
     g !! 494%nat = Some 9.78%Q /\ g !! 495%nat = Some 9.78%Q /\
     ~ strictly_increasing g) /\
  (exists g : list float,
     make_control_grid 518 = Ok g /\ length g = 518%nat /\
     g !! 494%nat = Some 9.78%float /\ g !! 495%nat = Some 9.78%float /\
     ascending_b g = false).
Proof.
  split.
  - eexists. split; [vm_compute; reflexivity |].
    split; [reflexivity |].
    assert (H494 : forall g : list Q, g !! 494%nat = Some 9.78%Q ->
              g !! 495%nat = Some 9.78%Q -> ~ strictly_increasing g).
    { intros g Ha Hb Hs. pose proof (Hs 494%nat 495%nat _ _ Ha Hb ltac:(lia)). lra. }
    split; [reflexivity |]. split; [reflexivity |].
    apply H494; reflexivity.
  - eexists. split; [vm_compute; reflexivity |].
    repeat (split; [reflexivity |]). vm_compute. reflexivity.
Qed.

(** C5, amended. For every [n_grid] of at least 2 the grid of line 148
    has [n_grid] values and never decreases along the indices (exact
    arithmetic).  For [n_grid] up to 517 its values are strictly
    increasing, hence distinct, in exact and in binary64 arithmetic.
    (From 518 values on, neighbouring square roots can round to the same
    hundredth.) *)
Theorem control_grid_ascending (n_grid : Z) :
  (2 <= n_grid)%Z ->
  exists g : list Q,
    make_control_grid n_grid = Ok g /\ length g = Z.to_nat n_grid /\
    weakly_increasing g /\
    ((n_grid <= 517)%Z ->
       strictly_increasing g /\
       (forall i j x y, g !! i = Some x -> g !! j = Some y -> i <> j -> ~ (x == y)%Q) /\
       exists gf : list float,
         make_control_grid n_grid = Ok gf /\ length gf = Z.to_nat n_grid /\
         ascending_b gf = true).
Proof.
  intros Hn.
  destruct (exact_grid_weakly_increasing n_grid Hn) as (g & Hg & Hlen & Hweak).
  exists g. split_and!; [exact Hg | exact Hlen | exact Hweak |].
  intros Hle.
  assert (Hin : n_grid ∈ grid_sizes 2 516) by (apply grid_sizes_elem; lia).
  apply list_elem_of_In in Hin.
  assert (Hs : strictly_increasing g).
  { rewrite (exact_grid_hundredths n_grid Hn) in Hg. injection Hg as <-.
    apply size_ok_strictly_increasing; [lia |].
    pose proof sizes_to_517_ok as Hall.
    rewrite forallb_forall in Hall. apply Hall, Hin. }
  split_and!; [exact Hs | |].
  - intros i j x y. apply strictly_increasing_distinct, Hs.
  - pose proof grid_ascends_to_517_binary64 as Hall.
    rewrite forallb_forall in Hall. specialize (Hall n_grid Hin).
    unfold grid_ascends in Hall.
    destruct (make_control_grid (T:=float) n_grid) as [gf | |]; [| discriminate..].
    apply andb_true_iff in Hall as [Hlenf Hasc].
    apply bool_decide_eq_true in Hlenf.
    exists gf. split_and!; [reflexivity | exact Hlenf | exact Hasc].
Qed.

Lemma control_grid_ascending_witness :
  (2 <= 64)%Z /\
  exists g : list Q,
    make_control_grid 64 = Ok g /\ length g = 64%nat /\ strictly_increasing g.
Proof.
  assert (Hn : (2 <= 64)%Z) by lia.
  split; [exact Hn |].
  destruct (control_grid_ascending 64 Hn) as (g & Hg & Hlen & _ & Hs).
  exists g. split_and!; [exact Hg | exact Hlen | apply Hs; lia].
Defined.

(** ** Exact and binary64 walks on the sample grid *)

Lemma grids_agree_spec (n_grid lo : Z) (count : nat) (direction : option bool) (k : Z) :
  grids_agree n_grid lo count = true ->
  (lo <= k < lo + Z.of_nat count)%Z ->
  exists (g : list Q) (gf : list float) (r : Z) (rf : float),
    make_control_grid n_grid = Ok g /\ make_control_grid n_grid = Ok gf /\
    quantize g (k # 100) direction = Ok (r # 100) /\
    quantize gf (hundredths k) direction = Ok rf /\
    PrimFloat.eqb (hundredths r) rf = true.
Proof.
  intros Hall Hk. unfold grids_agree in Hall.
  destruct (make_control_grid (T:=Q) n_grid) as [g | |] eqn:Hg; [| discriminate..].
  destruct (make_control_grid (T:=float) n_grid) as [gf | |] eqn:Hgf; [| discriminate..].
  rewrite forallb_forall in Hall.
  assert (Hdir : In direction [Increase; Decrease; Hold]).
  { destruct direction as [[] |]; simpl; auto. }
  specialize (Hall direction Hdir). rewrite forallb_forall in Hall.
  assert (Hin : In k (grid_sizes lo count)).
  { apply list_elem_of_In, grid_sizes_elem. exact Hk. }
  specialize (Hall k Hin). unfold walks_agree in Hall.
  destruct (quantize g (k # 100) direction) as [[r d] | |] eqn:Hq; [| discriminate..].
  destruct (quantize gf (hundredths k) direction) as [rf | |] eqn:Hqf; [| discriminate..].
  apply andb_true_iff in Hall as [Hrf Hd].
  apply Pos.eqb_eq in Hd. simpl in Hd. subst d.
  exists g, gf, r, rf. split_and!; [reflexivity | reflexivity | exact Hq | exact Hqf | exact Hrf].
Qed.

Lemma sample_grid_walks_agree : grids_agree 64 0 1001 = true.
Proof. vm_compute. reflexivity. Qed.

(** With the 64 values of the sample configuration, for every current
    value from 0.00 to 10.00 in steps of 0.01 and every direction, the
    walk in binary64 arithmetic ends on the binary64 value of the
    hundredth on which the exact walk ends. *)
Lemma binary64_walk_on_sample_grid (direction : option bool) (k : Z) :
  (0 <= k <= 1000)%Z ->
  exists (g : list Q) (gf : list float) (r : Z) (rf : float),
    make_control_grid 64 = Ok g /\ make_control_grid 64 = Ok gf /\
    quantize g (k # 100) direction = Ok (r # 100) /\
    quantize gf (hundredths k) direction = Ok rf /\
    PrimFloat.eqb (hundredths r) rf = true.
Proof.
  intros Hk.
  apply (grids_agree_spec 64 0 1001 direction k sample_grid_walks_agree).
  lia.
Qed.

(** ** One control cycle *)

Section Cycle.
Context {T : Type} `{Numeric T}.

Lemma no_write_cons (e : event T) (evs : list (event T)) :
  (forall channel value ok, e <> EvWrite channel value ok) ->
  no_write evs -> no_write (e :: evs).
Proof.
  intros He Hevs channel value ok Hin.
  apply elem_of_cons in Hin as [Heq | Hin].
  - apply (He channel value ok). symmetry. exact Heq.
  - apply (Hevs channel value ok Hin).
Qed.

Lemma no_write_nil : no_write (T:=T) [].
Proof. intros channel value ok Hin. apply elem_of_nil in Hin. exact Hin. Qed.

End Cycle.

(** Names the events a run has added, by trying lists of growing
    length, and the result and world fields it has produced. *)
Ltac run_gives :=
  cbv beta iota delta [emit set_faults set_pvs pvs faults clock sigint files events];
  first
    [ eexists [_; _]; do 3 eexists; split; [reflexivity |]
    | eexists [_; _; _]; do 3 eexists; split; [reflexivity |]
    | eexists [_; _; _; _]; do 3 eexists; split; [reflexivity |]
    | eexists [_; _; _; _; _]; do 3 eexists; split; [reflexivity |]
    | eexists [_; _; _; _; _; _]; do 3 eexists; split; [reflexivity |]
    | eexists [_; _; _; _; _; _; _]; do 3 eexists; split; [reflexivity |] ].

Section CycleCases.
Context {T : Type} `{Numeric T}.

(** Every way a cycle can go, with the events it adds (most recent
    first), its result and the channel values it leaves. *)
Lemma brs_control_cases (optics : string) (control_negated : bool)
    (threshold_lower threshold_upper n_grid : Z) (w : world T) :
  let chd := channel_drift optics in
  let chc := channel_control optics in
  let start := EvLog (LogStarting (clock w)) in
  exists new r pvs' faults',
    brs_control optics control_negated threshold_lower threshold_upper n_grid w
    = (r, World pvs' faults' (clock w) (sigint w) (files w) (new ++ events w)) /\
    ((new = [EvRead chd None; start] /\ r = Raise EzcaError /\ pvs' = pvs w) \/
     (exists d, new = [EvRead chc None; EvRead chd (Some d); start] /\
                r = Raise EzcaError /\ pvs' = pvs w) \/
     (exists d c,
        let reads := [EvRead chc (Some c); EvRead chd (Some d); start] in
        let drift := np_round2 d in
        let control := np_round2 c in
        let current := EvLog (LogCurrent drift control) in
        let line :=
          EvLog (fst (threshold_branch drift control_negated
                        threshold_lower threshold_upper)) in
        pvs w !! chd = Some d /\ pvs w !! chc = Some c /\
        match make_control_grid n_grid with
        | Ok control_grid =>
            match quantize control_grid control
                    (decide_direction drift control_negated
                                      threshold_lower threshold_upper) with
            | Ok control_next =>
                if n_neb control control_next then
                  exists ok,
                    new = EvWrite chc control_next ok
                          :: EvLog (LogSetting chc control control_next)
                          :: line :: current :: reads /\
                    r = (if ok then Ok tt else Raise EzcaError) /\
                    pvs' = (if ok then <[chc := control_next]> (pvs w) else pvs w)
                else
                  new = EvLog LogDoingNothing :: line :: current :: reads /\
                  r = Ok tt /\ pvs' = pvs w
            | Raise e => new = line :: current :: reads /\ r = Raise e /\ pvs' = pvs w
            | Diverge => new = line :: current :: reads /\ r = Diverge /\ pvs' = pvs w
            end
        | Raise e => new = reads /\ r = Raise e /\ pvs' = pvs w
        | Diverge => new = reads /\ r = Diverge /\ pvs' = pvs w
        end)).
Proof.
  intros chd chc start. subst chd chc start.
  destruct w as [pv fl ck sg fi ev].
  unfold brs_control, bind, datetime_now, logger_info, lift, ezca_read, next_fault.
  simpl.
  destruct (default false (head fl)); simpl.
  { run_gives. left. auto. }
  destruct (pv !! channel_drift optics) as [d |] eqn:Hd; simpl.
  2:{ run_gives. left. auto. }
  destruct (default false (head (tail fl))); simpl.
  { run_gives. right. left. exists d. auto. }
  destruct (pv !! channel_control optics) as [c |] eqn:Hc; simpl.
  2:{ run_gives. right. left. exists d. auto. }
  unfold decide_direction.
  destruct (make_control_grid n_grid) as [control_grid | e |]; simpl.
  2,3: run_gives; right; right; exists d, c;
       simpl; auto.
  destruct (threshold_branch (np_round2 d) control_negated
              threshold_lower threshold_upper) as [line dir] eqn:Hb; simpl.
  destruct (quantize control_grid (np_round2 c) dir) as [control_next | e |] eqn:Hq;
    simpl.
  2,3: run_gives; right; right; exists d, c;
       simpl; rewrite Hb; simpl; rewrite Hq; auto.
  destruct (n_neb (np_round2 c) control_next) eqn:Hne; simpl.
  2:{ run_gives. right; right. exists d, c.
      simpl. rewrite Hb. simpl. rewrite Hq, Hne. auto. }
  unfold ezca_write, next_fault. simpl. rewrite Hc.
  destruct (default false (head (tail (tail fl)))); simpl.
  - run_gives. right; right. exists d, c.
    simpl. rewrite Hb. simpl. rewrite Hq, Hne. split; [reflexivity |]. split; [reflexivity |].
    exists false. auto.
  - run_gives. right; right. exists d, c.
    simpl. rewrite Hb. simpl. rewrite Hq, Hne. split; [reflexivity |]. split; [reflexivity |].
    exists true. auto.
Qed.

End CycleCases.

Create HintDb cycle.
#[local] Hint Resolve no_write_nil : cycle.
#[local] Hint Extern 1 (no_write (_ :: _)) =>
  apply no_write_cons; [intros ? ? ?; discriminate |] : cycle.

(** Takes apart a hypothesis [e ∈ [e1; ...; en]] into the possible
    equalities, dropping those between different constructors. *)
Ltac elems :=
  repeat match goal with
  | Hin : _ ∈ _ :: _ |- _ =>
      apply elem_of_cons in Hin as [Hin | Hin];
      [first [discriminate Hin | injection Hin as ? ? ? | injection Hin as ? ? | idtac] |]
  | Hin : _ ∈ [] |- _ => apply elem_of_nil in Hin; destruct Hin
  end.

(** C7. In every control cycle, from every state of the channels and
    whatever the arithmetic: the cycle writes to a channel if and only if
    no read failed and the next value computed from the two values read
    differs from the rounded current control value; a write is the last
    action of the cycle, goes to the control channel with the computed
    value, and follows the two successful reads; without a write, and in
    particular when a read fails or the next value equals the current one,
    the channel values are left as they were. *)
Theorem actuator_write_iff {T : Type} `{Numeric T} (optics : string)
    (control_negated : bool) (threshold_lower threshold_upper n_grid : Z)
    (w : world T) :
  let chd := channel_drift optics in
  let chc := channel_control optics in
  let next_of := control_next_of control_negated threshold_lower threshold_upper n_grid in
  exists new r w',
    brs_control optics control_negated threshold_lower threshold_upper n_grid w
    = (r, w') /\
    events w' = new ++ events w /\
    ((exists channel value ok, EvWrite channel value ok ∈ new) <->
     ((forall channel, EvRead channel None ∉ new) /\
      exists d c next,
        pvs w !! chd = Some d /\ pvs w !! chc = Some c /\
        next_of d c = Ok next /\ n_neb (np_round2 c) next = true)) /\
    (forall channel value ok, EvWrite channel value ok ∈ new ->
       exists d c rest,
         new = EvWrite chc value ok :: rest /\ channel = chc /\ no_write rest /\
         EvRead chd (Some d) ∈ rest /\ EvRead chc (Some c) ∈ rest /\
         next_of d c = Ok value /\
         pvs w' = if ok then <[chc := value]> (pvs w) else pvs w) /\
    (no_write new -> pvs w' = pvs w) /\
    (forall channel, EvRead channel None ∈ new ->
       no_write new /\ pvs w' = pvs w /\ r = Raise EzcaError).
Proof.
  intros chd chc next_of.
  destruct (brs_control_cases optics control_negated threshold_lower threshold_upper
              n_grid w) as (new & r & pvs' & faults' & Hrun & Hcases).
  fold chd chc in Hcases.
  exists new, r, (World pvs' faults' (clock w) (sigint w) (files w) (new ++ events w)).
  split; [exact Hrun |]. split; [reflexivity |]. simpl.
  destruct Hcases as [(-> & -> & ->) | [(d & -> & -> & ->) | (d & c & Hd & Hc & Hm)]].
  - (* the drift read failed *)
    assert (Hnw : no_write (T:=T) [EvRead chd None; EvLog (LogStarting (clock w))])
      by auto 12 with cycle.
    split_and!.
    + split.
      * intros (channel & value & ok & Hin). destruct (Hnw _ _ _ Hin).
      * intros [Hok _]. destruct (Hok chd). apply elem_of_cons. left. reflexivity.
    + intros channel value ok Hin. destruct (Hnw _ _ _ Hin).
    + reflexivity.
    + auto.
  - (* the control read failed *)
    assert (Hnw : no_write (T:=T) [EvRead chc None; EvRead chd (Some d);
                            EvLog (LogStarting (clock w))])
      by auto 12 with cycle.
    split_and!.
    + split.
      * intros (channel & value & ok & Hin). destruct (Hnw _ _ _ Hin).
      * intros [Hok _]. destruct (Hok chc). apply elem_of_cons. left. reflexivity.
    + intros channel value ok Hin. destruct (Hnw _ _ _ Hin).
    + reflexivity.
    + auto.
  - (* both reads succeeded *)
    simpl in Hm. subst next_of. unfold control_next_of.
    rewrite Hd, Hc.
    destruct (make_control_grid n_grid) as [control_grid | e |]; simpl.
    2,3: destruct Hm as (-> & -> & ->);
      assert (Hnw : no_write (T:=T) [EvRead chc (Some c); EvRead chd (Some d);
                              EvLog (LogStarting (clock w))]) by auto 12 with cycle;
      split_and!;
      [ split;
        [ intros (channel & value & ok & Hin); destruct (Hnw _ _ _ Hin)
        | intros [_ (d' & c' & next & _ & _ & Hn & _)]; discriminate Hn ]
      | intros channel value ok Hin; destruct (Hnw _ _ _ Hin)
      | reflexivity
      | intros channel Hin; elems ].
    destruct (quantize control_grid (np_round2 c)
                (decide_direction (np_round2 d) control_negated
                   threshold_lower threshold_upper))
      as [control_next | e |] eqn:Hq.
    2,3: destruct Hm as (-> & -> & ->);
      match goal with
      | |- context [no_write ?l] =>
          assert (Hnw : no_write l) by auto 12 with cycle
      end;
      split_and!;
      [ split;
        [ intros (channel & value & ok & Hin); destruct (Hnw _ _ _ Hin)
        | intros [_ (d' & c' & next & Hd' & Hc' & Hn & _)];
          injection Hd' as <-; injection Hc' as <-; rewrite Hq in Hn; discriminate Hn ]
      | intros channel value ok Hin; destruct (Hnw _ _ _ Hin)
      | reflexivity
      | intros channel Hin; elems ].
    destruct (n_neb (np_round2 c) control_next) eqn:Hne.
    + destruct Hm as (ok & -> & -> & ->).
      match goal with
      | |- context [EvWrite chc control_next ok :: ?l] =>
          assert (Hnw : no_write l) by auto 12 with cycle
      end.
      split_and!.
      * split.
        -- intros _. split; [intros channel Hin; elems |].
           exists d, c, control_next. rewrite Hq. auto.
        -- intros _. exists chc, control_next, ok. apply elem_of_cons. left. reflexivity.
      * intros channel value ok' Hin.
        apply elem_of_cons in Hin as [Heq | Hin]; [| destruct (Hnw _ _ _ Hin)].
        injection Heq as -> -> ->.
        eexists d, c, _. split; [reflexivity |]. split; [reflexivity |].
        split; [exact Hnw |].
        split; [do 4 (apply elem_of_cons; right); apply elem_of_cons; left; reflexivity |].
        split; [do 3 (apply elem_of_cons; right); apply elem_of_cons; left; reflexivity |].
        split; [exact Hq | reflexivity].
      * intros Hno. destruct (Hno chc control_next ok). apply elem_of_cons. left. reflexivity.
      * intros channel Hin. elems.
    + destruct Hm as (-> & -> & ->).
      match goal with
      | |- context [no_write ?l] =>
          assert (Hnw : no_write l) by auto 12 with cycle
      end.
      split_and!.
      * split.
        -- intros (channel & value & ok & Hin). destruct (Hnw _ _ _ Hin).
        -- intros [_ (d' & c' & next & Hd' & Hc' & Hn & Hneq)].
           injection Hd' as <-. injection Hc' as <-. rewrite Hq in Hn.
           injection Hn as <-. congruence.
      * intros channel value ok Hin. destruct (Hnw _ _ _ Hin).
      * reflexivity.
      * intros channel Hin. elems.
Qed.

(** ** The scheduling loop and failing channel accesses *)

Section Failures.
Context {T : Type} `{Numeric T}.

Lemma clean_nil : clean (T:=T) [].
Proof. intros e Hin. apply elem_of_nil in Hin. destruct Hin. Qed.

Lemma clean_cons (e : event T) (evs : list (event T)) :
  is_failure e = false -> clean evs -> clean (e :: evs).
Proof.
  intros He Hevs e' Hin. apply elem_of_cons in Hin as [-> | Hin]; auto.
Qed.

Lemma clean_app (evs evs' : list (event T)) :
  clean evs -> clean evs' -> clean (evs ++ evs').
Proof.
  intros Ha Hb e Hin. apply elem_of_app in Hin as [Hin | Hin]; auto.
Qed.

Lemma sound_app (evs before : list (event T)) (r : result unit) :
  sound evs r -> clean before -> sound (evs ++ before) r.
Proof.
  intros [Hc | (e & rest & -> & He & Hrest & ->)] Hb.
  - left. apply clean_app; assumption.
  - right. exists e, (rest ++ before).
    split_and!; [reflexivity | exact He | apply clean_app; assumption | reflexivity].
Qed.

Lemma sound_ok_clean (evs : list (event T)) (r : result unit) :
  sound evs r -> r <> Raise EzcaError -> clean evs.
Proof.
  intros [Hc | (e & rest & _ & _ & _ & ->)] Hr; [exact Hc | congruence].
Qed.

(** In a sound run a failed access has nothing after it. *)
Lemma sound_failure_last (evs : list (event T)) (r : result unit) :
  sound evs r ->
  forall after e before,
    evs = after ++ e :: before -> is_failure e = true ->
    after = [] /\ r = Raise EzcaError.
Proof.
  intros [Hc | (e0 & rest & -> & He0 & Hrest & ->)] after e before Heq He.
  - rewrite (Hc e) in He; [discriminate |].
    rewrite Heq. apply elem_of_app. right. apply elem_of_cons. left. reflexivity.
  - destruct after as [| a after']; [auto |].
    simpl in Heq. injection Heq as -> ->.
    rewrite (Hrest e) in He; [discriminate |].
    apply elem_of_app. right. apply elem_of_cons. left. reflexivity.
Qed.

Lemma brs_control_adds_sound (optics : string) (control_negated : bool)
    (threshold_lower threshold_upper n_grid : Z) :
  adds_sound (brs_control optics control_negated threshold_lower threshold_upper n_grid).
Proof.
  intros w.
  destruct (brs_control_cases optics control_negated threshold_lower threshold_upper
              n_grid w) as (new & r & pvs' & faults' & Hrun & Hcases).
  exists new, r, (World pvs' faults' (clock w) (sigint w) (files w) (new ++ events w)).
  split; [exact Hrun |]. split; [reflexivity |].
  assert (Hclean : forall l : list (event T),
            forallb (fun e => negb (is_failure e)) l = true -> clean l).
  { intros l Hl e Hin. rewrite forallb_forall in Hl.
    apply list_elem_of_In, Hl, negb_true_iff in Hin. exact Hin. }
  destruct Hcases as [(-> & -> & ->) | [(d & -> & -> & ->) | (d & c & _ & _ & Hm)]].
  - right. eexists _, _. split_and!; [reflexivity | reflexivity | | reflexivity].
    apply Hclean. reflexivity.
  - right. eexists _, _. split_and!; [reflexivity | reflexivity | | reflexivity].
    apply Hclean. reflexivity.
  - simpl in Hm.
    destruct (make_control_grid n_grid) as [control_grid | e |].
    2,3: destruct Hm as (-> & _ & _); left; apply Hclean; reflexivity.
    destruct (quantize _ _ _) as [control_next | e |].
    2,3: destruct Hm as (-> & _ & _); left; apply Hclean; reflexivity.
    destruct (n_neb _ _).
    + destruct Hm as ([] & -> & -> & _).
      * left. apply Hclean. reflexivity.
      * right. eexists _, _. split_and!; [reflexivity | reflexivity | | reflexivity].
        apply Hclean. reflexivity.
    + destruct Hm as (-> & _ & _). left. apply Hclean. reflexivity.
Qed.

(** The loop adds sound events when the scheduled function does. *)
Lemma schedule_loop_adds_sound (func : M T unit)
    (time_delta time_sleep_ : Q) (fuel : nat) :
  adds_sound func ->
  forall time_next, adds_sound (schedule_loop fuel func time_delta time_sleep_ time_next).
Proof.
  intros Hfunc.
  induction fuel as [| fuel IH]; intros time_next w.
  - exists [], Diverge, w. split_and!; [reflexivity | reflexivity |].
    left. apply clean_nil.
  - simpl. unfold bind at 1. unfold datetime_now at 1.
    (* what is left of an iteration once [time_next] is settled *)
    assert (Hrest : forall time_next' w1 new1,
              events w1 = new1 ++ events w -> clean new1 ->
              exists new r w',
                bind (time_sleep time_sleep_)
                     (fun _ => schedule_loop fuel func time_delta time_sleep_ time_next') w1
                = (r, w') /\
                events w' = new ++ events w /\ sound new r).
    { intros time_next' w1 new1 Hev1 Hc1.
      unfold bind, time_sleep.
      destruct (ExactQ.ltb time_sleep_ 0).
      { exists new1, (Raise ValueError), w1.
        split_and!; [reflexivity | exact Hev1 | left; exact Hc1]. }
      assert (Hgo : forall w2, events w2 = EvSleep time_sleep_ :: events w1 ->
                exists new r w',
                  schedule_loop fuel func time_delta time_sleep_ time_next' w2 = (r, w') /\
                  events w' = new ++ events w /\ sound new r).
      { intros w2 Hev2.
        destruct (IH time_next' w2) as (new & r & w' & Hrun & Hev & Hs).
        exists (new ++ EvSleep time_sleep_ :: new1), r, w'.
        split_and!; [exact Hrun | |].
        - rewrite Hev, Hev2, Hev1, <- app_assoc. reflexivity.
        - apply sound_app; [exact Hs |].
          apply clean_cons; [reflexivity | exact Hc1]. }
      destruct (sigint w1) as [t |]; [destruct (Qle_bool t _) |].
      - eexists new1, _, _.
        split_and!; [reflexivity | exact Hev1 | left; exact Hc1].
      - apply Hgo. reflexivity.
      - apply Hgo. reflexivity. }
    destruct (ExactQ.ltb time_next (clock w)).
    + unfold bind at 1. unfold bind at 1.
      destruct (Hfunc w) as (new1 & r1 & w1 & Hrun1 & Hev1 & Hs1).
      rewrite Hrun1.
      destruct r1 as [[] | e |].
      * unfold datetime_now, bind at 1, logger_info, bind at 1, ret.
        apply (Hrest _ _ (EvLog (LogNextRun (clock w1 + time_delta)%Q) :: new1)).
        -- simpl. rewrite Hev1. reflexivity.
        -- apply clean_cons; [reflexivity |].
           apply (sound_ok_clean _ _ Hs1). discriminate.
      * exists new1, (Raise e), w1. split_and!; [reflexivity | exact Hev1 | exact Hs1].
      * exists new1, Diverge, w1. split_and!; [reflexivity | exact Hev1 | exact Hs1].
    + unfold bind at 1, ret.
      apply (Hrest _ _ []); [reflexivity | apply clean_nil].
Qed.

Lemma schedule_run_adds_sound (func : M T unit) (start_now : bool)
    (interval_hour : Q) (fuel : nat) :
  adds_sound func -> adds_sound (schedule_run func start_now interval_hour fuel).
Proof.
  intros Hfunc w. unfold schedule_run.
  (* the part after the optional first call *)
  assert (Hrest : forall w1 new1,
            events w1 = new1 ++ events w -> clean new1 ->
            exists new r w',
              (let* time_now := datetime_now in
               let time_delta := (interval_hour * 3600)%Q in
               let time_next := (time_now + time_delta)%Q in
               let time_sleep_ := (interval_hour * 60 * 60 / 10)%Q in
               logger_info (LogNextRun time_next) ;;
               try_except_KeyboardInterrupt
                 (schedule_loop fuel func time_delta time_sleep_ time_next)
                 (logger_info LogInterrupted ;; exit)) w1 = (r, w') /\
              events w' = new ++ events w /\ sound new r).
  { intros w1 new1 Hev1 Hc1.
    unfold bind at 1, datetime_now at 1. unfold bind at 1, logger_info at 1.
    unfold try_except_KeyboardInterrupt.
    destruct (schedule_loop_adds_sound func (interval_hour * 3600)%Q
                (interval_hour * 60 * 60 / 10)%Q fuel Hfunc
                (clock w1 + interval_hour * 3600)%Q
                (emit (EvLog (LogNextRun (clock w1 + interval_hour * 3600)%Q)) w1))
      as (new & r & w' & Hrun & Hev & Hs).
    rewrite Hrun.
    assert (Hpre : clean (EvLog (LogNextRun (clock w1 + interval_hour * 3600)%Q) :: new1))
      by (apply clean_cons; [reflexivity | exact Hc1]).
    assert (Hdefault :
      exists new0 r0 w0, (r, w') = (r0, w0) /\ events w0 = new0 ++ events w /\
                         sound new0 r0).
    { exists (new ++ EvLog (LogNextRun (clock w1 + interval_hour * 3600)%Q) :: new1), r, w'.
      split_and!; [reflexivity | |].
      - rewrite Hev. simpl. rewrite Hev1, <- app_assoc. reflexivity.
      - apply sound_app; assumption. }
    destruct r as [[] | e |]; try exact Hdefault.
    destruct e; try exact Hdefault.
    (* KeyboardInterrupt: the handler logs and exits *)
    unfold bind, logger_info, exit, raise.
    eexists (EvLog LogInterrupted
             :: new ++ EvLog (LogNextRun (clock w1 + interval_hour * 3600)%Q) :: new1),
            _, _.
    split_and!; [reflexivity | |].
    - simpl. rewrite Hev. simpl. rewrite Hev1, <- app_assoc. reflexivity.
    - left. apply clean_cons; [reflexivity |].
      apply clean_app; [| exact Hpre].
      apply (sound_ok_clean _ _ Hs). discriminate. }
  unfold bind at 1.
  destruct start_now.
  - destruct (Hfunc w) as (new1 & r1 & w1 & Hrun1 & Hev1 & Hs1).
    rewrite Hrun1.
    destruct r1 as [[] | e |].
    + apply (Hrest w1 new1 Hev1). apply (sound_ok_clean _ _ Hs1). discriminate.
    + exists new1, (Raise e), w1. split_and!; [reflexivity | exact Hev1 | exact Hs1].
    + exists new1, Diverge, w1. split_and!; [reflexivity | exact Hev1 | exact Hs1].
  - unfold ret. apply (Hrest w []); [reflexivity | apply clean_nil].
Qed.

End Failures.

(** C8, amended. Whatever the cycle's arguments, the interval, the number
    of loop iterations considered, the state of the world and the
    arithmetic: in a run of [schedule_run] on [brs_control], a channel
    access that fails is the last thing that happens, and the run ends
    there with the exception of [ezca], which [schedule_run] does not
    catch.  No log line, no sleep and no later cycle follows it. *)
Theorem hardware_error_ends_schedule_run {T : Type} `{Numeric T} (optics : string)
    (control_negated : bool) (threshold_lower threshold_upper n_grid : Z)
    (start_now : bool) (interval_hour : Q) (fuel : nat) (w : world T) :
  exists new r w',
    schedule_run
      (brs_control optics control_negated threshold_lower threshold_upper n_grid)
      start_now interval_hour fuel w = (r, w') /\
    events w' = new ++ events w /\
    forall after e before,
      new = after ++ e :: before -> is_failure e = true ->
      after = [] /\ r = Raise EzcaError.
Proof.
  destruct (schedule_run_adds_sound
              (brs_control optics control_negated threshold_lower threshold_upper n_grid)
              start_now interval_hour fuel
              (brs_control_adds_sound optics control_negated threshold_lower
                 threshold_upper n_grid) w)
    as (new & r & w' & Hrun & Hev & Hs).
  exists new, r, w'. split_and!; [exact Hrun | exact Hev |].
  apply sound_failure_last, Hs.
Qed.

(** A 12-hour schedule followed for 40 passes of the loop.  Without a
    fault three cycles start and the loop is still running.  With a fault
    on the first channel access, the first cycle is the only one: its
    failed read ends the run. *)
Lemma failed_cycle_is_the_last :
  (exists w',
     schedule_run (brs_control "ITMX" false (-8192) 8192 64) false 12 40 (station [])
     = (Diverge, w') /\
     cycles_started (events w') = 3%nat) /\
  (exists w',
     schedule_run (brs_control "ITMX" false (-8192) 8192 64) false 12 40 (station [true])
     = (Raise EzcaError, w') /\
     cycles_started (events w') = 1%nat /\
     head (events w') = Some (EvRead "ISI-GND_BRS_ITMX_DRIFTMON" None)).
Proof.
  split.
  - eexists. split; [vm_compute; reflexivity |]. vm_compute. reflexivity.
  - eexists. split; [vm_compute; reflexivity |]. split; vm_compute; reflexivity.
Qed.

(** ** The command line *)

(** C9 (the script does otherwise). With neither a configuration path nor
    the request for a sample, the script raises [TypeError] from
    [os.path.splitext(None)]; it reports no usage error (which would be
    [SystemExit 2]), and leaves the world untouched. *)
Theorem main_without_config {T : Type} `{Numeric T} (fuel : nat) (w : world T) :
  main {| opts_config := None; opts_get_config := false |} fuel w
  = (Raise TypeError, w) /\
  fst (main {| opts_config := None; opts_get_config := false |} fuel w)
  <> Raise (SystemExit 2).
Proof.
  split; [reflexivity | discriminate].
Qed.

(** C10. [generate_sample_config] always writes [brs_control_sample.ini]
    with a section [Default] in which [threshold_lower] is 8192 and
    [threshold_upper] is -8192; read back by [read_brs_config] the lower
    threshold exceeds the upper one, so that with these thresholds no
    drift is ever held.  Asked for the sample, the script
    writes it and exits with status 0: it touches no channel and starts
    no cycle. *)
Theorem sample_config_thresholds {T : Type} `{Numeric T} (config_path : option string)
    (fuel : nat) (w : world T) :
  exists w' default c,
    generate_sample_config w = (Ok tt, w') /\
    files w' !! "brs_control_sample.ini" = Some [("Default", default)] /\
    Text.assoc "threshold_lower" default = Some "8192" /\
    Text.assoc "threshold_upper" default = Some "-8192" /\
    read_brs_config "brs_control_sample.ini" w' = (Ok c, w') /\
    cfg_threshold_lower c = Some 8192%Z /\
    cfg_threshold_upper c = Some (-8192)%Z /\
    (-8192 < 8192)%Z /\
    (forall m : Q, decide_direction m false 8192 (-8192) <> Hold) /\
    main {| opts_config := config_path; opts_get_config := true |} fuel w
    = (Raise (SystemExit 0), w') /\
    events w' = [EvFileWrite "brs_control_sample.ini";
                 EvLog (LogGenerating "brs_control_sample.ini")] ++ events w /\
    pvs w' = pvs w /\
    cycles_started (events w') = cycles_started (events w).
Proof.
  eexists _, _, _.
  split; [reflexivity |].
  split; [apply lookup_insert_eq |].
  split; [reflexivity |]. split; [reflexivity |].
  split.
  { unfold read_brs_config.
    cbv beta iota delta [files set_files emit]. rewrite lookup_insert_eq.
    vm_compute. reflexivity. }
  split; [reflexivity |]. split; [reflexivity |]. split; [lia |].
  split.
  { intros m. unfold decide_direction, threshold_branch, n_gtb. simpl.
    destruct (ExactQ.ltb (inject_Z (-8192)) m) eqn:Ehi; [discriminate |].
    apply Q_ltb_ge in Ehi.
    assert (Hlo : ExactQ.ltb m (inject_Z 8192) = true).
    { apply Q_ltb_lt. change (inject_Z (-8192)) with (-8192)%Q in Ehi.
      change (inject_Z 8192) with 8192%Q. lra. }
    rewrite Hlo. discriminate. }
  split; [reflexivity |]. split; [reflexivity |]. split; reflexivity.
Qed.

(** * Further properties of the two scripts *)

(** ** The walk in any arithmetic *)

Section WalkSafety.
Context {T : Type} `{Numeric T}.

(** The scan returns an index it has seen. *)
Lemma argmin_scan_bound (l : list T) (i : nat) (mp : T) (ind : nat) :
  (ind < i)%nat -> (argmin_scan l i mp ind < i + length l)%nat.
Proof.
  revert i mp ind. induction l as [| x l IH]; intros i mp ind Hind; simpl.
  - lia.
  - destruct (negb (n_geb x mp)).
    + destruct (is_nan x); [lia |].
      specialize (IH (S i) x i ltac:(lia)). lia.
    + specialize (IH (S i) mp ind ltac:(lia)). lia.
Qed.

Lemma argmin_in_range (l : list T) (k : nat) :
  argmin l = Ok k -> (k < length l)%nat.
Proof.
  destruct l as [| x l]; [discriminate |]. simpl. intros Hk. injection Hk as <-.
  destruct (is_nan x); [lia |].
  pose proof (argmin_scan_bound l 1 x 0 ltac:(lia)). lia.
Qed.

Lemma while_increment_in_range (control_grid : list T) (control : T) (fuel i : nat) :
  (i < length control_grid)%nat ->
  (length control_grid - 1 - i <= fuel)%nat ->
  exists k, while_increment fuel control_grid control i = Ok k /\
            (i <= k < length control_grid)%nat.
Proof.
  revert i. induction fuel as [| fuel IH]; intros i Hi Hfuel.
  - exists i. simpl.
    destruct (Z.ltb_spec (Z.of_nat i) (Z.of_nat (length control_grid) - 1)); [lia |].
    split; [reflexivity | lia].
  - destruct (lookup_lt_is_Some_2 control_grid i Hi) as [g Hg].
    simpl.
    destruct (Z.ltb_spec (Z.of_nat i) (Z.of_nat (length control_grid) - 1)) as [Hlt | Hge].
    + unfold getitem. rewrite Hg. simpl.
      destruct (n_leb g control).
      * destruct (IH (S i)) as (k & Hk & Hik); [lia.. |].
        exists k. split; [exact Hk | lia].
      * exists i. split; [reflexivity | lia].
    + exists i. split; [reflexivity | lia].
Qed.

Lemma while_decrement_in_range (control_grid : list T) (control : T) (fuel i : nat) :
  (i < length control_grid)%nat -> (i <= fuel)%nat ->
  exists k, while_decrement fuel control_grid control i = Ok k /\ (k <= i)%nat.
Proof.
  revert i. induction fuel as [| fuel IH]; intros i Hi Hfuel.
  - assert (i = 0%nat) as -> by lia. exists 0%nat. split; [reflexivity | lia].
  - destruct (lookup_lt_is_Some_2 control_grid i Hi) as [g Hg].
    simpl. destruct i as [| i'].
    + exists 0%nat. split; [reflexivity | lia].
    + simpl. unfold getitem. rewrite Hg. simpl.
      destruct (n_geb g control).
      * destruct (IH i') as (k & Hk & Hik); [lia.. |].
        exists k. split; [exact Hk | lia].
      * exists (S i'). split; [reflexivity | lia].
Qed.

(** The result of a walk up or down is taken from the grid. *)
Lemma quantize_moves_onto_grid (control_grid : list T) (control : T) (up : bool) :
  control_grid <> [] ->
  exists r, quantize control_grid control (Some up) = Ok r /\ r ∈ control_grid.
Proof.
  intros Hne. unfold quantize.
  destruct (argmin_nonempty ((fun g => n_abs (n_sub g control)) <$> control_grid))
    as [i Hi].
  { destruct control_grid; [congruence | discriminate]. }
  rewrite Hi. simpl.
  pose proof (argmin_in_range _ _ Hi) as Hlen. rewrite length_fmap in Hlen.
  destruct up.
  - destruct (while_increment_in_range control_grid control (length control_grid) i)
      as (k & Hk & Hik); [lia.. |].
    rewrite Hk. simpl.
    destruct (lookup_lt_is_Some_2 control_grid k) as [r Hr]; [lia |].
    exists r. unfold getitem. rewrite Hr.
    split; [reflexivity | eapply list_elem_of_lookup_2, Hr].
  - destruct (while_decrement_in_range control_grid control (length control_grid) i)
      as (k & Hk & Hik); [lia.. |].
    rewrite Hk. simpl.
    destruct (lookup_lt_is_Some_2 control_grid k) as [r Hr]; [lia |].
    exists r. unfold getitem. rewrite Hr.
    split; [reflexivity | eapply list_elem_of_lookup_2, Hr].
Qed.

End WalkSafety.

(** X1. In any arithmetic (binary64 with its nan included) and on any
    non-empty grid, the walk of lines 179-197 ends within the length of
    the grid, never indexes outside the grid, and returns a value: the
    current value when holding, a value of the grid when increasing or
    decreasing. *)
Theorem quantize_ends_on_grid {T : Type} `{Numeric T} (control_grid : list T) (control : T)
    (direction : option bool) :
  control_grid <> [] ->
  exists r,
    quantize control_grid control direction = Ok r /\
    match direction with
    | Some _ => r ∈ control_grid
    | None => r = control
    end.
Proof.
  intros Hne. destruct direction as [up |].
  - apply quantize_moves_onto_grid, Hne.
  - exists control. split; [apply quantize_hold_eq, Hne | reflexivity].
Qed.

Lemma quantize_ends_on_grid_witness :
  [0; 5.77; 8.16; 10]%float <> [] /\
  exists r, quantize [0; 5.77; 8.16; 10]%float PrimFloat.nan Increase = Ok r /\
            r ∈ [0; 5.77; 8.16; 10]%float.
Proof.
  assert (Hne : [0; 5.77; 8.16; 10]%float <> []) by discriminate.
  split; [exact Hne |].
  apply (quantize_ends_on_grid [0; 5.77; 8.16; 10]%float PrimFloat.nan Increase Hne).
Defined.

(** ** One grid value at a time *)

Section Steps.
Local Open Scope Q_scope.

(** From the grid value of index [j], increasing goes to the value of the
    next index, or stays on the last one. *)
Lemma quantize_increase_from_grid (control_grid : list Q) (j : nat) (v : Q) :
  strictly_increasing control_grid -> control_grid !! j = Some v ->
  exists r,
    quantize control_grid v Increase = Ok r /\
    control_grid !! Nat.min (S j) (length control_grid - 1) = Some r.
Proof.
  intros Hs Hj.
  assert (Hne : control_grid <> []) by (intros ->; rewrite lookup_nil in Hj; discriminate).
  pose proof (lookup_lt_Some _ _ _ Hj) as Hjlen.
  destruct (quantize_increase_spec control_grid v Hne Hs)
    as (k & r & Hq & Hr & Hbelow & Hend).
  pose proof (lookup_lt_Some _ _ _ Hr) as Hklen.
  exists r. split; [exact Hq |].
  assert (Hk : k = Nat.min (S j) (length control_grid - 1)); [| rewrite <- Hk; exact Hr].
  assert (Hkj : (j < k)%nat \/ k = (length control_grid - 1)%nat).
  { destruct Hend as [Hlt | Hlast]; [left | right; exact Hlast].
    destruct (decide (j < k)%nat) as [Hjk | Hjk]; [exact Hjk | exfalso].
    pose proof (strictly_increasing_le control_grid k j r v Hs Hr Hj ltac:(lia)). lra. }
  destruct (decide (S j < k)%nat) as [Hfar | Hnear]; [exfalso | lia].
  destruct (lookup_lt_is_Some_2 control_grid (S j) ltac:(lia)) as [x Hx].
  pose proof (Hbelow (S j) x Hfar Hx).
  pose proof (Hs j (S j) v x Hj Hx ltac:(lia)). lra.
Qed.

(** From the grid value of index [j], decreasing goes to the value of the
    index before, or stays on the first one. *)
Lemma quantize_decrease_from_grid (control_grid : list Q) (j : nat) (v : Q) :
  strictly_increasing control_grid -> control_grid !! j = Some v ->
  exists r,
    quantize control_grid v Decrease = Ok r /\
    control_grid !! Nat.pred j = Some r.
Proof.
  intros Hs Hj.
  assert (Hne : control_grid <> []) by (intros ->; rewrite lookup_nil in Hj; discriminate).
  pose proof (lookup_lt_Some _ _ _ Hj) as Hjlen.
  destruct (quantize_decrease_spec control_grid v Hne Hs)
    as (k & r & Hq & Hr & Habove & Hend).
  exists r. split; [exact Hq |].
  assert (Hk : k = Nat.pred j); [| rewrite <- Hk; exact Hr].
  assert (Hkj : (k < j)%nat \/ k = 0%nat).
  { destruct Hend as [Hlt | Hfirst]; [left | right; exact Hfirst].
    destruct (decide (k < j)%nat) as [Hjk | Hjk]; [exact Hjk | exfalso].
    pose proof (strictly_increasing_le control_grid j k v r Hs Hj Hr ltac:(lia)). lra. }
  destruct (decide (k < Nat.pred j)%nat) as [Hfar | Hnear]; [exfalso | lia].
  destruct (lookup_lt_is_Some_2 control_grid (Nat.pred j) ltac:(lia)) as [x Hx].
  pose proof (Habove (Nat.pred j) x Hfar Hx).
  pose proof (Hs (Nat.pred j) j x v Hx Hj ltac:(lia)). lra.
Qed.

(** [m] increases from the grid value of index [j] end on index
    [j + m], or on the last index. *)
Lemma quantize_repeat_increase_from_grid (control_grid : list Q) (m j : nat) (v : Q) :
  strictly_increasing control_grid -> control_grid !! j = Some v ->
  exists r,
    quantize_repeat m control_grid v Increase = Ok r /\
    control_grid !! Nat.min (j + m) (length control_grid - 1) = Some r.
Proof.
  intros Hs. revert j v. induction m as [| m IH]; intros j v Hj.
  - pose proof (lookup_lt_Some _ _ _ Hj).
    exists v. split; [reflexivity |].
    replace (Nat.min (j + 0) (length control_grid - 1)) with j by lia. exact Hj.
  - destruct (quantize_increase_from_grid control_grid j v Hs Hj) as (r1 & Hq1 & Hr1).
    destruct (IH _ r1 Hr1) as (r & Hq & Hr).
    exists r. simpl. rewrite Hq1. simpl. split; [exact Hq |].
    replace (Nat.min (j + S m) (length control_grid - 1))
      with (Nat.min (Nat.min (S j) (length control_grid - 1) + m) (length control_grid - 1))
      by lia.
    exact Hr.
Qed.

(** [m] decreases from the grid value of index [j] end on index
    [j - m], or on the first index. *)
Lemma quantize_repeat_decrease_from_grid (control_grid : list Q) (m j : nat) (v : Q) :
  strictly_increasing control_grid -> control_grid !! j = Some v ->
  exists r,
    quantize_repeat m control_grid v Decrease = Ok r /\
    control_grid !! (j - m)%nat = Some r.
Proof.
  intros Hs. revert j v. induction m as [| m IH]; intros j v Hj.
  - exists v. split; [reflexivity |].
    replace (j - 0)%nat with j by lia. exact Hj.
  - destruct (quantize_decrease_from_grid control_grid j v Hs Hj) as (r1 & Hq1 & Hr1).
    destruct (IH _ r1 Hr1) as (r & Hq & Hr).
    exists r. simpl. rewrite Hq1. simpl. split; [exact Hq |].
    replace (j - S m)%nat with (Nat.pred j - m)%nat by lia.
    exact Hr.
Qed.

End Steps.

(** X2. On a strictly increasing grid, in exact arithmetic, a cycle that
    starts on a grid value moves by exactly one grid value: increasing
    from index [j] gives the value of index [j + 1], decreasing the value
    of index [j - 1]; on the last, respectively the first, index the value
    stays (no wrap-around). *)
Theorem quantize_steps_to_neighbour (control_grid : list Q) (j : nat) (v : Q) :
  strictly_increasing control_grid -> control_grid !! j = Some v ->
  (exists up, quantize control_grid v Increase = Ok up /\
              control_grid !! Nat.min (S j) (length control_grid - 1) = Some up) /\
  (exists down, quantize control_grid v Decrease = Ok down /\
                control_grid !! Nat.pred j = Some down).
Proof.
  intros Hs Hj. split.
  - apply quantize_increase_from_grid; assumption.
  - apply quantize_decrease_from_grid; assumption.
Qed.

Lemma quantize_steps_to_neighbour_witness :
  strictly_increasing [0; 5.77; 8.16; 10]%Q /\
  [0; 5.77; 8.16; 10]%Q !! 1%nat = Some 5.77%Q /\
  exists up, quantize [0; 5.77; 8.16; 10]%Q 5.77%Q Increase = Ok up /\
             [0; 5.77; 8.16; 10]%Q !! 2%nat = Some up.
Proof.
  assert (Hs : strictly_increasing [0; 5.77; 8.16; 10]%Q)
    by (apply ascending_b_strictly_increasing; reflexivity).
  assert (Hj : [0; 5.77; 8.16; 10]%Q !! 1%nat = Some 5.77%Q) by reflexivity.
  split; [exact Hs |]. split; [exact Hj |].
  destruct (quantize_steps_to_neighbour _ _ _ Hs Hj) as [(up & Hq & Hup) _].
  exists up. split; [exact Hq | exact Hup].
Defined.

(** X3. On a non-empty, strictly increasing grid, in exact arithmetic,
    as many successive increases as the grid has values end on the
    greatest grid value, and as many successive decreases on the least
    one, from whatever current value they start: repeated cycles in one
    direction drive the control value to the end of the grid and keep it
    there. *)
Theorem quantize_repeat_reaches_end (control_grid : list Q) (v : Q) :
  control_grid <> [] -> strictly_increasing control_grid ->
  (exists top,
     quantize_repeat (length control_grid) control_grid v Increase = Ok top /\
     top ∈ control_grid /\ (forall g, g ∈ control_grid -> (g <= top)%Q) /\
     quantize control_grid top Increase = Ok top) /\
  (exists bottom,
     quantize_repeat (length control_grid) control_grid v Decrease = Ok bottom /\
     bottom ∈ control_grid /\ (forall g, g ∈ control_grid -> (bottom <= g)%Q) /\
     quantize control_grid bottom Decrease = Ok bottom).
Proof.
  intros Hne Hs. split.
  - destruct (quantize_increase_spec control_grid v Hne Hs) as (k & r1 & Hq1 & Hr1 & _).
    pose proof (lookup_lt_Some _ _ _ Hr1) as Hk.
    destruct (length control_grid) as [| n] eqn:Hlen; [lia |].
    destruct (quantize_repeat_increase_from_grid control_grid n k r1 Hs Hr1)
      as (top & Hq & Htop).
    rewrite Hlen in Htop.
    replace (Nat.min (k + n) (S n - 1)) with n in Htop by lia.
    exists top. simpl. rewrite Hq1. simpl.
    split_and!; [exact Hq | eapply list_elem_of_lookup_2, Htop | |].
    + intros g Hin. apply list_elem_of_lookup in Hin as [i Hi].
      pose proof (lookup_lt_Some _ _ _ Hi).
      apply (strictly_increasing_le control_grid i n); [assumption.. | lia].
    + destruct (quantize_increase_from_grid control_grid n top Hs Htop) as (r & Hr & Hlook).
      rewrite Hlen in Hlook.
      replace (Nat.min (S n) (S n - 1)) with n in Hlook by lia.
      rewrite Hr. congruence.
  - destruct (quantize_decrease_spec control_grid v Hne Hs) as (k & r1 & Hq1 & Hr1 & _).
    pose proof (lookup_lt_Some _ _ _ Hr1) as Hk.
    destruct (length control_grid) as [| n] eqn:Hlen; [lia |].
    destruct (quantize_repeat_decrease_from_grid control_grid n k r1 Hs Hr1)
      as (bottom & Hq & Hbottom).
    replace (k - n)%nat with 0%nat in Hbottom by lia.
    exists bottom. simpl. rewrite Hq1. simpl.
    split_and!; [exact Hq | eapply list_elem_of_lookup_2, Hbottom | |].
    + intros g Hin. apply list_elem_of_lookup in Hin as [i Hi].
      apply (strictly_increasing_le control_grid 0 i); [assumption.. | lia].
    + destruct (quantize_decrease_from_grid control_grid 0 bottom Hs Hbottom)
        as (r & Hr & Hlook).
      simpl in Hlook. rewrite Hr. congruence.
Qed.

Lemma quantize_repeat_reaches_end_witness :
  [0; 5.77; 8.16; 10]%Q <> [] /\ strictly_increasing [0; 5.77; 8.16; 10]%Q /\
  exists top, quantize_repeat 4 [0; 5.77; 8.16; 10]%Q (-3)%Q Increase = Ok top.
Proof.
  assert (Hne : [0; 5.77; 8.16; 10]%Q <> []) by discriminate.
  assert (Hs : strictly_increasing [0; 5.77; 8.16; 10]%Q)
    by (apply ascending_b_strictly_increasing; reflexivity).
  split; [exact Hne |]. split; [exact Hs |].
  destruct (quantize_repeat_reaches_end _ (-3)%Q Hne Hs) as [(top & Hq & _) _].
  exists top. exact Hq.
Defined.

(** ** The range of the grid *)

Section GridRange.
Local Open Scope Q_scope.

Lemma rint_sqrt_ratio_0 (b : Z) : (0 < b)%Z -> rint_sqrt_ratio 0 b = 0%Z.
Proof.
  intros Hb. unfold rint_sqrt_ratio.
  rewrite Z.div_0_l by lia. change (Z.sqrt 0) with 0%Z.
  destruct (Z.compare_spec (4 * 0) ((2 * 0 + 1) * (2 * 0 + 1) * b)); [lia | reflexivity | lia].
Qed.

Lemma rint_sqrt_ratio_top (b : Z) : (0 < b)%Z -> rint_sqrt_ratio (1000000 * b) b = 1000%Z.
Proof.
  intros Hb. unfold rint_sqrt_ratio.
  rewrite Z.div_mul by lia. change (Z.sqrt 1000000) with 1000%Z.
  destruct (Z.compare_spec (4 * (1000000 * b)) ((2 * 1000 + 1) * (2 * 1000 + 1) * b));
    [lia | reflexivity | lia].
Qed.

(** The grid of one value is [[0]]. *)
Lemma make_control_grid_1 : make_control_grid (T:=Q) 1 = Ok [0 # 100].
Proof. reflexivity. Qed.

(** The grid of two values or more starts at 0 and ends at 10. *)
Lemma exact_grid_ends (n : Z) :
  (2 <= n)%Z ->
  exists g : list Q,
    make_control_grid n = Ok g /\ length g = Z.to_nat n /\ weakly_increasing g /\
    g !! 0%nat = Some (0 # 100) /\ g !! (Z.to_nat n - 1)%nat = Some (1000 # 100).
Proof.
  intros Hn.
  destruct (exact_grid_weakly_increasing n Hn) as (g & Hg & Hlen & Hw).
  exists g. split_and!; [exact Hg | exact Hlen | exact Hw | |].
  - rewrite (exact_grid_hundredths n Hn) in Hg. injection Hg as <-.
    unfold exact_hundredths. rewrite !list_lookup_fmap, lookup_seq_lt by lia.
    simpl. rewrite rint_sqrt_ratio_0 by lia. reflexivity.
  - rewrite (exact_grid_hundredths n Hn) in Hg. injection Hg as <-.
    unfold exact_hundredths. rewrite !list_lookup_fmap, lookup_seq_lt by lia.
    simpl. replace (Z.of_nat (Z.to_nat n - 1)) with (n - 1)%Z by lia.
    rewrite rint_sqrt_ratio_top by lia. reflexivity.
Qed.

(** Every value of every grid lies between 0 and 10. *)
Lemma exact_grid_bounds (n : Z) (g : list Q) (x : Q) :
  make_control_grid n = Ok g -> x ∈ g -> 0 <= x <= 10.
Proof.
  intros Hg Hx.
  destruct (Z.lt_ge_cases n 2) as [Hsmall | Hn].
  - destruct (Z.lt_ge_cases n 0) as [Hneg | Hpos].
    { unfold make_control_grid, linspace in Hg.
      destruct (Z.ltb_spec n 0); [discriminate | lia]. }
    assert (Hcases : n = 0%Z \/ n = 1%Z) by lia.
    destruct Hcases as [-> | ->].
    + vm_compute in Hg. injection Hg as <-. apply elem_of_nil in Hx. destruct Hx.
    + rewrite make_control_grid_1 in Hg. injection Hg as <-.
      apply list_elem_of_singleton in Hx. subst x. split; unfold Qle; simpl; lia.
  - destruct (exact_grid_ends n Hn) as (g' & Hg' & Hlen & Hw & H0 & Hlast).
    rewrite Hg in Hg'. injection Hg' as <-.
    apply list_elem_of_lookup in Hx as [i Hi].
    pose proof (lookup_lt_Some _ _ _ Hi) as Hil.
    pose proof (Hw 0%nat i _ _ H0 Hi ltac:(lia)) as Hlo.
    pose proof (Hw i (Z.to_nat n - 1)%nat _ _ Hi Hlast ltac:(lia)) as Hhi.
    split.
    + eapply Qle_trans; [| exact Hlo]. unfold Qle; simpl; lia.
    + eapply Qle_trans; [exact Hhi |]. unfold Qle; simpl; lia.
Qed.

End GridRange.

(** X4. In exact arithmetic, the control grid of line 148 for a size of
    two or more has that many values, starts at 0 and ends at 10, and all
    its values lie between 0 and 10. *)
Theorem control_grid_range (n_grid : Z) :
  (2 <= n_grid)%Z ->
  exists g : list Q,
    make_control_grid n_grid = Ok g /\ length g = Z.to_nat n_grid /\
    (exists first, head g = Some first /\ first == 0)%Q /\
    (exists final, last g = Some final /\ final == 10)%Q /\
    forall x, x ∈ g -> (0 <= x <= 10)%Q.
Proof.
  intros Hn.
  destruct (exact_grid_ends n_grid Hn) as (g & Hg & Hlen & _ & H0 & Hlast).
  exists g. split_and!; [exact Hg | exact Hlen | | |].
  - exists (0 # 100). split; [| reflexivity].
    rewrite <- H0. apply head_lookup.
  - exists (1000 # 100). split; [| reflexivity].
    rewrite last_lookup, <- Hlast. f_equal. lia.
  - intros x Hx. exact (exact_grid_bounds n_grid g x Hg Hx).
Qed.

Lemma control_grid_range_witness :
  (2 <= 64)%Z /\
  exists g : list Q, make_control_grid 64 = Ok g /\ length g = 64%nat /\
    forall x, x ∈ g -> (0 <= x <= 10)%Q.
Proof.
  split; [lia |].
  destruct (control_grid_range 64 ltac:(lia)) as (g & Hg & Hlen & _ & _ & Hb).
  exists g. split_and!; [exact Hg | exact Hlen | exact Hb].
Defined.

(** ** What a cycle can end with *)

Section CycleOutcome.
Context {T : Type} `{Numeric T}.

Lemma make_control_grid_negative (n_grid : Z) :
  (n_grid < 0)%Z -> make_control_grid (T:=T) n_grid = Raise ValueError.
Proof.
  intros Hn. unfold make_control_grid, linspace.
  destruct (Z.ltb_spec n_grid 0); [reflexivity | lia].
Qed.

Lemma make_control_grid_length (n_grid : Z) :
  (0 <= n_grid)%Z ->
  exists g : list T, make_control_grid n_grid = Ok g /\ length g = Z.to_nat n_grid.
Proof.
  intros Hn. unfold make_control_grid, linspace.
  destruct (Z.ltb_spec n_grid 0); [lia |]. simpl.
  eexists. split; [reflexivity |].
  rewrite length_fmap.
  destruct (1 <? n_grid)%Z; [rewrite length_insert |];
    rewrite length_fmap;
    (destruct (0 <? n_grid - 1)%Z; [destruct (n_eqb _ _) |]);
    rewrite !length_fmap, length_seq; reflexivity.
Qed.

(** The walk ends with a value, or with [ValueError] on the empty grid. *)
Lemma quantize_outcome (control_grid : list T) (control : T) (direction : option bool) :
  (control_grid = [] /\ quantize control_grid control direction = Raise ValueError) \/
  (control_grid <> [] /\
   exists v, quantize control_grid control direction = Ok v /\
             match direction with Some _ => v ∈ control_grid | None => v = control end).
Proof.
  destruct control_grid as [| g0 gs] eqn:Hg.
  - left. split; reflexivity.
  - right. split; [discriminate |]. rewrite <- Hg.
    assert (Hne : control_grid <> []) by (rewrite Hg; discriminate).
    destruct direction as [up |].
    + apply quantize_moves_onto_grid, Hne.
    + exists control. split; [apply quantize_hold_eq, Hne | reflexivity].
Qed.

(** Every way a cycle can end: the events it adds begin with the
    "Starting" line, the only one of the cycle, and hold no sleep; the
    clock and the pending interrupt are left alone; the result is a
    normal return, the exception of a channel access or, with no grid
    value at all, [ValueError]. *)
Lemma brs_control_outcome (optics : string) (control_negated : bool)
    (threshold_lower threshold_upper n_grid : Z) (w : world T) :
  exists rest r pvs' faults',
    brs_control optics control_negated threshold_lower threshold_upper n_grid w
    = (r, World pvs' faults' (clock w) (sigint w) (files w)
            ((rest ++ [EvLog (LogStarting (clock w))]) ++ events w)) /\
    (forall e, e ∈ rest -> start_time e = None /\ forall s, e <> EvSleep s) /\
    (r = Ok tt \/ r = Raise EzcaError \/ (r = Raise ValueError /\ (n_grid <= 0)%Z)) /\
    (r = Raise EzcaError -> exists e, e ∈ rest /\ is_failure e = true) /\
    ((n_grid <= 0)%Z -> r <> Ok tt /\ no_write rest /\ pvs' = pvs w).
Proof.
  destruct (brs_control_cases optics control_negated threshold_lower threshold_upper
              n_grid w) as (new & r & pvs' & faults' & Hrun & Hcases).
  assert (Hrest : forall l : list (event T),
            forallb (fun e => match e with
                              | EvLog (LogStarting _) | EvSleep _ => false
                              | _ => true end) l = true ->
            forall e, e ∈ l -> start_time e = None /\ forall s, e <> EvSleep s).
  { intros l Hl e Hin. rewrite forallb_forall in Hl.
    apply list_elem_of_In, Hl in Hin.
    destruct e as [[] | | | | |]; try discriminate; split; try reflexivity; discriminate. }
  assert (Hnw : forall l : list (event T),
            forallb (fun e => match e with EvWrite _ _ _ => false | _ => true end) l = true ->
            no_write l).
  { intros l Hl channel value ok Hin. rewrite forallb_forall in Hl.
    apply list_elem_of_In, Hl in Hin. discriminate. }
  destruct Hcases as [(-> & -> & ->) | [(d & -> & -> & ->) | (d & c & _ & _ & Hm)]].
  - eexists [_], _, _, _. split; [exact Hrun |].
    split_and!; [apply Hrest; reflexivity | auto | |].
    { intros _. eexists. split; [apply elem_of_cons; left; reflexivity | reflexivity]. }
    intros _. split_and!; [discriminate | apply Hnw; reflexivity | reflexivity].
  - eexists [_; _], _, _, _. split; [exact Hrun |].
    split_and!; [apply Hrest; reflexivity | auto | |].
    { intros _. eexists. split; [apply elem_of_cons; left; reflexivity | reflexivity]. }
    intros _. split_and!; [discriminate | apply Hnw; reflexivity | reflexivity].
  - simpl in Hm.
    destruct (Z.lt_ge_cases n_grid 0) as [Hneg | Hpos].
    { rewrite (make_control_grid_negative n_grid Hneg) in Hm.
      destruct Hm as (-> & -> & ->).
      eexists [_; _], _, _, _. split; [exact Hrun |].
      split_and!; [apply Hrest; reflexivity | right; right; split; [reflexivity | lia]
                  | discriminate |].
      intros _. split_and!; [discriminate | apply Hnw; reflexivity | reflexivity]. }
    destruct (make_control_grid_length n_grid Hpos) as (control_grid & Hg & Hlen).
    rewrite Hg in Hm.
    destruct (quantize_outcome control_grid (np_round2 c)
                (decide_direction (np_round2 d) control_negated
                   threshold_lower threshold_upper))
      as [[Hempty Hq] | [Hne (v & Hq & _)]]; rewrite Hq in Hm.
    + destruct Hm as (-> & -> & ->).
      assert (Hz : (n_grid <= 0)%Z).
      { subst control_grid. simpl in Hlen. lia. }
      eexists [_; _; _; _], _, _, _. split; [exact Hrun |].
      split_and!; [| right; right; split; [reflexivity | exact Hz] | discriminate |].
      * apply Hrest. simpl.
        destruct (threshold_branch _ _ _ _) as [[] ?] eqn:Hb;
          unfold threshold_branch in Hb;
          repeat match type of Hb with
                 | context [if ?b then _ else _] => destruct b
                 end; try discriminate; reflexivity.
      * intros _. split_and!; [discriminate | apply Hnw; reflexivity | reflexivity].
    + assert (Hz : ~ (n_grid <= 0)%Z).
      { intros Hz. apply Hne. apply length_zero_iff_nil. lia. }
      assert (Hline : forall l : log_line T,
                l = fst (threshold_branch (np_round2 d) control_negated
                           threshold_lower threshold_upper) ->
                match l with LogStarting _ => false | _ => true end = true).
      { intros l ->. unfold threshold_branch.
        repeat match goal with
               | |- context [if ?b then _ else _] => destruct b
               end; reflexivity. }
      destruct (n_neb (np_round2 c) v).
      * destruct Hm as (ok & -> & -> & ->).
        eexists [_; _; _; _; _; _], _, _, _. split; [exact Hrun |].
        split_and!; [| destruct ok; auto | | intros Hle; destruct (Hz Hle)].
        2:{ destruct ok; [discriminate |]. intros _.
            eexists. split; [apply elem_of_cons; left; reflexivity | reflexivity]. }
        apply Hrest. simpl. rewrite andb_true_r.
        specialize (Hline _ eq_refl).
        destruct (fst _); first [discriminate Hline | reflexivity].
      * destruct Hm as (-> & -> & ->).
        eexists [_; _; _; _; _], _, _, _. split; [exact Hrun |].
        split_and!; [| auto | discriminate | intros Hle; destruct (Hz Hle)].
        apply Hrest. simpl. rewrite andb_true_r.
        specialize (Hline _ eq_refl).
        destruct (fst _); first [discriminate Hline | reflexivity].
Qed.

End CycleOutcome.

(** X5. Whatever the arguments, the state of the channels and the
    arithmetic, a cycle ends: with a normal return, with the exception of
    [ezca], exactly when a channel access failed, or with [ValueError],
    exactly when no access failed and [n_grid] is zero or negative (the
    grid is empty, or [np.linspace] refuses the size).  The walk never
    indexes outside the grid.  With such an [n_grid] the cycle never
    returns normally, writes nothing and leaves the channels as they
    were. *)
Theorem cycle_result {T : Type} `{Numeric T} (optics : string) (control_negated : bool)
    (threshold_lower threshold_upper n_grid : Z) (w : world T) :
  exists new r w',
    brs_control optics control_negated threshold_lower threshold_upper n_grid w
    = (r, w') /\
    events w' = new ++ events w /\
    (r = Ok tt \/ r = Raise EzcaError \/ r = Raise ValueError) /\
    (r = Raise EzcaError <-> exists e, e ∈ new /\ is_failure e = true) /\
    (r = Raise ValueError <-> (n_grid <= 0)%Z /\ clean new) /\
    ((n_grid <= 0)%Z -> r <> Ok tt /\ no_write new /\ pvs w' = pvs w).
Proof.
  destruct (brs_control_outcome optics control_negated threshold_lower threshold_upper
              n_grid w)
    as (rest & r & pvs' & faults' & Hrun & Hrest & Hr & Hfail & Hbad).
  destruct (brs_control_adds_sound optics control_negated threshold_lower threshold_upper
              n_grid w) as (new0 & r0 & w0 & Hrun0 & Hev0 & Hsound).
  rewrite Hrun in Hrun0. injection Hrun0 as <- <-. simpl in Hev0.
  apply app_inv_tail in Hev0. subst new0.
  eexists _, r, _. split; [exact Hrun |]. split; [reflexivity |]. simpl.
  assert (Hezca : r = Raise EzcaError <->
                  exists e, e ∈ rest ++ [EvLog (LogStarting (clock w))] /\
                            is_failure e = true).
  { split.
    - intros Hre. destruct (Hfail Hre) as (e & Hin & He).
      exists e. split; [apply elem_of_app; left; exact Hin | exact He].
    - intros (e & Hin & He).
      destruct Hsound as [Hc | (e0 & rest0 & _ & _ & _ & Hre)]; [| exact Hre].
      rewrite (Hc e Hin) in He. discriminate. }
  split_and!.
  - destruct Hr as [Hr | [Hr | [Hr _]]]; auto.
  - exact Hezca.
  - split.
    + intros Hre. destruct Hr as [Hr | [Hr | [_ Hn]]]; [congruence.. |].
      split; [exact Hn |].
      apply (sound_ok_clean _ _ Hsound). congruence.
    + intros [Hn Hc]. destruct (Hbad Hn) as (Hnok & _).
      destruct Hr as [Hr | [Hr | [Hr _]]]; [congruence | | exact Hr].
      apply Hezca in Hr as (e & Hin & He). rewrite (Hc e Hin) in He. discriminate.
  - intros Hn. destruct (Hbad Hn) as (Hnok & Hnw & Hpvs).
    split_and!; [exact Hnok | | exact Hpvs].
    intros channel value ok Hin. apply elem_of_app in Hin as [Hin | Hin].
    + exact (Hnw _ _ _ Hin).
    + apply list_elem_of_singleton in Hin. discriminate.
Qed.

(** ** A cycle on a healthy station *)

Lemma fault_free_head (n : nat) (fl : list bool) :
  fault_free (S n) fl -> default false (head fl) = false /\ fault_free n (tail fl).
Proof.
  intros Hff. split.
  - destruct fl as [| [] fl']; [reflexivity | | reflexivity].
    destruct (Hff 0%nat ltac:(lia)). reflexivity.
  - intros k Hk. destruct fl as [| b fl']; [simpl; discriminate |].
    simpl. apply (Hff (S k)). lia.
Qed.

Section Healthy.
Context {T : Type} `{Numeric T}.

(** Both reads succeed and the next value equals the current one. *)
Lemma brs_control_stays (optics : string) (control_negated : bool)
    (threshold_lower threshold_upper n_grid : Z) (w : world T)
    (d c v : T) (control_grid : list T) :
  pvs w !! channel_drift optics = Some d ->
  pvs w !! channel_control optics = Some c ->
  fault_free 2 (faults w) ->
  make_control_grid n_grid = Ok control_grid ->
  quantize control_grid (np_round2 c)
    (decide_direction (np_round2 d) control_negated threshold_lower threshold_upper)
  = Ok v ->
  n_neb (np_round2 c) v = false ->
  brs_control optics control_negated threshold_lower threshold_upper n_grid w
  = (Ok tt,
     World (pvs w) (tail (tail (faults w))) (clock w) (sigint w) (files w)
       (EvLog LogDoingNothing
        :: cycle_prelude optics control_negated threshold_lower threshold_upper d c (clock w)
        ++ events w)).
Proof.
  intros Hd Hc Hff Hg Hq Hneq.
  destruct (fault_free_head _ _ Hff) as [Hf1 Hff1].
  destruct (fault_free_head _ _ Hff1) as [Hf2 _].
  destruct w as [pv fl ck sg fi ev]. simpl in *.
  unfold brs_control, bind, datetime_now, logger_info, lift, ezca_read, next_fault.
  simpl. rewrite Hf1. simpl. rewrite Hd. simpl. rewrite Hf2. simpl. rewrite Hc. simpl.
  rewrite Hg. simpl.
  unfold decide_direction in Hq.
  destruct (threshold_branch (np_round2 d) control_negated
              threshold_lower threshold_upper) as [line dir] eqn:Hb.
  simpl in Hq. simpl. rewrite Hq. simpl. rewrite Hneq. reflexivity.
Qed.

(** Both reads succeed, the next value differs from the current one and
    the write succeeds. *)
Lemma brs_control_moves (optics : string) (control_negated : bool)
    (threshold_lower threshold_upper n_grid : Z) (w : world T)
    (d c v : T) (control_grid : list T) :
  pvs w !! channel_drift optics = Some d ->
  pvs w !! channel_control optics = Some c ->
  fault_free 3 (faults w) ->
  make_control_grid n_grid = Ok control_grid ->
  quantize control_grid (np_round2 c)
    (decide_direction (np_round2 d) control_negated threshold_lower threshold_upper)
  = Ok v ->
  n_neb (np_round2 c) v = true ->
  brs_control optics control_negated threshold_lower threshold_upper n_grid w
  = (Ok tt,
     World (<[channel_control optics := v]> (pvs w)) (tail (tail (tail (faults w))))
       (clock w) (sigint w) (files w)
       (EvWrite (channel_control optics) v true
        :: EvLog (LogSetting (channel_control optics) (np_round2 c) v)
        :: cycle_prelude optics control_negated threshold_lower threshold_upper d c (clock w)
        ++ events w)).
Proof.
  intros Hd Hc Hff Hg Hq Hneq.
  destruct (fault_free_head _ _ Hff) as [Hf1 Hff1].
  destruct (fault_free_head _ _ Hff1) as [Hf2 Hff2].
  destruct (fault_free_head _ _ Hff2) as [Hf3 _].
  destruct w as [pv fl ck sg fi ev]. simpl in *.
  unfold brs_control, bind, datetime_now, logger_info, lift, ezca_read, next_fault.
  simpl. rewrite Hf1. simpl. rewrite Hd. simpl. rewrite Hf2. simpl. rewrite Hc. simpl.
  rewrite Hg. simpl.
  unfold decide_direction in Hq.
  destruct (threshold_branch (np_round2 d) control_negated
              threshold_lower threshold_upper) as [line dir] eqn:Hb.
  simpl in Hq. simpl. rewrite Hq. simpl. rewrite Hneq.
  unfold ezca_write, next_fault. simpl. rewrite Hf3, Hc. reflexivity.
Qed.

End Healthy.

Lemma fault_free_le (n m : nat) (fl : list bool) :
  (m <= n)%nat -> fault_free n fl -> fault_free m fl.
Proof. intros Hmn Hff k Hk. apply Hff. lia. Qed.

(** The branch taken when the decision is to hold logs "within". *)
Lemma threshold_branch_hold {T : Type} `{Numeric T} (drift : T) (control_negated : bool)
    (threshold_lower threshold_upper : Z) :
  decide_direction drift control_negated threshold_lower threshold_upper = Hold ->
  fst (threshold_branch drift control_negated threshold_lower threshold_upper)
  = LogWithin drift threshold_lower threshold_upper.
Proof.
  unfold decide_direction, threshold_branch.
  destruct (n_gtb drift (of_int threshold_upper));
    [destruct control_negated; discriminate |].
  destruct (n_ltb drift (of_int threshold_lower));
    [destruct control_negated; discriminate | reflexivity].
Qed.

(** X8. In binary64 arithmetic a control channel that reads nan defeats
    the comparison of line 200: with the drift within the thresholds,
    where the next value is the current one, [control != control_next]
    still holds, and the cycle logs a setting and writes nan to the control
    channel instead of doing nothing. *)
Theorem nan_control_is_written_back (optics : string) (control_negated : bool)
    (threshold_lower threshold_upper n_grid : Z) (w : world float) (d : float) :
  pvs w !! channel_drift optics = Some d ->
  pvs w !! channel_control optics = Some PrimFloat.nan ->
  fault_free 3 (faults w) ->
  (1 <= n_grid)%Z ->
  decide_direction (Binary64.round2 d) control_negated threshold_lower threshold_upper
  = Hold ->
  exists w',
    brs_control optics control_negated threshold_lower threshold_upper n_grid w
    = (Ok tt, w') /\
    events w' =
      [EvWrite (channel_control optics) PrimFloat.nan true;
       EvLog (LogSetting (channel_control optics) PrimFloat.nan PrimFloat.nan);
       EvLog (LogWithin (Binary64.round2 d) threshold_lower threshold_upper);
       EvLog (LogCurrent (Binary64.round2 d) PrimFloat.nan);
       EvRead (channel_control optics) (Some PrimFloat.nan);
       EvRead (channel_drift optics) (Some d);
       EvLog (LogStarting (clock w))] ++ events w.
Proof.
  intros Hd Hc Hff Hn Hdir.
  destruct (make_control_grid_length (T:=float) n_grid ltac:(lia)) as (g & Hg & Hlen).
  assert (Hne : g <> []).
  { intros ->. simpl in Hlen. lia. }
  pose proof (brs_control_moves optics control_negated threshold_lower threshold_upper
                n_grid w d PrimFloat.nan PrimFloat.nan g Hd Hc Hff Hg) as Hrun.
  change (@np_round2 float Binary64.numeric) with Binary64.round2 in Hrun.
  change (Binary64.round2 PrimFloat.nan) with PrimFloat.nan in Hrun.
  rewrite Hdir in Hrun.
  specialize (Hrun (quantize_hold_eq g PrimFloat.nan Hne) eq_refl).
  eexists. split; [exact Hrun |].
  simpl. unfold cycle_prelude.
  change (@np_round2 float Binary64.numeric) with Binary64.round2.
  change (Binary64.round2 PrimFloat.nan) with PrimFloat.nan.
  rewrite (threshold_branch_hold (Binary64.round2 d) control_negated
             threshold_lower threshold_upper Hdir).
  reflexivity.
Qed.

Lemma nan_control_is_written_back_witness :
  let w := World (T:=float)
             {[ "ISI-GND_BRS_ITMX_DRIFTMON" := 12.5%float;
                "ISI-GND_BRS_ITMX_HEATCTRLIN" := PrimFloat.nan ]} [] 0%Q None ∅ [] in
  fault_free 3 (faults w) /\
  decide_direction (Binary64.round2 12.5%float) false (-8192) 8192 = Hold /\
  exists w',
    brs_control "ITMX" false (-8192) 8192 64 w = (Ok tt, w') /\
    head (events w')
    = Some (EvWrite "ISI-GND_BRS_ITMX_HEATCTRLIN" PrimFloat.nan true).
Proof.
  intros w.
  assert (Hff : fault_free 3 (faults w)).
  { intros k _. simpl. discriminate. }
  split; [exact Hff |]. split; [reflexivity |].
  destruct (nan_control_is_written_back "ITMX" false (-8192) 8192 64 w 12.5%float
              eq_refl eq_refl Hff ltac:(lia) eq_refl)
    as (w' & Hrun & Hev).
  exists w'. split; [exact Hrun |]. rewrite Hev. reflexivity.
Defined.

(** ** The schedule in time *)

Section Scheduled.
Context {T : Type} `{Numeric T}.
Local Open Scope Q_scope.

Lemma brs_control_runs_one_cycle (optics : string) (control_negated : bool)
    (threshold_lower threshold_upper n_grid : Z) :
  runs_one_cycle cycle_exception
    (brs_control (T:=T) optics control_negated threshold_lower threshold_upper n_grid).
Proof.
  intros w.
  destruct (brs_control_outcome optics control_negated threshold_lower threshold_upper
              n_grid w)
    as (rest & r & pvs' & faults' & Hrun & Hrest & Hr & _).
  eexists rest, r, _. split; [exact Hrun |].
  split_and!; [reflexivity | reflexivity | reflexivity | exact Hrest |].
  destruct Hr as [-> | [-> | [-> _]]]; [left; reflexivity | right | right];
    eexists; (split; [reflexivity |]); [left | right]; reflexivity.
Qed.

Variable allowed : exn -> Prop.
Variable func : M T unit.
Hypothesis Hfunc : runs_one_cycle allowed func.

(** A positive multiple of the sleep reaches any time. *)
Lemma sleeps_reach (c t s : Q) :
  0 < s -> exists n : nat, t <= c + inject_Z (Z.of_nat (S n)) * s.
Proof.
  intros Hs.
  exists (Z.to_nat (Qceiling ((t - c) / s))).
  pose proof (Qle_ceiling ((t - c) / s)) as Hceil.
  assert (Hz : inject_Z (Qceiling ((t - c) / s))
               <= inject_Z (Z.of_nat (S (Z.to_nat (Qceiling ((t - c) / s)))))).
  { rewrite <- Zle_Qle. lia. }
  assert (Hx : (t - c) / s * s == t - c) by (field; lra).
  assert (Hm : (t - c) / s * s
               <= inject_Z (Z.of_nat (S (Z.to_nat (Qceiling ((t - c) / s))))) * s).
  { apply Qmult_le_compat_r; lra. }
  lra.
Qed.

End Scheduled.

(** ** The times at which cycles start *)

Lemma start_times_app {T : Type} (a b : list (event T)) :
  start_times (a ++ b) = start_times a ++ start_times b.
Proof. apply omap_app. Qed.

Lemma start_times_none {T : Type} (rest : list (event T)) :
  (forall e, e ∈ rest -> start_time e = None /\ forall s, e <> EvSleep s) ->
  start_times rest = [].
Proof.
  induction rest as [| e rest IH]; intros Hrest; [reflexivity |].
  unfold start_times. simpl.
  destruct (Hrest e ltac:(apply elem_of_cons; left; reflexivity)) as [-> _].
  apply IH. intros e' Hin. apply Hrest. apply elem_of_cons. right. exact Hin.
Qed.

(** The start times of the events of one call of the scheduled function. *)
Lemma start_times_cycle {T : Type} (rest : list (event T)) (now : Q) :
  (forall e, e ∈ rest -> start_time e = None /\ forall s, e <> EvSleep s) ->
  start_times (rest ++ [EvLog (LogStarting now)]) = [now].
Proof.
  intros Hrest. rewrite start_times_app, (start_times_none rest Hrest). reflexivity.
Qed.

Lemma spaced_cons (delta now : Q) (times : list Q) :
  spaced delta times ->
  (forall s, s ∈ times -> (s + delta < now)%Q) ->
  spaced delta (now :: times).
Proof.
  intros Hsp Hhead [| i] later earlier Hl He; simpl in Hl, He.
  - injection Hl as <-. apply Hhead. eapply list_elem_of_lookup_2, He.
  - exact (Hsp i later earlier Hl He).
Qed.

Section Spacing.
Context {T : Type} `{Numeric T}.
Local Open Scope Q_scope.

Variable allowed : exn -> Prop.
Variable func : M T unit.
Hypothesis Hfunc : runs_one_cycle allowed func.

(** The loop keeps the cycles apart: it calls the function only after
    [time_next], which is [time_delta] after the call before. *)
Lemma schedule_loop_spaced (time_delta time_sleep_ : Q) (fuel : nat) :
  forall (time_next : Q) (w : world T) (cur base : list (event T)) (lb : Q),
    events w = cur ++ base ->
    spaced time_delta (start_times cur) ->
    (forall s, s ∈ start_times cur -> s + time_delta <= time_next /\ s <= clock w) ->
    (lb <= time_next \/ lb < clock w) ->
    exists added r w',
      schedule_loop fuel func time_delta time_sleep_ time_next w = (r, w') /\
      events w' = added ++ cur ++ base /\
      spaced time_delta (start_times (added ++ cur)) /\
      (forall s, s ∈ start_times added -> lb < s) /\
      (forall s, EvSleep s ∈ added -> 0 <= s).
Proof.
  induction fuel as [| fuel IH]; intros time_next w cur base lb Hev Hsp Hinv Hlb.
  - exists [], Diverge, w. split_and!; [reflexivity | exact Hev | exact Hsp | |];
      intros s Hin; apply elem_of_nil in Hin; destruct Hin.
  - simpl. unfold bind at 1. unfold datetime_now at 1.
    assert (Hrest : forall time_next' w1 mid,
              events w1 = mid ++ cur ++ base ->
              spaced time_delta (start_times (mid ++ cur)) ->
              (forall s, s ∈ start_times (mid ++ cur) ->
                 s + time_delta <= time_next' /\ s <= clock w1) ->
              (lb <= time_next' \/ lb < clock w1) ->
              (forall s, s ∈ start_times mid -> lb < s) ->
              (forall s, EvSleep s ∈ mid -> 0 <= s) ->
              exists added r w',
                bind (time_sleep time_sleep_)
                     (fun _ => schedule_loop fuel func time_delta time_sleep_ time_next') w1
                = (r, w') /\
                events w' = added ++ cur ++ base /\
                spaced time_delta (start_times (added ++ cur)) /\
                (forall s, s ∈ start_times added -> lb < s) /\
                (forall s, EvSleep s ∈ added -> 0 <= s)).
    { intros time_next' w1 mid Hev1 Hsp1 Hinv1 Hlb1 Hmid Hsl.
      unfold bind, time_sleep.
      destruct (ExactQ.ltb time_sleep_ 0) eqn:Hneg.
      { exists mid, (Raise ValueError), w1. split_and!; auto. }
      apply Q_ltb_ge in Hneg.
      assert (Hgo : exists added r w',
                schedule_loop fuel func time_delta time_sleep_ time_next'
                  (emit (EvSleep time_sleep_) (set_clock (clock w1 + time_sleep_) w1))
                = (r, w') /\
                events w' = added ++ cur ++ base /\
                spaced time_delta (start_times (added ++ cur)) /\
                (forall s, s ∈ start_times added -> lb < s) /\
                (forall s, EvSleep s ∈ added -> 0 <= s)).
      { destruct (IH time_next'
                    (emit (EvSleep time_sleep_) (set_clock (clock w1 + time_sleep_) w1))
                    ((EvSleep time_sleep_ :: mid) ++ cur) base lb)
          as (added & r & w' & Hrun & Hev' & Hsp' & Hlate & Hsl').
        - simpl. rewrite Hev1, <- app_assoc. reflexivity.
        - exact Hsp1.
        - intros s Hin. destruct (Hinv1 s Hin) as [Ha Hb]. simpl. split; [exact Ha | lra].
        - simpl. destruct Hlb1 as [Hl | Hl]; [left; exact Hl | right; lra].
        - exists (added ++ EvSleep time_sleep_ :: mid), r, w'.
          split_and!; [exact Hrun | | | |].
          + rewrite Hev', <- !app_assoc. reflexivity.
          + rewrite <- app_assoc. exact Hsp'.
          + intros s Hin. rewrite start_times_app in Hin.
            apply elem_of_app in Hin as [Hin | Hin]; [exact (Hlate s Hin) |].
            exact (Hmid s Hin).
          + intros s Hin. apply elem_of_app in Hin as [Hin | Hin]; [exact (Hsl' s Hin) |].
            apply elem_of_cons in Hin as [Heq | Hin]; [| exact (Hsl s Hin)].
            injection Heq as ->. exact Hneg. }
      destruct (sigint w1) as [t |]; [destruct (Qle_bool t _) |]; [| exact Hgo..].
      eexists mid, _, _. split_and!; [reflexivity | exact Hev1 | exact Hsp1 | exact Hmid
                                     | exact Hsl]. }
    destruct (ExactQ.ltb time_next (clock w)) eqn:Hdue.
    + apply Q_ltb_lt in Hdue.
      unfold bind at 1. unfold bind at 1.
      destruct (Hfunc w) as (rest & r & w1 & Hrun & Hck & Hsg & Hev1 & Hrest1 & Hr).
      rewrite Hrun.
      assert (Hst : start_times ((rest ++ [EvLog (LogStarting (clock w))]) ++ cur)
                    = clock w :: start_times cur).
      { rewrite start_times_app, (start_times_cycle rest (clock w) Hrest1). reflexivity. }
      assert (Hsp1 : spaced time_delta (clock w :: start_times cur)).
      { apply spaced_cons; [exact Hsp |].
        intros s Hin. destruct (Hinv s Hin) as [Ha _]. lra. }
      assert (Hlate : lb < clock w) by (destruct Hlb; lra).
      assert (Hnosleep : forall s, EvSleep s ∈ rest ++ [EvLog (LogStarting (clock w))] ->
                0 <= s).
      { intros s Hin. exfalso. apply elem_of_app in Hin as [Hin | Hin].
        - destruct (Hrest1 _ Hin) as [_ Hne]. exact (Hne s eq_refl).
        - apply list_elem_of_singleton in Hin. discriminate. }
      destruct Hr as [-> | (e & -> & He)].
      * unfold datetime_now, bind at 1, logger_info, bind at 1, ret.
        apply (Hrest _ _ (EvLog (LogNextRun (clock w1 + time_delta))
                          :: rest ++ [EvLog (LogStarting (clock w))])).
        -- simpl. rewrite Hev1, Hev. reflexivity.
        -- change (start_times ((EvLog (LogNextRun (clock w1 + time_delta))
                                 :: rest ++ [EvLog (LogStarting (clock w))]) ++ cur))
             with (start_times ((rest ++ [EvLog (LogStarting (clock w))]) ++ cur)).
           rewrite Hst. exact Hsp1.
        -- change (start_times ((EvLog (LogNextRun (clock w1 + time_delta))
                                 :: rest ++ [EvLog (LogStarting (clock w))]) ++ cur))
             with (start_times ((rest ++ [EvLog (LogStarting (clock w))]) ++ cur)).
           rewrite Hst. simpl. rewrite Hck.
           intros s Hin. apply elem_of_cons in Hin as [-> | Hin]; [split; lra |].
           destruct (Hinv s Hin) as [_ Hb]. split; lra.
        -- right. simpl. rewrite Hck. exact Hlate.
        -- change (start_times (EvLog (LogNextRun (clock w1 + time_delta))
                                :: rest ++ [EvLog (LogStarting (clock w))]))
             with (start_times (rest ++ [EvLog (LogStarting (clock w))])).
           rewrite (start_times_cycle rest (clock w) Hrest1).
           intros s Hin. apply list_elem_of_singleton in Hin. subst s. exact Hlate.
        -- intros s Hin. apply elem_of_cons in Hin as [Heq | Hin]; [discriminate |].
           exact (Hnosleep s Hin).
      * exists (rest ++ [EvLog (LogStarting (clock w))]), (Raise e), w1.
        split_and!; [reflexivity | | | | exact Hnosleep].
        -- rewrite Hev1, Hev. reflexivity.
        -- rewrite Hst. exact Hsp1.
        -- rewrite (start_times_cycle rest (clock w) Hrest1).
           intros s Hin. apply list_elem_of_singleton in Hin. subst s. exact Hlate.
    + unfold bind at 1, ret.
      apply (Hrest _ _ []); [exact Hev | exact Hsp | exact Hinv | exact Hlb | |];
        intros s Hin; apply elem_of_nil in Hin; destruct Hin.
Qed.

Lemma schedule_run_spaced (start_now : bool) (interval_hour : Q) (fuel : nat)
    (w : world T) :
  exists new r w',
    schedule_run func start_now interval_hour fuel w = (r, w') /\
    events w' = new ++ events w /\
    spaced (interval_hour * 3600) (start_times new) /\
    (forall s, s ∈ start_times new ->
       (start_now = true /\ s = clock w) \/ clock w + interval_hour * 3600 < s) /\
    (forall s, EvSleep s ∈ new -> 0 <= s).
Proof.
  unfold schedule_run.
  assert (Hrest : forall w1 cur,
            clock w1 = clock w ->
            events w1 = cur ++ events w ->
            (start_times cur = [] \/ (start_now = true /\ start_times cur = [clock w])) ->
            (forall s, EvSleep s ∈ cur -> 0 <= s) ->
            exists new r w',
              (let* time_now := datetime_now in
               let time_delta := (interval_hour * 3600)%Q in
               let time_next := (time_now + time_delta)%Q in
               let time_sleep_ := (interval_hour * 60 * 60 / 10)%Q in
               logger_info (LogNextRun time_next) ;;
               try_except_KeyboardInterrupt
                 (schedule_loop fuel func time_delta time_sleep_ time_next)
                 (logger_info LogInterrupted ;; exit)) w1 = (r, w') /\
              events w' = new ++ events w /\
              spaced (interval_hour * 3600) (start_times new) /\
              (forall s, s ∈ start_times new ->
                 (start_now = true /\ s = clock w) \/
                 clock w + interval_hour * 3600 < s) /\
              (forall s, EvSleep s ∈ new -> 0 <= s)).
  { intros w1 cur Hck Hev1 Hcur Hsl.
    unfold bind at 1, datetime_now at 1. unfold bind at 1, logger_info at 1.
    unfold try_except_KeyboardInterrupt.
    set (cur1 := EvLog (LogNextRun (clock w1 + interval_hour * 3600)) :: cur).
    assert (Hst1 : start_times cur1 = start_times cur) by reflexivity.
    assert (Hin1 : forall s, s ∈ start_times cur1 -> start_now = true /\ s = clock w).
    { intros s Hin. rewrite Hst1 in Hin.
      destruct Hcur as [Hnil | [Hnow Hone]].
      - rewrite Hnil in Hin. apply elem_of_nil in Hin. destruct Hin.
      - rewrite Hone in Hin. apply list_elem_of_singleton in Hin. auto. }
    destruct (schedule_loop_spaced (interval_hour * 3600) (interval_hour * 60 * 60 / 10)
                fuel (clock w1 + interval_hour * 3600)
                (emit (EvLog (LogNextRun (clock w1 + interval_hour * 3600))) w1)
                cur1 (events w) (clock w + interval_hour * 3600))
      as (added & r & w' & Hrun & Hev & Hsp & Hlate & Hsl').
    - simpl. rewrite Hev1. reflexivity.
    - rewrite Hst1. destruct Hcur as [-> | [_ ->]];
        intros [| i] later earlier Hl He; simpl in Hl, He; discriminate.
    - intros s Hin. destruct (Hin1 s Hin) as [_ ->]. simpl. rewrite Hck. split; lra.
    - left. rewrite Hck. lra.
    - rewrite Hrun.
      assert (Hstarts : forall s, s ∈ start_times (added ++ cur1) ->
                (start_now = true /\ s = clock w) \/
                clock w + interval_hour * 3600 < s).
      { intros s Hin. rewrite start_times_app in Hin.
        apply elem_of_app in Hin as [Hin | Hin]; [right; exact (Hlate s Hin) |].
        left. exact (Hin1 s Hin). }
      assert (Hsleeps : forall s, EvSleep s ∈ added ++ cur1 -> 0 <= s).
      { intros s Hin. apply elem_of_app in Hin as [Hin | Hin]; [exact (Hsl' s Hin) |].
        apply elem_of_cons in Hin as [Heq | Hin]; [discriminate | exact (Hsl s Hin)]. }
      assert (Hdefault :
        exists new0 r0 w0, (r, w') = (r0, w0) /\ events w0 = new0 ++ events w /\
                           spaced (interval_hour * 3600) (start_times new0) /\
                           (forall s, s ∈ start_times new0 ->
                              (start_now = true /\ s = clock w) \/
                              clock w + interval_hour * 3600 < s) /\
                           (forall s, EvSleep s ∈ new0 -> 0 <= s)).
      { exists (added ++ cur1), r, w'.
        split_and!; [reflexivity | | exact Hsp | exact Hstarts | exact Hsleeps].
        rewrite Hev, <- app_assoc. reflexivity. }
      destruct r as [[] | e |]; try exact Hdefault.
      destruct e; try exact Hdefault.
      unfold bind, logger_info, exit, raise.
      eexists (EvLog LogInterrupted :: added ++ cur1), _, _.
      split_and!; [reflexivity | | exact Hsp | exact Hstarts |].
      + simpl. rewrite Hev, <- app_assoc. reflexivity.
      + intros s Hin. apply elem_of_cons in Hin as [Heq | Hin]; [discriminate |].
        exact (Hsleeps s Hin). }
  unfold bind at 1.
  destruct start_now.
  - destruct (Hfunc w) as (rest & r & w1 & Hrun & Hck & Hsg & Hev1 & Hrest1 & Hr).
    rewrite Hrun.
    assert (Hnosleep : forall s, EvSleep s ∈ rest ++ [EvLog (LogStarting (clock w))] ->
              0 <= s).
    { intros s Hin. exfalso. apply elem_of_app in Hin as [Hin | Hin].
      - destruct (Hrest1 _ Hin) as [_ Hne]. exact (Hne s eq_refl).
      - apply list_elem_of_singleton in Hin. discriminate. }
    destruct Hr as [-> | (e & -> & He)].
    + apply (Hrest w1 (rest ++ [EvLog (LogStarting (clock w))]) Hck Hev1);
        [| exact Hnosleep].
      right. split; [reflexivity | apply start_times_cycle, Hrest1].
    + exists (rest ++ [EvLog (LogStarting (clock w))]), (Raise e), w1.
      rewrite (start_times_cycle rest (clock w) Hrest1).
      split_and!; [reflexivity | exact Hev1 | | | exact Hnosleep].
      * intros [| i] later earlier Hl He'; simpl in Hl, He'; discriminate.
      * intros s Hin. apply list_elem_of_singleton in Hin. auto.
  - unfold ret. apply (Hrest w []); [reflexivity | reflexivity | left; reflexivity |].
    intros s Hin. apply elem_of_nil in Hin. destruct Hin.
Qed.

End Spacing.

(** X11. In every run of [schedule_run] on [brs_control], whatever the
    arguments, the number of passes followed, the state of the world and
    the arithmetic: any two successive cycles start more than the interval
    apart; apart from the immediate cycle of [start_now], every cycle
    starts more than the interval after [schedule_run] was called; and the
    loop only ever sleeps for a non-negative time. *)
Theorem cycles_are_spaced {T : Type} `{Numeric T} (optics : string)
    (control_negated : bool) (threshold_lower threshold_upper n_grid : Z)
    (start_now : bool) (interval_hour : Q) (fuel : nat) (w : world T) :
  exists new r w',
    schedule_run
      (brs_control optics control_negated threshold_lower threshold_upper n_grid)
      start_now interval_hour fuel w = (r, w') /\
    events w' = new ++ events w /\
    spaced (interval_hour * 3600) (start_times new) /\
    (forall s, s ∈ start_times new ->
       (start_now = true /\ s = clock w) \/ (clock w + interval_hour * 3600 < s)%Q) /\
    (forall s, EvSleep s ∈ new -> (0 <= s)%Q).
Proof.
  exact (schedule_run_spaced cycle_exception _
           (brs_control_runs_one_cycle optics control_negated threshold_lower
              threshold_upper n_grid)
           start_now interval_hour fuel w).
Qed.

(** ** Configuration files that cannot be used *)



(** ** Channels and fault scripts *)

Lemma string_length_append (a b : string) :
  String.length (a +:+ b) = (String.length a + String.length b)%nat.
Proof. induction a as [| ch a IH]; simpl; [reflexivity | rewrite IH; reflexivity]. Qed.

(** The two channels of an optic differ. *)
Lemma channel_drift_neq_control (optics : string) :
  channel_drift optics <> channel_control optics.
Proof.
  unfold channel_drift, channel_control. intros Heq.
  apply (f_equal String.length) in Heq.
  rewrite !string_length_append in Heq. simpl in Heq. lia.
Qed.

Lemma fault_free_nil (n : nat) : fault_free n [].
Proof. intros k _. simpl. discriminate. Qed.

(** ** The control grid in binary64 *)

Lemma same_floats_eq (l l' : list float) : same_floats l l' = true -> l = l'.
Proof.
  revert l'. induction l as [| x l IH]; intros [| y l'] Hs; simpl in Hs;
    try discriminate; [reflexivity |].
  apply andb_true_iff in Hs as [Hxy Hs].
  apply FloatAxioms.Leibniz.eqb_spec in Hxy. subst y.
  rewrite (IH l' Hs). reflexivity.
Qed.

Lemma grids_to_517_in_hundredths :
  forallb grid_in_hundredths (grid_sizes 2 516) = true.
Proof. vm_compute. reflexivity. Qed.

(** From 2 to 517 values the binary64 grid of line 148 is the exact grid,
    each value replaced by the binary64 value nearest to it. *)
Lemma binary64_grid_hundredths (n_grid : Z) :
  (2 <= n_grid <= 517)%Z ->
  make_control_grid (T:=float) n_grid = Ok (hundredths <$> exact_hundredths n_grid).
Proof.
  intros Hn. pose proof grids_to_517_in_hundredths as Hall.
  rewrite forallb_forall in Hall.
  specialize (Hall n_grid). unfold grid_in_hundredths in Hall.
  destruct (make_control_grid (T:=float) n_grid) as [g | e |];
    [| discriminate Hall; apply list_elem_of_In, grid_sizes_elem; lia..].
  f_equal. apply same_floats_eq, Hall, list_elem_of_In, grid_sizes_elem. lia.
Qed.

Lemma exact_hundredths_rising (n_grid : Z) :
  (2 <= n_grid <= 517)%Z -> rising (exact_hundredths n_grid).
Proof.
  intros Hn.
  assert (Hs : strictly_increasing ((fun z => z # 100) <$> exact_hundredths n_grid)).
  { apply size_ok_strictly_increasing; [lia |].
    pose proof sizes_to_517_ok as Hall. rewrite forallb_forall in Hall.
    apply Hall, list_elem_of_In, grid_sizes_elem. lia. }
  intros i j a b Hi Hj Hij.
  assert (Hlt : (a # 100 < b # 100)%Q).
  { apply (Hs i j); [| | exact Hij]; rewrite list_lookup_fmap.
    - rewrite Hi. reflexivity.
    - rewrite Hj. reflexivity. }
  unfold Qlt in Hlt. simpl in Hlt. lia.
Qed.

Lemma exact_hundredths_range (n_grid k : Z) :
  (2 <= n_grid)%Z -> k ∈ exact_hundredths n_grid -> (0 <= k <= 1000)%Z.
Proof.
  intros Hn Hin.
  assert (Hq : (0 <= k # 100 <= 10)%Q).
  { apply (exact_grid_bounds n_grid _ (k # 100) (exact_grid_hundredths n_grid Hn)).
    apply list_elem_of_fmap. exists k. split; [reflexivity | exact Hin]. }
  unfold Qle in Hq. simpl in Hq. lia.
Qed.

Lemma exact_hundredths_length (n_grid : Z) :
  length (exact_hundredths n_grid) = Z.to_nat n_grid.
Proof. unfold exact_hundredths. rewrite length_fmap, length_seq. reflexivity. Qed.

Lemma exact_hundredths_ends (n_grid : Z) :
  (2 <= n_grid)%Z ->
  exact_hundredths n_grid !! 0%nat = Some 0%Z /\
  exact_hundredths n_grid !! (Z.to_nat n_grid - 1)%nat = Some 1000%Z.
Proof.
  intros Hn. unfold exact_hundredths. rewrite !list_lookup_fmap, !lookup_seq_lt by lia.
  simpl. split.
  - rewrite rint_sqrt_ratio_0 by lia. reflexivity.
  - replace (Z.of_nat (Z.to_nat n_grid - 1)) with (n_grid - 1)%Z by lia.
    rewrite rint_sqrt_ratio_top by lia. reflexivity.
Qed.

Lemma hundredths_0 : hundredths 0 = 0%float.
Proof. reflexivity. Qed.

Lemma hundredths_1000 : hundredths 1000 = 10%float.
Proof. vm_compute. reflexivity. Qed.

(** One step on the binary64 grid of 2 to 517 values, from a hundredth
    between -10.00 and 20.00. *)
Lemma quantize_binary64_grid (n_grid kv : Z) (up : bool) :
  (2 <= n_grid <= 517)%Z -> (-1000 <= kv <= 2000)%Z ->
  exists r,
    quantize (hundredths <$> exact_hundredths n_grid) (hundredths kv) (Some up)
    = Ok (hundredths r) /\
    r ∈ exact_hundredths n_grid /\
    (if up
     then (kv < r /\ forall k, k ∈ exact_hundredths n_grid -> kv < k -> r <= k) \/
          (1000 <= kv /\ r = 1000)
     else (r < kv /\ forall k, k ∈ exact_hundredths n_grid -> k < kv -> k <= r) \/
          (kv <= 0 /\ r = 0))%Z.
Proof.
  intros Hn Hkv.
  set (ks := exact_hundredths n_grid).
  assert (Hr : rising ks) by (apply exact_hundredths_rising; exact Hn).
  assert (Hrange : forall k, k ∈ ks -> (0 <= k <= 1000)%Z)
    by (intros k; apply exact_hundredths_range; lia).
  destruct (exact_hundredths_ends n_grid ltac:(lia)) as [H0 Hlast]. fold ks in H0, Hlast.
  assert (Hne : ks <> []) by (intros Heq; rewrite Heq in H0; discriminate).
  destruct (quantize_hundredths ks kv Hne Hr Hrange Hkv)
    as (hi & lo & Hinc & Hhi & Hdec & Hlo).
  destruct (index_upto_spec ks kv hi Hr Hhi) as [Hhi1 Hhi2].
  destruct (index_below_spec ks kv lo Hr Hlo) as [Hlo1 Hlo2].
  pose proof (list_elem_of_lookup_2 _ _ _ H0) as Hin0.
  pose proof (list_elem_of_lookup_2 _ _ _ Hlast) as Hin1000.
  destruct up.
  - exists hi. split; [exact Hinc |].
    split; [eapply list_elem_of_lookup_2, Hhi |].
    destruct (Z.lt_ge_cases kv 1000) as [Hlt | Hge].
    + left. apply Hhi1. exists 1000%Z. split; assumption.
    + right. split; [lia |].
      pose proof (Hrange hi (list_elem_of_lookup_2 _ _ _ Hhi)).
      assert (1000 <= hi)%Z; [| lia].
      apply Hhi2; [| exact Hin1000]. intros k Hin. specialize (Hrange k Hin). lia.
  - exists lo. split; [exact Hdec |].
    split; [eapply list_elem_of_lookup_2, Hlo |].
    destruct (Z.lt_ge_cases 0 kv) as [Hlt | Hge].
    + left. apply Hlo1. exists 0%Z. split; assumption.
    + right. split; [lia |].
      pose proof (Hrange lo (list_elem_of_lookup_2 _ _ _ Hlo)).
      assert (lo <= 0)%Z; [| lia].
      apply Hlo2; [| exact Hin0]. intros k Hin. specialize (Hrange k Hin). lia.
Qed.



(** ** Successive cycles in binary64 *)

Section Saturation64.

Lemma count_upto_at (ks : list Z) (k : nat) (r : Z) :
  rising ks -> ks !! k = Some r -> count_upto r ks = S k.
Proof.
  intros Hr Hk. pose proof (count_upto_length r ks) as Hlen.
  pose proof (lookup_lt_Some _ _ _ Hk) as Hklen.
  pose proof (count_upto_spec r ks k r Hr Hk) as Hu.
  rewrite Z.leb_refl in Hu. apply Nat.ltb_lt in Hu.
  destruct (decide (S k < count_upto r ks)%nat) as [Hlt | Hge]; [exfalso | lia].
  destruct (lookup_lt_is_Some_2 ks (S k) ltac:(lia)) as [r' Hk'].
  pose proof (Hr k (S k) r r' Hk Hk' ltac:(lia)).
  pose proof (count_upto_spec r ks (S k) r' Hr Hk') as Hu'.
  destruct (Nat.ltb_spec (S k) (count_upto r ks)); [| lia].
  symmetry in Hu'. apply Z.leb_le in Hu'. lia.
Qed.

Lemma count_below_at (ks : list Z) (k : nat) (r : Z) :
  rising ks -> ks !! k = Some r -> count_below r ks = k.
Proof.
  intros Hr Hk. pose proof (count_below_upto r ks Hr) as Hpq.
  rewrite (count_upto_at ks k r Hr Hk) in Hpq.
  pose proof (count_below_spec r ks k r Hr Hk) as Hb.
  rewrite Z.leb_refl in Hb. apply Nat.leb_le in Hb.
  destruct (decide (count_below r ks < k)%nat) as [Hlt | Hge]; [exfalso | lia].
  destruct (lookup_lt_is_Some_2 ks (count_below r ks)
              ltac:(pose proof (lookup_lt_Some _ _ _ Hk); lia)) as [r' Hk'].
  pose proof (Hr _ _ r' r Hk' Hk Hlt).
  pose proof (count_below_spec r ks _ r' Hr Hk') as Hb'.
  rewrite Nat.leb_refl in Hb'. symmetry in Hb'. apply Z.leb_le in Hb'. lia.
Qed.

Variable ks : list Z.
Hypothesis Hne : ks <> [].
Hypothesis Hr : rising ks.
Hypothesis Hrange : forall k, k ∈ ks -> (0 <= k <= 1000)%Z.

(** From the grid value of index [k], [m] increases lead to the one of
    index [k + m], or to the last. *)
Lemma quantize_repeat_up (m k : nat) (r : Z) :
  ks !! k = Some r ->
  exists r', quantize_repeat m (hundredths <$> ks) (hundredths r) Increase
             = Ok (hundredths r') /\
             ks !! Nat.min (k + m) (length ks - 1) = Some r'.
Proof.
  revert k r. induction m as [| m IH]; intros k r Hk.
  - exists r. split; [reflexivity |].
    pose proof (lookup_lt_Some _ _ _ Hk).
    replace (Nat.min (k + 0) (length ks - 1)) with k by lia. exact Hk.
  - pose proof (Hrange r (list_elem_of_lookup_2 _ _ _ Hk)) as Hrr.
    destruct (quantize_hundredths ks r Hne Hr Hrange ltac:(lia))
      as (hi & _ & Hinc & Hhi & _).
    rewrite (count_upto_at ks k r Hr Hk) in Hhi.
    destruct (IH _ hi Hhi) as (r' & Hrep & Hr').
    exists r'. simpl. rewrite Hinc. simpl. split; [exact Hrep |].
    rewrite <- Hr'. f_equal. lia.
Qed.

(** From the grid value of index [k], [m] decreases lead to the one of
    index [k - m], or to the first. *)
Lemma quantize_repeat_down (m k : nat) (r : Z) :
  ks !! k = Some r ->
  exists r', quantize_repeat m (hundredths <$> ks) (hundredths r) Decrease
             = Ok (hundredths r') /\
             ks !! (k - m)%nat = Some r'.
Proof.
  revert k r. induction m as [| m IH]; intros k r Hk.
  - exists r. split; [reflexivity |]. rewrite Nat.sub_0_r. exact Hk.
  - pose proof (Hrange r (list_elem_of_lookup_2 _ _ _ Hk)) as Hrr.
    destruct (quantize_hundredths ks r Hne Hr Hrange ltac:(lia))
      as (_ & lo & _ & _ & Hdec & Hlo).
    rewrite (count_below_at ks k r Hr Hk) in Hlo.
    destruct (IH _ lo Hlo) as (r' & Hrep & Hr').
    exists r'. simpl. rewrite Hdec. simpl. split; [exact Hrep |].
    rewrite <- Hr'. f_equal. lia.
Qed.

(** Any number of steps from a hundredth between -10.00 and 20.00 ends on
    a hundredth; with as many steps as the grid has values, on the end of
    the grid. *)
Lemma quantize_repeat_hundredths (m : nat) (kv : Z) (up : bool) :
  (-1000 <= kv <= 2000)%Z ->
  exists r, quantize_repeat m (hundredths <$> ks) (hundredths kv) (Some up)
            = Ok (hundredths r) /\
            ((length ks <= m)%nat -> (if up then last ks else head ks) = Some r).
Proof.
  intros Hkv.
  assert (Hlen : (0 < length ks)%nat) by (destruct ks; [congruence | simpl; lia]).
  destruct m as [| m].
  { exists kv. split; [reflexivity | lia]. }
  destruct (quantize_hundredths ks kv Hne Hr Hrange Hkv)
    as (hi & lo & Hinc & Hhi & Hdec & Hlo).
  destruct up.
  - destruct (quantize_repeat_up m _ hi Hhi) as (r & Hrep & Hrr).
    exists r. simpl. change (Some true) with Increase. rewrite Hinc. simpl.
    split; [exact Hrep |]. intros Hm.
    rewrite last_lookup, <- Hrr. f_equal. lia.
  - destruct (quantize_repeat_down m _ lo Hlo) as (r & Hrep & Hrr).
    exists r. simpl. change (Some false) with Decrease. rewrite Hdec. simpl.
    split; [exact Hrep |]. intros Hm.
    pose proof (lookup_lt_Some _ _ _ Hlo).
    rewrite head_lookup, <- Hrr. f_equal. lia.
Qed.

End Saturation64.

(** On a station without faults and with a drift that keeps its value,
    [m] cycles walk the control value as [m] quantizations do, in
    binary64 arithmetic. *)
Lemma run_cycles_walk_binary64 (optics : string) (control_negated : bool)
    (threshold_lower threshold_upper n_grid : Z) (d : float) (up : bool) :
  (2 <= n_grid <= 517)%Z ->
  decide_direction (Binary64.round2 d) control_negated threshold_lower threshold_upper
  = Some up ->
  forall (m : nat) (w : world float) (c : float) (kv : Z),
    pvs w !! channel_drift optics = Some d ->
    pvs w !! channel_control optics = Some c ->
    faults w = [] ->
    Binary64.round2 c = hundredths kv -> (-1000 <= kv <= 2000)%Z ->
    exists w' c',
      run_cycles m (brs_control optics control_negated
                      threshold_lower threshold_upper n_grid) w = (Ok tt, w') /\
      pvs w' !! channel_drift optics = Some d /\
      pvs w' !! channel_control optics = Some c' /\
      faults w' = [] /\
      quantize_repeat m (hundredths <$> exact_hundredths n_grid) (Binary64.round2 c)
        (Some up) = Ok (Binary64.round2 c').
Proof.
  intros Hn Hdir.
  pose proof (binary64_grid_hundredths n_grid Hn) as Hg.
  induction m as [| m IH]; intros w c kv Hd Hc Hfl Hround Hkv.
  - exists w, c. split_and!; [reflexivity | exact Hd | exact Hc | exact Hfl | reflexivity].
  - destruct (quantize_binary64_grid n_grid kv up Hn Hkv) as (z & Hq & Hin & _).
    pose proof (exact_hundredths_range n_grid z ltac:(lia) Hin) as Hz.
    assert (Hq' : quantize (hundredths <$> exact_hundredths n_grid) (np_round2 c)
                    (decide_direction (np_round2 d) control_negated
                       threshold_lower threshold_upper) = Ok (hundredths z)).
    { change (@np_round2 float Binary64.numeric) with Binary64.round2.
      rewrite Hdir, Hround. exact Hq. }
    simpl run_cycles. unfold bind at 1.
    destruct (n_neb (Binary64.round2 c) (hundredths z)) eqn:Hneq.
    + rewrite (brs_control_moves optics control_negated threshold_lower threshold_upper
                 n_grid w d c (hundredths z) _ Hd Hc
                 ltac:(rewrite Hfl; apply fault_free_nil) Hg Hq' Hneq).
      match goal with
      | |- context [run_cycles m _ ?w1] =>
          destruct (IH w1 (hundredths z) z) as (w' & c' & Hrun & Hd' & Hc' & Hfl' & Hwalk)
      end.
      * simpl. rewrite lookup_insert_ne; [exact Hd |].
        intros Heq. exact (channel_drift_neq_control optics (eq_sym Heq)).
      * simpl. apply lookup_insert_eq.
      * simpl. rewrite Hfl. reflexivity.
      * apply round2_hundredths. lia.
      * lia.
      * exists w', c'. split_and!; [exact Hrun | exact Hd' | exact Hc' | exact Hfl' |].
        simpl. rewrite Hround, Hq. simpl.
        rewrite round2_hundredths in Hwalk by lia. exact Hwalk.
    + rewrite (brs_control_stays optics control_negated threshold_lower threshold_upper
                 n_grid w d c (hundredths z) _ Hd Hc
                 ltac:(rewrite Hfl; apply fault_free_nil) Hg Hq' Hneq).
      unfold n_neb in Hneq. change (@n_eqb float Binary64.numeric) with PrimFloat.eqb in Hneq.
      apply negb_false_iff in Hneq. rewrite Hround, hundredths_eqb in Hneq by lia.
      apply Z.eqb_eq in Hneq. subst z.
      match goal with
      | |- context [run_cycles m _ ?w1] =>
          destruct (IH w1 c kv) as (w' & c' & Hrun & Hd' & Hc' & Hfl' & Hwalk)
      end.
      * exact Hd.
      * exact Hc.
      * simpl. rewrite Hfl. reflexivity.
      * exact Hround.
      * lia.
      * exists w', c'. split_and!; [exact Hrun | exact Hd' | exact Hc' | exact Hfl' |].
        simpl. rewrite Hround, Hq. simpl. rewrite <- Hround. exact Hwalk.
Qed.



(** ** What a cycle writes *)

(** In any arithmetic: a value that a cycle writes goes to the control
    channel and is a value of the grid, or is the rounded control value
    when that does not equal itself; after a successful write the channel
    holds it. *)
Lemma written_value_cases {T : Type} `{Numeric T} (optics : string)
    (control_negated : bool) (threshold_lower threshold_upper n_grid : Z) (w : world T) :
  exists new r w',
    brs_control optics control_negated threshold_lower threshold_upper n_grid w
    = (r, w') /\
    events w' = new ++ events w /\
    forall channel value ok,
      EvWrite channel value ok ∈ new ->
      channel = channel_control optics /\
      ((exists g, make_control_grid n_grid = Ok g /\ value ∈ g) \/
       n_eqb value value = false) /\
      (ok = true -> pvs w' !! channel = Some value).
Proof.
  destruct (brs_control_cases optics control_negated threshold_lower threshold_upper
              n_grid w) as (new & r & pvs' & faults' & Hrun & Hcases).
  eexists new, r, _. split; [exact Hrun |]. split; [reflexivity |]. simpl.
  intros channel value ok Hin.
  destruct Hcases as [(-> & _) | [(d & -> & _) | (d & c & _ & _ & Hm)]];
    [elems.. |].
  simpl in Hm.
  destruct (make_control_grid n_grid) as [control_grid | e |] eqn:Hg;
    [| destruct Hm as (-> & _); elems..].
  destruct (quantize_outcome control_grid (np_round2 c)
              (decide_direction (np_round2 d) control_negated
                 threshold_lower threshold_upper))
    as [[_ Hq] | [Hne (v & Hq & Hv)]];
    rewrite Hq in Hm; [destruct Hm as (-> & _); elems |].
  destruct (n_neb (np_round2 c) v) eqn:Hneq.
  2:{ destruct Hm as (-> & _). elems. }
  destruct Hm as (ok' & -> & _ & ->).
  apply elem_of_cons in Hin as [Heq | Hin].
  2:{ elems. }
  injection Heq as -> -> ->.
  split; [reflexivity |]. split.
  - destruct (decide_direction _ _ _ _).
    + left. exists control_grid. split; [reflexivity | exact Hv].
    + right. subst v. unfold n_neb in Hneq. apply negb_true_iff in Hneq. exact Hneq.
  - intros ->. apply lookup_insert_eq.
Qed.

(** X6. In binary64 arithmetic, whatever the arguments and the state of
    the channels: a value that a cycle writes goes to the heater control
    channel and is a value of the control grid, or else is nan (the
    rounded control value, which does not equal itself); with a grid of 2
    to 517 values a written value that is not nan lies between 0 and 10;
    when the write succeeds it is the value the channel holds
    afterwards. *)
Theorem written_value_in_range (optics : string) (control_negated : bool)
    (threshold_lower threshold_upper n_grid : Z) (w : world float) :
  exists new r w',
    brs_control optics control_negated threshold_lower threshold_upper n_grid w
    = (r, w') /\
    events w' = new ++ events w /\
    forall channel value ok,
      EvWrite channel value ok ∈ new ->
      channel = channel_control optics /\
      ((exists g, make_control_grid n_grid = Ok g /\ value ∈ g) \/
       PrimFloat.is_nan value = true) /\
      ((2 <= n_grid <= 517)%Z -> PrimFloat.is_nan value = false ->
       PrimFloat.leb 0 value = true /\ PrimFloat.leb value 10 = true) /\
      (ok = true -> pvs w' !! channel = Some value).
Proof.
  destruct (written_value_cases optics control_negated threshold_lower threshold_upper
              n_grid w) as (new & r & w' & Hrun & Hev & Hw).
  exists new, r, w'. split; [exact Hrun |]. split; [exact Hev |].
  intros channel value ok Hin.
  destruct (Hw channel value ok Hin) as (Hch & Hval & Hok).
  assert (Hval' : (exists g, make_control_grid n_grid = Ok g /\ value ∈ g) \/
                  PrimFloat.is_nan value = true).
  { destruct Hval as [Hg | Hnan]; [left; exact Hg | right].
    unfold PrimFloat.is_nan. change (@n_eqb float Binary64.numeric) with PrimFloat.eqb in Hnan.
    rewrite Hnan. reflexivity. }
  split; [exact Hch |]. split; [exact Hval' |]. split; [| exact Hok].
  intros Hn Hnum.
  destruct Hval' as [(g & Hg & Hmem) | Hnan]; [| congruence].
  rewrite (binary64_grid_hundredths n_grid Hn) in Hg. injection Hg as <-.
  apply list_elem_of_fmap in Hmem as (k & -> & Hk).
  pose proof (exact_hundredths_range n_grid k ltac:(lia) Hk) as Hkr.
  rewrite <- hundredths_0 at 1. rewrite <- hundredths_1000.
  rewrite !hundredths_leb by lia. split; apply Z.leb_le; lia.
Qed.

(** ** A cycle that holds *)

(** X7. In any arithmetic (binary64 with its rounding included), on a
    station whose two channels exist and whose next two accesses meet no
    fault, with a grid of at least one value: when the rounded drift is
    neither above the upper threshold nor below the lower one and the
    rounded control value equals itself (it is not nan), the cycle reads
    both channels, logs that the drift is within the boundaries and that
    it does nothing, returns normally, writes nothing and leaves every
    channel as it was. *)
Theorem hold_cycle_does_nothing {T : Type} `{Numeric T} (optics : string)
    (control_negated : bool) (threshold_lower threshold_upper n_grid : Z)
    (w : world T) (d c : T) :
  pvs w !! channel_drift optics = Some d ->
  pvs w !! channel_control optics = Some c ->
  fault_free 2 (faults w) ->
  (1 <= n_grid)%Z ->
  n_gtb (np_round2 d) (of_int threshold_upper) = false ->
  n_ltb (np_round2 d) (of_int threshold_lower) = false ->
  n_eqb (np_round2 c) (np_round2 c) = true ->
  exists w',
    brs_control optics control_negated threshold_lower threshold_upper n_grid w
    = (Ok tt, w') /\
    pvs w' = pvs w /\
    events w' =
      [EvLog LogDoingNothing;
       EvLog (LogWithin (np_round2 d) threshold_lower threshold_upper);
       EvLog (LogCurrent (np_round2 d) (np_round2 c));
       EvRead (channel_control optics) (Some c);
       EvRead (channel_drift optics) (Some d);
       EvLog (LogStarting (clock w))] ++ events w.
Proof.
  intros Hd Hc Hff Hn Hhi Hlo Hnum.
  assert (Hdir : decide_direction (np_round2 d) control_negated
                   threshold_lower threshold_upper = Hold).
  { rewrite decide_direction_cases, Hhi, Hlo. reflexivity. }
  destruct (make_control_grid_length (T:=T) n_grid ltac:(lia)) as (g & Hg & Hlen).
  assert (Hne : g <> []).
  { intros ->. simpl in Hlen. lia. }
  pose proof (brs_control_stays optics control_negated threshold_lower threshold_upper
                n_grid w d c (np_round2 c) g Hd Hc Hff Hg) as Hrun.
  rewrite Hdir in Hrun.
  specialize (Hrun (quantize_hold_eq g (np_round2 c) Hne)).
  eexists. split.
  - apply Hrun. unfold n_neb. rewrite Hnum. reflexivity.
  - split; [reflexivity |]. simpl. unfold cycle_prelude.
    rewrite (threshold_branch_hold (np_round2 d) control_negated
               threshold_lower threshold_upper Hdir).
    reflexivity.
Qed.

(** A drift of 8191.005, which binary64 rounds to 8191.0, with the
    thresholds at -8191 and 8191. *)
Lemma hold_cycle_does_nothing_witness :
  let w := World (T:=float)
             {[ "ISI-GND_BRS_ITMX_DRIFTMON" := 8191.005%float;
                "ISI-GND_BRS_ITMX_HEATCTRLIN" := 2.675%float ]} [] 0%Q None ∅ [] in
  fault_free 2 (faults w) /\
  exists w',
    brs_control "ITMX" false (-8191) 8191 64 w = (Ok tt, w') /\
    pvs w' = pvs w /\
    head (events w') = Some (EvLog LogDoingNothing) /\
    EvLog (LogCurrent 8191%float 2.68%float) ∈ events w'.
Proof.
  intros w.
  assert (Hff : fault_free 2 (faults w)).
  { intros k _. simpl. discriminate. }
  split; [exact Hff |].
  destruct (@hold_cycle_does_nothing float Binary64.numeric "ITMX" false (-8191) 8191 64 w
              8191.005%float 2.675%float eq_refl eq_refl Hff ltac:(lia)
              ltac:(vm_compute; reflexivity) ltac:(vm_compute; reflexivity)
              ltac:(vm_compute; reflexivity))
    as (w' & Hrun & Hpvs & Hev).
  exists w'. split_and!; [exact Hrun | exact Hpvs | rewrite Hev; reflexivity |].
  rewrite Hev. apply elem_of_cons; right. apply elem_of_cons; right.
  apply elem_of_cons; left. vm_compute. reflexivity.
Defined.

(** ** The schedule when a cycle takes time *)

(** A cycle that takes no time is one that takes some. *)
Lemma runs_one_cycle_takes_time {T : Type} (allowed : exn -> Prop) (func : M T unit) :
  runs_one_cycle allowed func -> runs_one_cycle_in_time allowed func.
Proof.
  intros Hfunc w.
  destruct (Hfunc w) as (rest & r & w' & Hrun & Hck & Hsg & Hev & Hrest & Hr).
  exists (rest ++ [EvLog (LogStarting (clock w))]), r, w'.
  split_and!; [exact Hrun | rewrite Hck; apply Qle_refl | exact Hev | |].
  - intros s Hin. apply elem_of_app in Hin as [Hin | Hin].
    + destruct (Hrest _ Hin) as [_ Hne]. exact (Hne s eq_refl).
    + apply list_elem_of_singleton in Hin. discriminate.
  - left. split; [| apply start_times_cycle, Hrest].
    destruct Hr as [-> | He]; [left; split; [reflexivity | exact Hsg] | right; exact He].
Qed.

Section Timed.
Context {T : Type} `{Numeric T}.
Local Open Scope Q_scope.

Variable allowed : exn -> Prop.
Variable func : M T unit.
Hypothesis Hfunc : runs_one_cycle_in_time allowed func.

(** Once the interrupt is within [n + 1] sleeps, [n + 1] passes of the
    loop are enough to meet it. *)
Lemma schedule_loop_meets_interrupt (time_delta time_sleep_ : Q) (fuel : nat) :
  0 < time_sleep_ ->
  forall (n : nat) (time_next : Q) (w : world T) (t : Q),
    sigint w = Some t ->
    t <= clock w + inject_Z (Z.of_nat (S n)) * time_sleep_ ->
    (n < fuel)%nat ->
    exists e w',
      schedule_loop fuel func time_delta time_sleep_ time_next w = (Raise e, w') /\
      (e = KeyboardInterrupt \/ (allowed e /\ e <> KeyboardInterrupt)).
Proof.
  intros Hts.
  induction fuel as [| fuel IH]; intros n time_next w t Hsig Ht Hn; [lia |].
  simpl. unfold bind at 1. unfold datetime_now at 1.
  assert (Hrest : forall time_next' w1,
            clock w <= clock w1 -> sigint w1 = Some t ->
            exists e w',
              bind (time_sleep time_sleep_)
                   (fun _ => schedule_loop fuel func time_delta time_sleep_ time_next') w1
              = (Raise e, w') /\
              (e = KeyboardInterrupt \/ (allowed e /\ e <> KeyboardInterrupt))).
  { intros time_next' w1 Hck Hsg.
    unfold bind, time_sleep.
    rewrite (proj2 (Q_ltb_ge time_sleep_ 0)) by lra.
    rewrite Hsg.
    destruct (Qle_bool t (clock w1 + time_sleep_)) eqn:Hle.
    { eexists _, _. split; [reflexivity | left; reflexivity]. }
    apply Q_leb_gt in Hle.
    destruct n as [| n'].
    { exfalso. change (inject_Z (Z.of_nat 1)) with 1 in Ht. lra. }
    apply (IH n' time_next' _ t); [simpl; exact Hsg | | lia].
    simpl.
    rewrite Nat2Z.inj_succ in Ht. unfold Z.succ in Ht.
    rewrite inject_Z_plus in Ht. change (inject_Z 1) with 1 in Ht. lra. }
  destruct (ExactQ.ltb time_next (clock w)).
  - unfold bind at 1. unfold bind at 1.
    destruct (Hfunc w) as (new & r & w1 & Hrun & Hck & _ & _ & Hr).
    rewrite Hrun.
    destruct Hr as [[[[-> Hsg] | (e & -> & He)] _] | [-> _]].
    + unfold datetime_now, bind at 1, logger_info, bind at 1, ret.
      apply Hrest; [exact Hck | simpl; rewrite <- Hsig; exact Hsg].
    + exists e, w1. split; [reflexivity |].
      destruct e; try (right; split; [exact He | discriminate]).
      left. reflexivity.
    + exists KeyboardInterrupt, w1. split; [reflexivity | left; reflexivity].
  - unfold bind at 1, ret. apply Hrest; [apply Qle_refl | exact Hsig].
Qed.

Lemma schedule_run_meets_interrupt (start_now : bool) (interval_hour : Q) (w : world T)
    (t : Q) :
  0 < interval_hour -> sigint w = Some t ->
  exists N : nat, forall fuel, (N <= fuel)%nat ->
    exists e w',
      schedule_run func start_now interval_hour fuel w = (Raise e, w') /\
      ((e = SystemExit 0 /\ head (events w') = Some (EvLog LogInterrupted)) \/
       allowed e \/
       e = KeyboardInterrupt).
Proof.
  intros Hint Hsig.
  assert (Hts : 0 < interval_hour * 60 * 60 / 10) by (apply Qlt_shift_div_l; lra).
  destruct (sleeps_reach (clock w) t _ Hts) as [n Hn].
  exists (S n). intros fuel Hfuel.
  unfold schedule_run.
  assert (Hrest : forall w1, clock w <= clock w1 -> sigint w1 = Some t ->
            exists e w',
              (let* time_now := datetime_now in
               let time_delta := (interval_hour * 3600)%Q in
               let time_next := (time_now + time_delta)%Q in
               let time_sleep_ := (interval_hour * 60 * 60 / 10)%Q in
               logger_info (LogNextRun time_next) ;;
               try_except_KeyboardInterrupt
                 (schedule_loop fuel func time_delta time_sleep_ time_next)
                 (logger_info LogInterrupted ;; exit)) w1 = (Raise e, w') /\
              ((e = SystemExit 0 /\ head (events w') = Some (EvLog LogInterrupted)) \/
               allowed e \/
               e = KeyboardInterrupt)).
  { intros w1 Hck Hsg.
    unfold bind at 1, datetime_now at 1. unfold bind at 1, logger_info at 1.
    unfold try_except_KeyboardInterrupt.
    destruct (schedule_loop_meets_interrupt (interval_hour * 3600)
                (interval_hour * 60 * 60 / 10)
                fuel Hts n (clock w1 + interval_hour * 3600)
                (emit (EvLog (LogNextRun (clock w1 + interval_hour * 3600)%Q)) w1) t)
      as (e & w' & Hrun & He); [exact Hsg | simpl; lra | lia |].
    rewrite Hrun.
    destruct He as [-> | [He Hne]].
    - unfold bind, logger_info, exit, raise.
      eexists _, _. split; [reflexivity |]. left. split; reflexivity.
    - destruct e;
        try (eexists _, _; split; [reflexivity | right; left; exact He]).
      destruct (Hne eq_refl). }
  unfold bind at 1.
  destruct start_now.
  - destruct (Hfunc w) as (new & r & w1 & Hrun & Hck & _ & _ & Hr).
    rewrite Hrun.
    destruct Hr as [[[[-> Hsg] | (e & -> & He)] _] | [-> _]].
    + apply (Hrest w1 Hck). rewrite <- Hsig. exact Hsg.
    + exists e, w1. split; [reflexivity | right; left; exact He].
    + exists KeyboardInterrupt, w1. split; [reflexivity |].
      right; right. reflexivity.
  - unfold ret. apply (Hrest w); [apply Qle_refl | exact Hsig].
Qed.

(** With a negative interval the first pass of the loop calls the
    function at once and then fails in [time.sleep]. *)
Lemma schedule_run_negative (start_now : bool) (interval_hour : Q)
    (fuel : nat) (w : world T) :
  interval_hour < 0 -> (1 <= fuel)%nat ->
  exists new e w',
    schedule_run func start_now interval_hour fuel w = (Raise e, w') /\
    events w' = new ++ events w /\
    (forall s, EvSleep s ∉ new) /\
    (forall s, s ∈ start_times new -> clock w <= s) /\
    (((e = ValueError \/ allowed e) /\ last (start_times new) = Some (clock w)) \/
     e = KeyboardInterrupt \/
     (e = SystemExit 0 /\ head (events w') = Some (EvLog LogInterrupted))).
Proof.
  intros Hneg Hfuel. destruct fuel as [| fuel]; [lia |].
  assert (Hts : ExactQ.ltb (interval_hour * 60 * 60 / 10) 0 = true).
  { apply Q_ltb_lt.
    assert (Heq : interval_hour * 60 * 60 / 10 == interval_hour * 360) by field.
    rewrite Heq. lra. }
  unfold schedule_run.
  assert (Hrest : forall w1 cur,
            clock w <= clock w1 ->
            events w1 = cur ++ events w ->
            (forall s, EvSleep s ∉ cur) ->
            (start_times cur = [] /\ clock w1 = clock w \/ start_times cur = [clock w]) ->
            exists new e w',
              (let* time_now := datetime_now in
               let time_delta := (interval_hour * 3600)%Q in
               let time_next := (time_now + time_delta)%Q in
               let time_sleep_ := (interval_hour * 60 * 60 / 10)%Q in
               logger_info (LogNextRun time_next) ;;
               try_except_KeyboardInterrupt
                 (schedule_loop (S fuel) func time_delta time_sleep_ time_next)
                 (logger_info LogInterrupted ;; exit)) w1 = (Raise e, w') /\
              events w' = new ++ events w /\
              (forall s, EvSleep s ∉ new) /\
              (forall s, s ∈ start_times new -> clock w <= s) /\
              (((e = ValueError \/ allowed e) /\
                last (start_times new) = Some (clock w)) \/
               e = KeyboardInterrupt \/
               (e = SystemExit 0 /\ head (events w') = Some (EvLog LogInterrupted)))).
  { intros w1 cur Hck Hev1 Hsl Hst.
    unfold bind at 1, datetime_now at 1. unfold bind at 1, logger_info at 1.
    unfold try_except_KeyboardInterrupt.
    simpl schedule_loop. unfold bind at 1. unfold datetime_now at 1.
    assert (Hdue : ExactQ.ltb (clock w1 + interval_hour * 3600)
                     (clock (emit (EvLog (LogNextRun (clock w1 + interval_hour * 3600))) w1))
                   = true).
    { apply Q_ltb_lt. simpl. lra. }
    rewrite Hdue.
    unfold bind at 1. unfold bind at 1.
    destruct (Hfunc (emit (EvLog (LogNextRun (clock w1 + interval_hour * 3600))) w1))
      as (added & r & w2 & Hrun & Hck2 & Hev2 & Hnosl & Hr).
    rewrite Hrun. simpl in Hck2, Hev2, Hr.
    set (new := added ++ EvLog (LogNextRun (clock w1 + interval_hour * 3600)) :: cur).
    assert (Hev' : events w2 = new ++ events w).
    { rewrite Hev2, Hev1. unfold new. rewrite <- !app_assoc. reflexivity. }
    assert (Hstart : start_times new = start_times added ++ start_times cur).
    { unfold new. rewrite start_times_app. reflexivity. }
    assert (Hnosleep : forall s, EvSleep s ∉ new).
    { intros s Hin. unfold new in Hin.
      apply elem_of_app in Hin as [Hin | Hin]; [exact (Hnosl s Hin) |].
      apply elem_of_cons in Hin as [Heq | Hin]; [discriminate | exact (Hsl s Hin)]. }
    assert (Hcur : forall s, s ∈ start_times cur -> clock w <= s).
    { intros s Hin. destruct Hst as [[Hnil _] | Hone].
      - rewrite Hnil in Hin. apply elem_of_nil in Hin. destruct Hin.
      - rewrite Hone in Hin. apply list_elem_of_singleton in Hin. subst s. apply Qle_refl. }
    assert (Htimes : (start_times added = [] \/ start_times added = [clock w1]) ->
              forall s, s ∈ start_times new -> clock w <= s).
    { intros Hadd s Hin. rewrite Hstart in Hin.
      apply elem_of_app in Hin as [Hin | Hin]; [| exact (Hcur s Hin)].
      destruct Hadd as [Hadd | Hadd]; rewrite Hadd in Hin.
      - apply elem_of_nil in Hin. destruct Hin.
      - apply list_elem_of_singleton in Hin. subst s. exact Hck. }
    assert (Hfirst : start_times added = [clock w1] ->
              last (start_times new) = Some (clock w)).
    { intros Hadd. rewrite Hstart, Hadd.
      destruct Hst as [[-> ->] | ->]; reflexivity. }
    destruct Hr as [[[[-> _] | (e & -> & He)] Hadd] | [-> Hadd]].
    - unfold datetime_now, bind at 1, logger_info, bind at 1, ret.
      unfold bind, time_sleep. rewrite Hts.
      eexists (EvLog (LogNextRun (clock w2 + interval_hour * 3600)) :: new), ValueError, _.
      split_and!; [reflexivity | | | apply Htimes; right; exact Hadd |].
      + simpl. rewrite Hev'. reflexivity.
      + intros s Hin. apply elem_of_cons in Hin as [Heq | Hin];
          [discriminate | exact (Hnosleep s Hin)].
      + left. split; [left; reflexivity | exact (Hfirst Hadd)].
    - destruct e;
        try (eexists new, _, w2;
             split_and!; [reflexivity | exact Hev' | exact Hnosleep
                         | apply Htimes; right; exact Hadd
                         | left; split; [right; exact He | exact (Hfirst Hadd)]]).
      unfold bind, logger_info, exit, raise.
      eexists (EvLog LogInterrupted :: new), _, _.
      split_and!; [reflexivity | | | apply Htimes; right; exact Hadd |].
      + simpl. rewrite Hev'. reflexivity.
      + intros s Hin. apply elem_of_cons in Hin as [Heq | Hin];
          [discriminate | exact (Hnosleep s Hin)].
      + right; right. split; reflexivity.
    - unfold bind, logger_info, exit, raise.
      eexists (EvLog LogInterrupted :: new), _, _.
      split_and!; [reflexivity | | | apply Htimes; exact Hadd |].
      + simpl. rewrite Hev'. reflexivity.
      + intros s Hin. apply elem_of_cons in Hin as [Heq | Hin];
          [discriminate | exact (Hnosleep s Hin)].
      + right; right. split; reflexivity. }
  unfold bind at 1.
  destruct start_now.
  - destruct (Hfunc w) as (added & r & w1 & Hrun & Hck & Hev1 & Hnosl & Hr).
    rewrite Hrun.
    assert (Htimes : (start_times added = [] \/ start_times added = [clock w]) ->
              forall s, s ∈ start_times added -> clock w <= s).
    { intros [Hadd | Hadd] s Hin; rewrite Hadd in Hin.
      - apply elem_of_nil in Hin. destruct Hin.
      - apply list_elem_of_singleton in Hin. subst s. apply Qle_refl. }
    destruct Hr as [[[[-> _] | (e & -> & He)] Hadd] | [-> Hadd]].
    + destruct (Hrest w1 added Hck Hev1 Hnosl ltac:(right; exact Hadd))
        as (new & e & w' & Hrun' & Hev' & Hsl' & Hst' & He).
      exists new, e, w'.
      split_and!; [exact Hrun' | exact Hev' | exact Hsl' | exact Hst' | exact He].
    + exists added, e, w1.
      split_and!; [reflexivity | exact Hev1 | exact Hnosl | apply Htimes; right; exact Hadd |].
      left. split; [right; exact He | rewrite Hadd; reflexivity].
    + exists added, KeyboardInterrupt, w1.
      split_and!; [reflexivity | exact Hev1 | exact Hnosl | apply Htimes; exact Hadd |].
      right; left. reflexivity.
  - unfold ret.
    destruct (Hrest w [] ltac:(apply Qle_refl) eq_refl) as (new & e & w' & Hrun' & Hrest').
    + intros s Hin. apply elem_of_nil in Hin. destruct Hin.
    + left. split; reflexivity.
    + exists new, e, w'. split; [exact Hrun' | exact Hrest'].
Qed.

End Timed.





(** * The switcher *)

(** ** [RMSseries] *)

Section Series.
Local Open Scope Q_scope.

Lemma Qsum_app (a b : list Q) : Qsum (a ++ b) == Qsum a + Qsum b.
Proof.
  induction a as [| x a IH]; simpl; [unfold Qsum; simpl; lra |].
  unfold Qsum in *. simpl. rewrite IH. lra.
Qed.

Lemma Qsum_reverse (a : list Q) : Qsum (reverse a) == Qsum a.
Proof.
  induction a as [| x a IH]; [reflexivity |].
  rewrite reverse_cons, Qsum_app, IH. unfold Qsum. simpl. lra.
Qed.

Lemma Qsum_nonneg (a : list Q) : (forall x, x ∈ a -> 0 <= x) -> 0 <= Qsum a.
Proof.
  induction a as [| x a IH]; intros Hpos; [unfold Qsum; simpl; lra |].
  assert (0 <= x) by (apply Hpos, elem_of_cons; left; reflexivity).
  assert (0 <= Qsum a) by (apply IH; intros y Hy; apply Hpos, elem_of_cons; right; exact Hy).
  unfold Qsum in *. simpl. lra.
Qed.

Lemma length_cumsum_from (acc : Q) (x : list Q) :
  length (Switcher.cumsum_from acc x) = length x.
Proof.
  revert acc. induction x as [| a x IH]; intros acc; [reflexivity |].
  simpl. rewrite IH. reflexivity.
Qed.

Lemma length_cumsum (x : list Q) : length (Switcher.cumsum x) = length x.
Proof.
  destruct x as [| a x]; [reflexivity |]. simpl. rewrite length_cumsum_from. reflexivity.
Qed.

(** The running sums: entry [k] is the sum of the first [k + 1] values. *)
Lemma cumsum_from_lookup (acc : Q) (x : list Q) (k : nat) (s : Q) :
  Switcher.cumsum_from acc x !! k = Some s -> s == acc + Qsum (take (S k) x).
Proof.
  revert acc k. induction x as [| a x IH]; intros acc k Hk; [discriminate |].
  simpl in Hk. destruct k as [| k]; simpl in Hk.
  - injection Hk as <-. unfold Qsum. simpl. lra.
  - apply IH in Hk. rewrite Hk. simpl. unfold Qsum. simpl. lra.
Qed.

Lemma cumsum_lookup (x : list Q) (k : nat) (s : Q) :
  Switcher.cumsum x !! k = Some s -> s == Qsum (take (S k) x).
Proof.
  destruct x as [| a x]; intros Hk; [discriminate |].
  simpl in Hk. destruct k as [| k]; simpl in Hk.
  - injection Hk as <-. unfold Qsum. simpl. lra.
  - apply cumsum_from_lookup in Hk. rewrite Hk. unfold Qsum. simpl. lra.
Qed.

Lemma length_RMSseries (x : list Q) (binwidth : Q) :
  length (Switcher.RMSseries x binwidth) = length x.
Proof.
  unfold Switcher.RMSseries.
  rewrite length_fmap, length_reverse, length_cumsum, length_reverse. reflexivity.
Qed.

Lemma RMSseries_lookup (x : list Q) (binwidth : Q) (i : nat) (y : Q) :
  Switcher.RMSseries x binwidth !! i = Some y -> y == binwidth * Qsum (drop i x).
Proof.
  unfold Switcher.RMSseries. intros Hy.
  rewrite list_lookup_fmap in Hy.
  destruct (reverse (Switcher.cumsum (reverse x)) !! i) as [s |] eqn:Hs; [| discriminate].
  simpl in Hy. injection Hy as <-.
  apply reverse_lookup_Some in Hs as [Hs Hi].
  rewrite length_cumsum, length_reverse in Hs, Hi.
  apply cumsum_lookup in Hs. rewrite Hs.
  rewrite take_reverse.
  replace (length x - S (length x - S i))%nat with i by lia.
  rewrite Qsum_reverse. reflexivity.
Qed.

End Series.

(** X15. In exact arithmetic [RMSseries] returns as many values as its
    input has; the value of index [i] is [binwidth] times the sum of the
    input values from index [i] on (the spectrum summed from the high
    frequencies down); and for a non-negative [binwidth] and non-negative
    input values the series never increases along the indices.  In
    binary64 arithmetic the series of 1, 2, 3 with a bin width of 0.5 is
    3, 2.5, 1.5. *)
Theorem RMSseries_suffix_sums (x : list Q) (binwidth : Q) :
  length (Switcher.RMSseries x binwidth) = length x /\
  (forall i y, Switcher.RMSseries x binwidth !! i = Some y ->
     (y == binwidth * Qsum (drop i x))%Q) /\
  ((0 <= binwidth)%Q -> (forall a, a ∈ x -> (0 <= a)%Q) ->
   forall i j yi yj,
     (i <= j)%nat ->
     Switcher.RMSseries x binwidth !! i = Some yi ->
     Switcher.RMSseries x binwidth !! j = Some yj ->
     (yj <= yi)%Q) /\
  Switcher.RMSseries [1; 2; 3]%float 0.5%float = [3; 2.5; 1.5]%float.
Proof.
  split_and!; [apply length_RMSseries | apply RMSseries_lookup | | reflexivity].
  intros Hb Hpos i j yi yj Hij Hi Hj.
  apply RMSseries_lookup in Hi, Hj. rewrite Hi, Hj.
  assert (Hsplit : drop i x = take (j - i) (drop i x) ++ drop j x).
  { rewrite <- (take_drop (j - i) (drop i x)) at 1. f_equal.
    rewrite drop_drop. f_equal. lia. }
  rewrite Hsplit, Qsum_app.
  assert (Hpre : (0 <= Qsum (take (j - i) (drop i x)))%Q).
  { apply Qsum_nonneg. intros a Ha. apply Hpos.
    apply (subseteq_drop i x), (subseteq_take (j - i) (drop i x)), Ha. }
  nra.
Qed.

(** ** The script *)

(** Reading the settings leaves the world alone and never runs on. *)
Lemma read_settings_cases (args : Switcher.Namespace) (w : Switcher.world) :
  exists r, Switcher.read_settings args w = (r, w) /\
    ((exists s, r = Switcher.Ok s /\ exists path, Switcher.args_config args = Some path) \/
     (r = Switcher.Raise Switcher.TypeError /\ Switcher.args_config args = None) \/
     (r = Switcher.Raise Switcher.KeyError /\ Switcher.args_config args <> None) \/
     (r = Switcher.Raise Switcher.ValueError /\ Switcher.args_config args <> None)).
Proof.
  unfold Switcher.read_settings.
  destruct (Switcher.args_config args) as [path |]; [| eexists; split; [reflexivity | auto]].
  eexists. split; [reflexivity |].
  set (config := default [] (Switcher.files w !! path)).
  assert (Hget : forall key, Switcher.getitem config key = Switcher.Raise Switcher.KeyError \/
                             exists v, Switcher.getitem config key = Switcher.Ok v).
  { intros key. unfold Switcher.getitem.
    destruct (Text.assoc "Default" config) as [default |]; [| left; reflexivity].
    destruct (Text.assoc key default) as [v |]; [right; eauto | left; reflexivity]. }
  assert (Hint : forall v, Switcher.py_int v = Switcher.Raise Switcher.ValueError \/
                           exists z, Switcher.py_int v = Switcher.Ok z).
  { intros v. unfold Switcher.py_int.
    destruct (Switcher.int_of v) as [z |]; [right; eauto | left; reflexivity]. }
  destruct (Hget "STS_chn") as [-> | [v1 ->]]; simpl; [right; right; left; auto |].
  destruct (Hget "SC_STS_chn") as [-> | [v2 ->]]; simpl; [right; right; left; auto |].
  destruct (Hget "Filter") as [-> | [v3 ->]]; simpl; [right; right; left; auto |].
  destruct (Hget "Switch_chn") as [-> | [v4 ->]]; simpl; [right; right; left; auto |].
  destruct (Hget "Run_Interval") as [-> | [v5 ->]]; simpl; [right; right; left; auto |].
  destruct (Hint v5) as [-> | [z5 ->]]; simpl; [right; right; right; auto |].
  destruct (Hget "TS_Length") as [-> | [v6 ->]]; simpl; [right; right; left; auto |].
  destruct (Hint v6) as [-> | [z6 ->]]; simpl; [right; right; right; auto |].
  left. eauto.
Qed.

(** X16. Started as a program, [auto_switcher.py] never runs a check,
    whatever its arguments, the files on disk and the behaviour of
    [pathswitcher]: it always ends with an exception before
    [schedule_run] is reached, and its run does not depend on
    [pathswitcher].  With [--get_config] it writes the sample file and
    exits with status 0.  Otherwise it ends with [TypeError] when no
    [--config] is given, with [KeyError] or [ValueError] when a setting is
    missing or is no integer, and, when all settings are read, with
    [AttributeError], raised by [logging.addHandler] right after the log
    file has been opened. *)
Theorem switcher_never_checks (pathswitcher : Switcher.M unit)
    (args : Switcher.Namespace) (fuel : nat) (w : Switcher.world) :
  exists new e w',
    Switcher.script pathswitcher args fuel w = (Switcher.Raise e, w') /\
    Switcher.events w' = new ++ Switcher.events w /\
    check_times new = [] /\
    (forall other fuel',
       Switcher.script other args fuel' w = Switcher.script pathswitcher args fuel w) /\
    (e = Switcher.SystemExit 0 <-> Switcher.args_get_config args = true) /\
    (Switcher.args_get_config args = false ->
     match Switcher.read_settings args w with
     | (Switcher.Ok _, _) =>
         e = Switcher.AttributeError /\
         exists path, Switcher.args_config args = Some path /\
           new = [Switcher.EvFileHandler (Text.splitext_root path +:+ ".log")]
     | (Switcher.Raise e', _) =>
         e = e' /\ new = [] /\
         (e = Switcher.TypeError <-> Switcher.args_config args = None) /\
         (e = Switcher.TypeError \/ e = Switcher.KeyError \/ e = Switcher.ValueError)
     | (Switcher.Diverge, _) => False
     end).
Proof.
  unfold Switcher.script.
  destruct (Switcher.args_get_config args) eqn:Hget.
  - eexists [_; _], _, _.
    split; [reflexivity |]. split; [reflexivity |]. split; [reflexivity |].
    split; [reflexivity |]. split; [split; reflexivity |]. discriminate.
  - destruct (read_settings_cases args w) as (r & Hread & Hr).
    cbv beta iota delta [Switcher.bind Switcher.ret].
    rewrite Hread.
    destruct Hr as [(s & -> & path & Hpath) | [[-> Hnone] | [[-> Hsome] | [-> Hsome]]]].
    + rewrite Hpath.
      eexists [_], _, _.
      split; [reflexivity |]. split; [reflexivity |]. split; [reflexivity |].
      split; [reflexivity |]. split; [split; discriminate |].
      intros _. split; [reflexivity |]. exists path. split; reflexivity.
    + eexists [], _, _.
      split; [reflexivity |]. split; [reflexivity |]. split; [reflexivity |].
      split; [reflexivity |]. split; [split; discriminate |].
      intros _. split_and!; [reflexivity | reflexivity | | auto]. split; auto.
    + eexists [], _, _.
      split; [reflexivity |]. split; [reflexivity |]. split; [reflexivity |].
      split; [reflexivity |]. split; [split; discriminate |].
      intros _. split_and!; [reflexivity | reflexivity | | auto].
      split; [discriminate | intros Hn; destruct (Hsome Hn)].
    + eexists [], _, _.
      split; [reflexivity |]. split; [reflexivity |]. split; [reflexivity |].
      split; [reflexivity |]. split; [split; discriminate |].
      intros _. split_and!; [reflexivity | reflexivity | | auto].
      split; [discriminate | intros Hn; destruct (Hsome Hn)].
Qed.

(** The sample configuration is one the script can read: started with it,
    the script opens [brs_switch_sample.log] and fails on line 243. *)
Example switcher_sample_run (pathswitcher : Switcher.M unit) (fuel : nat) :
  exists w1 w2,
    Switcher.generate_sample_config (Switcher.World 0 None ∅ [])
    = (Switcher.Ok tt, w1) /\
    Switcher.read_settings
      {| Switcher.args_config := Some "brs_switch_sample.ini";
         Switcher.args_get_config := false |} w1
    = (Switcher.Ok (Switcher.Settings "L1:ISI-GND_STS_ETMX_X_DQ"
                      "L1:ISI-GND_SENSCOR_ETMX_SUPER_X_OUT_DQ" "zpk([],[],1,'n')"
                      "L1:SEI-CS_SENSCOR_X_INIT_CHAN" 500 1000), w1) /\
    Switcher.script pathswitcher
      {| Switcher.args_config := Some "brs_switch_sample.ini";
         Switcher.args_get_config := false |} fuel w1
    = (Switcher.Raise Switcher.AttributeError, w2) /\
    head (Switcher.events w2) = Some (Switcher.EvFileHandler "brs_switch_sample.log").
Proof.
  eexists _, _. split; [reflexivity |].
  split; [vm_compute; reflexivity |].
  split; [vm_compute; reflexivity | reflexivity].
Qed.

(** ** The schedule of the switcher *)

Lemma check_times_app (a b : list Switcher.event) :
  check_times (a ++ b) = check_times a ++ check_times b.
Proof. apply omap_app. Qed.

Lemma apart_cons (delta now : Q) (times : list Q) :
  apart delta times ->
  (forall s, s ∈ times -> (s + delta <= now)%Q) ->
  apart delta (now :: times).
Proof.
  intros Hap Hhead [| i] later earlier Hl He; simpl in Hl, He.
  - injection Hl as <-. apply Hhead. eapply list_elem_of_lookup_2, He.
  - exact (Hap i later earlier Hl He).
Qed.

Section SwitcherSchedule.
Local Open Scope Q_scope.

Variable func : Switcher.M unit.
Hypothesis Hfunc : passes_time func.

Lemma switcher_loop_apart (Run_Interval : Q) (fuel : nat) :
  forall (w : Switcher.world) (cur base : list Switcher.event),
    Switcher.events w = cur ++ base ->
    apart Run_Interval (check_times cur) ->
    (forall s, s ∈ check_times cur -> s + Run_Interval <= Switcher.clock w) ->
    exists added r w',
      Switcher.schedule_loop fuel func Run_Interval w = (r, w') /\
      Switcher.events w' = added ++ cur ++ base /\
      apart Run_Interval (check_times (added ++ cur)) /\
      ((1 <= fuel)%nat -> last (check_times added) = Some (Switcher.clock w)).
Proof.
  induction fuel as [| fuel IH]; intros w cur base Hev Hap Hinv.
  - exists [], Switcher.Diverge, w.
    split_and!; [reflexivity | exact Hev | exact Hap | lia].
  - simpl. unfold Switcher.bind at 1, Switcher.datetime_now at 1.
    unfold Switcher.bind at 1, Switcher.logger_info at 1.
    unfold Switcher.bind at 1.
    destruct (Hfunc (Switcher.emit (Switcher.EvLog (Switcher.LogRunning (Switcher.clock w))) w))
      as (new & r & w1 & Hrun & Hck & Hev1 & Hnew).
    rewrite Hrun. simpl in Hck, Hev1.
    set (mid := new ++ [Switcher.EvLog (Switcher.LogRunning (Switcher.clock w))]).
    assert (Hev1' : Switcher.events w1 = mid ++ cur ++ base).
    { rewrite Hev1, Hev. unfold mid. rewrite <- app_assoc. reflexivity. }
    assert (Hmid : check_times mid = [Switcher.clock w]).
    { unfold mid. rewrite check_times_app, Hnew. reflexivity. }
    assert (Hap1 : apart Run_Interval (check_times (mid ++ cur))).
    { rewrite check_times_app, Hmid. simpl. apply apart_cons; assumption. }
    assert (Hstop : forall (r0 : Switcher.result unit) (w0 : Switcher.world),
              Switcher.events w0 = Switcher.events w1 ->
              exists added r' w',
                (r0, w0) = (r', w') /\
                Switcher.events w' = added ++ cur ++ base /\
                apart Run_Interval (check_times (added ++ cur)) /\
                ((1 <= S fuel)%nat -> last (check_times added) = Some (Switcher.clock w))).
    { intros r0 w0 Hev0. exists mid, r0, w0.
      split_and!; [reflexivity | rewrite Hev0; exact Hev1' | exact Hap1 |].
      intros _. rewrite Hmid. reflexivity. }
    destruct r as [[] | e |]; [| apply Hstop; reflexivity..].
    unfold Switcher.bind at 1, Switcher.time_sleep.
    destruct (ExactQ.ltb Run_Interval 0) eqn:Hneg; [apply Hstop; reflexivity |].
    apply Q_ltb_ge in Hneg.
    assert (Hgo : exists added r' w',
              Switcher.schedule_loop fuel func Run_Interval
                (Switcher.emit (Switcher.EvSleep Run_Interval)
                   (Switcher.World (Switcher.clock w1 + Run_Interval) (Switcher.sigint w1)
                      (Switcher.files w1) (Switcher.events w1)))
              = (r', w') /\
              Switcher.events w' = added ++ cur ++ base /\
              apart Run_Interval (check_times (added ++ cur)) /\
              ((1 <= S fuel)%nat -> last (check_times added) = Some (Switcher.clock w))).
    { destruct (IH (Switcher.emit (Switcher.EvSleep Run_Interval)
                      (Switcher.World (Switcher.clock w1 + Run_Interval) (Switcher.sigint w1)
                         (Switcher.files w1) (Switcher.events w1)))
                   ((Switcher.EvSleep Run_Interval :: mid) ++ cur) base)
        as (added & r' & w' & Hrun' & Hev' & Hap' & _).
      - simpl. rewrite Hev1', <- app_assoc. reflexivity.
      - exact Hap1.
      - intros s Hin.
        change (check_times ((Switcher.EvSleep Run_Interval :: mid) ++ cur))
          with (check_times (mid ++ cur)) in Hin.
        rewrite check_times_app, Hmid in Hin. simpl in Hin |- *.
        apply elem_of_cons in Hin as [-> | Hin]; [lra |].
        specialize (Hinv s Hin). lra.
      - exists (added ++ Switcher.EvSleep Run_Interval :: mid), r', w'.
        split_and!; [exact Hrun' | | |].
        + rewrite Hev', <- !app_assoc. reflexivity.
        + rewrite <- app_assoc. exact Hap'.
        + intros _. rewrite check_times_app.
          change (check_times (Switcher.EvSleep Run_Interval :: mid))
            with (check_times mid).
          rewrite Hmid. apply last_snoc. }
    destruct (Switcher.sigint w1) as [t |]; [destruct (Qle_bool t _) |];
      [apply Hstop; reflexivity | exact Hgo..].
Qed.

Lemma switcher_schedule_run_apart (Run_Interval : Q) (fuel : nat) (w : Switcher.world) :
  exists new r w',
    Switcher.schedule_run func Run_Interval fuel w = (r, w') /\
    Switcher.events w' = new ++ Switcher.events w /\
    apart Run_Interval (check_times new) /\
    ((1 <= fuel)%nat -> last (check_times new) = Some (Switcher.clock w)) /\
    r <> Switcher.Raise Switcher.KeyboardInterrupt.
Proof.
  unfold Switcher.schedule_run, Switcher.try_except_KeyboardInterrupt.
  destruct (switcher_loop_apart Run_Interval fuel w [] (Switcher.events w))
    as (added & r & w' & Hrun & Hev & Hap & Hfirst).
  - reflexivity.
  - intros i later earlier Hl. discriminate.
  - intros s Hin. apply elem_of_nil in Hin. destruct Hin.
  - rewrite Hrun. rewrite app_nil_r in Hap. simpl in Hev.
    assert (Hdefault : r <> Switcher.Raise Switcher.KeyboardInterrupt ->
              exists new r0 w0,
                (r, w') = (r0, w0) /\
                Switcher.events w0 = new ++ Switcher.events w /\
                apart Run_Interval (check_times new) /\
                ((1 <= fuel)%nat -> last (check_times new) = Some (Switcher.clock w)) /\
                r0 <> Switcher.Raise Switcher.KeyboardInterrupt).
    { intros Hr. exists added, r, w'.
      split_and!; [reflexivity | exact Hev | exact Hap | exact Hfirst | exact Hr]. }
    destruct r as [[] | e |]; try (apply Hdefault; discriminate).
    destruct e; try (apply Hdefault; discriminate).
    unfold Switcher.bind, Switcher.logger_info, Switcher.exit, Switcher.raise.
    eexists (Switcher.EvLog Switcher.LogInterrupted :: added), _, _.
    split_and!; [reflexivity | | exact Hap | exact Hfirst | discriminate].
    simpl. rewrite Hev. reflexivity.
Qed.

End SwitcherSchedule.

(** X17. The [schedule_run] of the switcher, for any function that logs
    no check of its own and does not set the clock back: the first check
    is logged at the time of the call, without a first wait; any two
    successive checks are at least [Run_Interval] apart; and
    [KeyboardInterrupt] never leaves [schedule_run] (it is turned into an
    exit). *)
Theorem switcher_checks_apart (func : Switcher.M unit) (Run_Interval : Q) (fuel : nat)
    (w : Switcher.world) :
  passes_time func ->
  exists new r w',
    Switcher.schedule_run func Run_Interval fuel w = (r, w') /\
    Switcher.events w' = new ++ Switcher.events w /\
    apart Run_Interval (check_times new) /\
    ((1 <= fuel)%nat -> last (check_times new) = Some (Switcher.clock w)) /\
    r <> Switcher.Raise Switcher.KeyboardInterrupt.
Proof.
  intros Hfunc. exact (switcher_schedule_run_apart func Hfunc Run_Interval fuel w).
Qed.

Lemma switcher_checks_apart_witness :
  passes_time (Switcher.ret tt) /\
  exists new r w',
    Switcher.schedule_run (Switcher.ret tt) 500 3 (Switcher.World 0 None ∅ []) = (r, w') /\
    Switcher.events w' = new ++ [] /\
    apart 500 (check_times new).
Proof.
  assert (Hfunc : passes_time (Switcher.ret tt)).
  { intros w. exists [], (Switcher.Ok tt), w.
    split_and!; [reflexivity | apply Qle_refl | reflexivity | reflexivity]. }
  split; [exact Hfunc |].
  destruct (switcher_checks_apart (Switcher.ret tt) 500 3 (Switcher.World 0 None ∅ []) Hfunc)
    as (new & r & w' & Hrun & Hev & Hap & _).
  exists new, r, w'. split_and!; [exact Hrun | exact Hev | exact Hap].
Defined.
